(** * UE-CGRA analytical model: dataflow graph, simulator clock and power mapping

    A shallow embedding of [Graph.py], [Node.py], [Simulator.py],
    [PowerModel.py] and [parameters.py].

    Conventions of the embedding:
    - Python dictionaries whose iteration order is observable (the node
      table) are association lists in insertion order; dictionaries that
      are only looked up are [gmap]s; Python sets are [gset]s, and the order
      in which a set is iterated is left open (an enumeration parameter).
    - A call that may raise returns an [outcome]; loops whose termination is
      not structural take fuel and answer [OutOfFuel] when it is exhausted.
    - Simulator times are IEEE-754 binary64 numbers ([PrimFloat]) or ints,
      compared by value; voltages and the quantities of the analytical
      power model are the rationals denoted by the decimal literals of the
      source.
    - A character of a string is a code point below 256. *)

From Stdlib Require Import ZArith QArith Ascii String PrimFloat SpecFloat
  FloatOps Lia Lqa.
From stdpp Require Import gmap strings list fin_maps sets pretty.

Close Scope Q_scope.
#[local] Set Warnings "-inexact-float".


(** ** Exceptions and outcomes *)

Inductive exn : Type :=
| KeyError | ValueError | IndexError | AssertionError | TypeError
| ZeroDivisionError.

Inductive outcome (A : Type) : Type :=
| Returns (a : A)
| Raises (e : exn)
| OutOfFuel.
Arguments Returns {A} a.
Arguments Raises {A} e.
Arguments OutOfFuel {A}.

Global Instance outcome_ret : MRet outcome := λ A a, Returns a.

Global Instance outcome_bind : MBind outcome := λ A B k x,
  match x with
  | Returns a => k a
  | Raises e => Raises e
  | OutOfFuel => OutOfFuel
  end.

Definition raises {A} (x : outcome A) : Prop := ∃ e, x = Raises e.

(** ** parameters.py *)

(** The op classes known to the analytical model: the values of [conf_ops]
    together with the classes of the synthesized nodes. *)
Inductive Op : Type :=
| mul | alu | cp | cmp | byp | sram | phi | br | const | zero.

Global Instance Op_eq_dec : EqDecision Op.
Proof. solve_decision. Defined.

Inductive dvfs_mode : Type := nominal | fast | slow.

(** [conf_dvfs]: a voltage and a cycle-time pair per mode. *)
Definition conf_dvfs_V (m : dvfs_mode) : Q :=
  match m with nominal => 90 # 100 | fast => 123 # 100 | slow => 61 # 100 end.

Definition conf_dvfs_T (m : dvfs_mode) : Q :=
  match m with nominal => 1 | fast => 66 # 100 | slow => 3 end.

(** ** Node.py *)

Record Node : Type := mkNode {
  name  : string;
  op    : Op;
  label : string;
  V     : Q;
  T     : Q;
}.

(** [Node( name, graph, op='mul', label='', V_N=0.9, T_N=1.0 )] *)
Definition Node_init (n : string) (o : Op) (l : string) : Node :=
  mkNode n o l (90 # 100) 1.

Definition set_op (n : Node) (o : Op) : Node :=
  mkNode (name n) o (label n) (V n) (T n).
Definition set_V (n : Node) (v : Q) : Node :=
  mkNode (name n) (op n) (label n) v (T n).
Definition set_T (n : Node) (t : Q) : Node :=
  mkNode (name n) (op n) (label n) (V n) t.

(** ** Graph.py *)

Module Graph.

Record t : Type := mk {
  nodes            : list (string * Node);
  srcs_adjlist     : gmap string (gset string);
  dsts_adjlist     : gmap string (gset string);
  recurrence_edges : list (string * string);
  json             : string;
}.

Definition init : t := mk [] ∅ ∅ [] "graph.json".

(** *** Nodes *)

Definition all_nodes (g : t) : list string := fst <$> nodes g.

Fixpoint assoc {A} (k : string) (l : list (string * A)) : option A :=
  match l with
  | [] => None
  | (k', a) :: l' => if decide (k = k') then Some a else assoc k l'
  end.

Definition add_node (g : t) (n : Node) : outcome t :=
  if decide (name n ∈ all_nodes g) then Raises AssertionError
  else Returns (mk (nodes g ++ [(name n, n)]) (srcs_adjlist g)
                   (dsts_adjlist g) (recurrence_edges g) (json g)).

Definition get_node (g : t) (node_name : string) : outcome Node :=
  match assoc node_name (nodes g) with
  | Some n => Returns n
  | None => Raises KeyError
  end.

Definition delete_node (g : t) (node_name : string) : outcome t :=
  if decide (node_name ∈ all_nodes g)
  then Returns (mk (filter (λ kv, kv.1 ≠ node_name) (nodes g))
                   (srcs_adjlist g) (dsts_adjlist g)
                   (recurrence_edges g) (json g))
  else Raises KeyError.

(** *** Edges *)

Definition get_srcs (g : t) (node_name : string) : gset string :=
  match srcs_adjlist g !! node_name with
  | Some s => s
  | None => ∅
  end.

Definition get_dsts (g : t) (node_name : string) : gset string :=
  match dsts_adjlist g !! node_name with
  | Some s => s
  | None => ∅
  end.

Definition get_liveins (g : t) : list string :=
  filter (λ n, n ∉ dom (srcs_adjlist g)) (all_nodes g).

Definition get_liveouts (g : t) : list string :=
  filter (λ n, n ∉ dom (dsts_adjlist g)) (all_nodes g).

(** [if k not in adj.keys(): adj[k] = set()] then [adj[k].add( x )] *)
Definition adj_add (k x : string) (adj : gmap string (gset string))
  : gmap string (gset string) :=
  let adj' := match adj !! k with
              | Some _ => adj
              | None => <[k := ∅]> adj
              end in
  alter (λ s, s ∪ {[x]}) k adj'.

(** [if k in adj.keys():] remove [x] when present, then drop an emptied key *)
Definition adj_remove (k x : string) (adj : gmap string (gset string))
  : gmap string (gset string) :=
  match adj !! k with
  | Some s =>
      let s' := if decide (x ∈ s) then s ∖ {[x]} else s in
      if decide (size s' = 0) then delete k adj else <[k := s']> adj
  | None => adj
  end.

Definition connect (g : t) (src_name dst_name : string) (recurrence : bool)
  : t :=
  mk (nodes g)
     (adj_add dst_name src_name (srcs_adjlist g))
     (adj_add src_name dst_name (dsts_adjlist g))
     (if recurrence
      then recurrence_edges g ++ [(src_name, dst_name)]
      else recurrence_edges g)
     (json g).

(** The [recurrence] argument of [disconnect] is never read. *)
Definition disconnect (g : t) (src_name dst_name : string) (recurrence : bool)
  : t :=
  mk (nodes g)
     (adj_remove dst_name src_name (srcs_adjlist g))
     (adj_remove src_name dst_name (dsts_adjlist g))
     (recurrence_edges g)
     (json g).

(** *** Ordering *)

(** The places where [topological_sort] iterates over a Python set. The
    order in which a set yields its elements is not fixed by the language,
    so it is a parameter of the model, and it may differ from place to
    place. *)
Inductive site : Type :=
| copy_of (node_name : string)   (* [list(src_list)] for one key *)
| ready_at (iteration : nat)     (* [order.extend( nodes_without_deps )] *)
| frontier_at (iteration : nat). (* [list(nodes)[0]] *)

Section ordering.
Variable enum : site → gset string → list string.

(** [adjlist[ node_name ] = list(src_list)] *)
Definition copy_edges (g : t) : gmap string (list string) :=
  map_imap (λ node_name src_list, Some (enum (copy_of node_name) src_list))
           (srcs_adjlist g).

(** [idx = l.index( x ); del( l[ idx ] )]; [None] when [index] raises *)
Fixpoint remove_first (x : string) (l : list string) : option (list string) :=
  match l with
  | [] => None
  | y :: l' =>
      if decide (x = y) then Some l' else cons y <$> remove_first x l'
  end.

Definition remove_recurrence (adjlist : gmap string (list string))
    (e : string * string) : outcome (gmap string (list string)) :=
  let '(src_name, dst_name) := e in
  match adjlist !! dst_name with
  | None => Raises KeyError
  | Some l =>
      match remove_first src_name l with
      | None => Raises ValueError
      | Some l' => Returns (<[dst_name := l']> adjlist)
      end
  end.

Fixpoint remove_recurrences (adjlist : gmap string (list string))
    (es : list (string * string)) : outcome (gmap string (list string)) :=
  match es with
  | [] => Returns adjlist
  | e :: es' =>
      adjlist' ← remove_recurrence adjlist e;
      remove_recurrences adjlist' es'
  end.

(** Drop from every predecessor list the sources already in [order],
    then drop the keys whose list became empty. *)
Definition prune (order : list string) (adjlist : gmap string (list string))
  : gmap string (list string) :=
  filter (λ kv, kv.2 ≠ [])
         (filter (λ src, src ∉ order) <$> adjlist).

(** [del( adjlist[any_node][-1] )], and the key with it when that was
    the last predecessor. *)
Definition break_edge (any_node : string)
    (adjlist : gmap string (list string))
  : outcome (gmap string (list string)) :=
  match adjlist !! any_node with
  | None => Raises KeyError
  | Some [] => Raises IndexError
  | Some l =>
      let l' := removelast l in
      Returns (if decide (l' = []) then delete any_node adjlist
               else <[any_node := l']> adjlist)
  end.

Fixpoint sort_loop (fuel iteration : nat) (nodes : gset string)
    (adjlist : gmap string (list string)) (order : list string)
  : outcome (list string) :=
  if decide (nodes = ∅) then Returns order else
  match fuel with
  | 0 => OutOfFuel
  | S fuel' =>
      let nodes_with_deps := dom adjlist in
      let nodes_without_deps := nodes ∖ nodes_with_deps in
      let order := order ++ enum (ready_at iteration) nodes_without_deps in
      let nodes := nodes_with_deps in
      let adjlist := prune order adjlist in
      if decide (nodes_without_deps = ∅) then
        match enum (frontier_at iteration) nodes with
        | [] => Raises IndexError
        | any_node :: _ =>
            adjlist' ← break_edge any_node adjlist;
            sort_loop fuel' (S iteration) nodes adjlist' order
        end
      else sort_loop fuel' (S iteration) nodes adjlist order
  end.

(** Every second pass of the loop at the latest removes a predecessor or
    a key of the working copy, which bounds the number of passes. *)
Definition sort_fuel (nodes : list string)
    (adjlist : gmap string (list string)) : nat :=
  length nodes +
  2 * map_fold (λ _ l acc, S (length l) + acc) 0 adjlist + 2.

Definition topological_sort (g : t) : outcome (list string) :=
  adjlist ← remove_recurrences (copy_edges g) (recurrence_edges g);
  sort_loop (sort_fuel (all_nodes g) adjlist) 0
            (list_to_set (all_nodes g)) adjlist [].
End ordering.

(** *** Export *)

(** The values found in a tile record of the configuration JSON. *)
Inductive jvalue : Type :=
| JInt (z : Z)
| JStr (s : string)
| JList (l : list string).

(** [config[key]] *)
Definition getitem (config : gmap string jvalue) (key : string)
  : outcome jvalue :=
  match config !! key with
  | Some v => Returns v
  | None => Raises KeyError
  end.

(** **** [str( v )]

    [format] puts the [str] of whatever value it is given into the name:
    the decimal digits of an int, a string as it is, and for a list the
    [repr] of its strings between brackets. A character of a string is a
    code point below 256. *)

(** [ch.isprintable()] *)
Definition isprintable (n : N) : bool :=
  ((32 <=? n) && (n <? 127) || (161 <=? n) && negb (n =? 173))%N.

Definition hex_digit (n : N) : ascii :=
  ascii_of_N (if (n <? 10)%N then 48 + n else 87 + n).

Definition backslash : ascii := ascii_of_N 92.
Definition single_quote : ascii := ascii_of_N 39.
Definition double_quote : ascii := ascii_of_N 34.

(** A character of a [repr], between quotes [quote]. *)
Definition repr_char (quote ch : ascii) : string :=
  let n := N_of_ascii ch in
  if Ascii.eqb ch quote || Ascii.eqb ch backslash
  then String backslash (String ch EmptyString)
  else if (n =? 9)%N then String backslash "t"
  else if (n =? 10)%N then String backslash "n"
  else if (n =? 13)%N then String backslash "r"
  else if isprintable n then String ch EmptyString
  else String backslash
         (String "x" (String (hex_digit (n / 16))
                        (String (hex_digit (n mod 16)) EmptyString))).

Fixpoint occurs (ch : ascii) (s : string) : bool :=
  match s with
  | EmptyString => false
  | String c s' => Ascii.eqb c ch || occurs ch s'
  end.

Fixpoint repr_chars (quote : ascii) (s : string) : string :=
  match s with
  | EmptyString => EmptyString
  | String c s' => repr_char quote c +:+ repr_chars quote s'
  end.

(** [repr( s )]: between double quotes when [s] has a single quote and no
    double quote, between single quotes otherwise. *)
Definition repr_str (s : string) : string :=
  let quote := if occurs single_quote s && negb (occurs double_quote s)
               then double_quote else single_quote in
  String quote (repr_chars quote s) +:+ String quote EmptyString.

(** [', '.join( l )] *)
Fixpoint join (l : list string) : string :=
  match l with
  | [] => EmptyString
  | [s] => s
  | s :: l' => s +:+ ", " +:+ join l'
  end.

Definition str_value (v : jvalue) : string :=
  match v with
  | JInt z => pretty z
  | JStr s => s
  | JList l => "[" +:+ join (repr_str <$> l) +:+ "]"
  end.

(** ['x{}_y{}'.format( xi, yi )] *)
Definition get_name (xi yi : jvalue) : string :=
  "x" +:+ str_value xi +:+ "_y" +:+ str_value yi.

Definition dvfs_label (v : Q) : string :=
  if Qlt_le_dec v (65 # 100) then "rest"
  else if Qlt_le_dec v (95 # 100) then "nominal"
  else "sprint".

(** The body of [for config in data]. *)
Definition dump_config (g : t) (config : gmap string jvalue)
  : outcome (gmap string jvalue) :=
  xi ← getitem config "x";
  yi ← getitem config "y";
  let name := get_name xi yi in
  match filter (λ n, String.prefix name n = true) (all_nodes g) with
  | [] => Raises IndexError
  | node_name :: _ =>
      node ← get_node g node_name;
      Returns (<["dvfs" := JStr (dvfs_label (V node))]> config)
  end.

(** [dump_vf_json]: [data] is the content of the file [s.json], [None]
    when there is no such file; the result is what is written to the new
    file, [None] when nothing is written. *)
Definition dump_vf_json (g : t) (data : option (list (gmap string jvalue)))
  : outcome (option (list (gmap string jvalue))) :=
  match data with
  | None => Returns None
  | Some data => data' ← mapM (dump_config g) data; Returns (Some data')
  end.

(** Graph states built from the constructor by the public operations. *)
Inductive reachable : t → Prop :=
| reach_init : reachable init
| reach_add_node g n g' :
    reachable g → add_node g n = Returns g' → reachable g'
| reach_delete_node g k g' :
    reachable g → delete_node g k = Returns g' → reachable g'
| reach_connect g u v r :
    reachable g → reachable (connect g u v r)
| reach_disconnect g u v r :
    reachable g → reachable (disconnect g u v r).

End Graph.

(** ** PowerModel.py *)

Module PowerModel.
Local Open Scope Q_scope.

(** The fields of a [PowerModel] that the power equations read. The
    constants set in the constructor are definitions below. *)
Record t : Type := mk {
  nodes      : list Node;
  l_nodes    : list Node;
  throughput : Q;
  latency    : Q;
  P_alloc    : Q;
}.

Definition N_T : Q := 64.
Definition N_S : Q := 16.
Definition V_N : Q := 9 # 10.
Definition V_min : Q := 65 # 100.
Definition V_max : Q := 125 # 100.

Definition alpha_mul : Q := 1.
Definition alpha_alu : Q := 33 # 100.
Definition alpha_cp : Q := 22 # 100.
Definition alpha_cmp : Q := 22 # 100.
Definition alpha_byp : Q := 11 # 100.
Definition alpha_sram : Q := 82 # 100.
Definition alpha_phi : Q := alpha_cp.
Definition alpha_br : Q := alpha_cmp.
Definition gamma : Q := 1 # 10.
Definition beta : Q := 2.
Definition s_exp : Z := 2.

Definition f (V : Q) : Q :=
  - (11616 # 10) * V ^ 2 + (40569 # 10) * V - (16891 # 10).

Definition alpha (o : Op) : Q :=
  match o with
  | mul => alpha_mul
  | alu => alpha_alu
  | cp => alpha_cp
  | cmp => alpha_cmp
  | byp => alpha_byp
  | sram => alpha_sram
  | phi => alpha_phi
  | br => alpha_br
  | const => 0
  | zero => 0
  end.

Section equations.
Variable s : t.

Definition P_tile_dynamic (V : Q) (o : Op) : Q :=
  alpha o * throughput s * f V * V ^ s_exp.

Definition I_L : Q :=
  (gamma * P_tile_dynamic V_N mul) / (V_N * (1 - gamma)).

Definition P_tile_static (V : Q) : Q := V * I_L.

Definition P_tile_total (V : Q) (o : Op) : Q :=
  P_tile_static V + P_tile_dynamic V o.

Definition E_tile_total (V : Q) (o : Op) : Q :=
  P_tile_total V o * latency s.

Definition P_sram_static (V : Q) : Q := V * I_L * beta.

Definition P_sram_dynamic (V : Q) : Q :=
  alpha sram * throughput s * f V * V ^ s_exp.

Definition P_sram_total (V : Q) : Q := P_sram_static V + P_sram_dynamic V.

Definition E_sram_total (V : Q) : Q := P_sram_total V * latency s.

(** [P = 0.0] then [for n in ns: P += term( n )] *)
Definition accumulate (term : Node → Q) (ns : list Node) : Q :=
  fold_left (λ P n, P + term n) ns 0.

Definition P_cgra_static_tiles : Q :=
  accumulate (λ n, P_tile_static (V n)) (nodes s).
Definition P_cgra_static_srams : Q :=
  accumulate (λ n, P_sram_static (V n)) (l_nodes s).
Definition P_cgra_dynamic_tiles : Q :=
  accumulate (λ n, P_tile_dynamic (V n) (op n)) (nodes s).
Definition P_cgra_dynamic_srams : Q :=
  accumulate (λ n, P_sram_dynamic (V n)) (l_nodes s).

Definition P_cgra_static : Q := P_cgra_static_tiles + P_cgra_static_srams.
Definition P_cgra_dynamic : Q := P_cgra_dynamic_tiles + P_cgra_dynamic_srams.
Definition P_cgra_tiles : Q := P_cgra_static_tiles + P_cgra_dynamic_tiles.
Definition P_cgra_srams : Q := P_cgra_static_srams + P_cgra_dynamic_srams.
Definition P_cgra_total : Q := P_cgra_static + P_cgra_dynamic.

Definition E_cgra_static_tiles : Q := P_cgra_static_tiles * latency s.
Definition E_cgra_static_srams : Q := P_cgra_static_srams * latency s.
Definition E_cgra_dynamic_tiles : Q := P_cgra_dynamic_tiles * latency s.
Definition E_cgra_dynamic_srams : Q := P_cgra_dynamic_srams * latency s.
Definition E_cgra_static : Q := P_cgra_static * latency s.
Definition E_cgra_dynamic : Q := P_cgra_dynamic * latency s.
Definition E_cgra_tiles : Q := P_cgra_tiles * latency s.
Definition E_cgra_srams : Q := P_cgra_srams * latency s.
Definition E_cgra_total : Q := P_cgra_total * latency s.
End equations.

(** [PowerModel( graph )]: the node lists, [perf = { 'throughput': 0,
    'latency': 0 }] and the power envelope computed from it. *)
Definition init (enum : Graph.site → gset string → list string)
    (g : Graph.t) : outcome t :=
  order ← Graph.topological_sort enum g;
  all ← mapM (Graph.get_node g) order;
  l_all ← mapM (Graph.get_node g) (Graph.get_liveins g ++ Graph.get_liveouts g);
  let ns := filter (λ n, op n ≠ const) all in
  let ls := filter (λ n, op n ≠ const) l_all in
  let s0 := mk ns ls 0 0 0 in
  Returns (mk ns ls 0 0
              (N_T * P_tile_total s0 V_N mul + N_S * P_sram_total s0 V_N)).

(** *** Autosearch, phase 3: the choice among the candidate voltages *)

(** [vf_options] of the performance-first pass. *)
Definition vf_options (lowest_vf highest_vf : Q) : list Q :=
  if Qlt_le_dec lowest_vf (65 # 100) then
    if Qlt_le_dec highest_vf (95 # 100)
    then [61 # 100; 90 # 100]
    else [61 # 100; 90 # 100; 123 # 100]
  else [90 # 100; 123 # 100].

(** [max( ed_product.values() )] *)
Definition max_value (ed_product : list (Q * Q)) : outcome Q :=
  match ed_product with
  | [] => Raises ValueError
  | (_, v) :: rest =>
      Returns (fold_left (λ m kv, if Qlt_le_dec m kv.2 then kv.2 else m) rest v)
  end.

(** [max_vf = 0] then [for vf, value in ed_product.items(): if max_ed >=
    0.99*value: max_vf = vf]; [ed_product] lists the dictionary in
    insertion order, which is the order of [vf_options]. *)
Definition pick_vf (ed_product : list (Q * Q)) : outcome Q :=
  max_ed ← max_value ed_product;
  Returns (fold_left
             (λ max_vf kv,
                if Qle_bool ((99 # 100) * kv.2) max_ed then kv.1 else max_vf)
             ed_product 0).

(** *** Autosearch, phase 1: [group_nodes] *)

(** [is_singly_chained( node )] *)
Definition is_singly_chained (g : Graph.t) (node : Node) : bool :=
  (size (Graph.get_srcs g (name node)) =? 1)%nat
  && (size (Graph.get_dsts g (name node)) =? 1)%nat.

(** One of the two [while True] loops of [group_nodes]; [step] is
    [all_dsts] in the search forward and [all_srcs] in the search backward.
    [list( ... )[0]] is taken of the set of a singly chained node, which has
    one element. The loop has no bound of its own: it runs on [fuel]. *)
Fixpoint chain_walk (fuel : nat) (g : Graph.t)
    (step : Graph.t → string → gset string) (current_node : Node)
    (group visited : list string) : outcome (list string * list string) :=
  match fuel with
  | O => OutOfFuel
  | S fuel' =>
      match elements (step g (name current_node)) with
      | [] => Raises IndexError
      | next_node_name :: _ =>
          next_node ← Graph.get_node g next_node_name;
          let visited := visited ++ [next_node_name] in
          if is_singly_chained g next_node
          then chain_walk fuel' g step next_node
                          (group ++ [next_node_name]) visited
          else Returns (group, visited)
      end
  end.

(** The state of the loop over the nodes: [groups] in insertion order,
    [visited] and [count]. *)
Definition grouping : Type := list (nat * list string) * list string * nat.

(** The body of [for node_name in nodes]. *)
Definition group_node (fuel : nat) (g : Graph.t) (st : grouping)
    (node_name : string) : outcome grouping :=
  let '(groups, visited, count) := st in
  if decide (node_name ∈ visited) then Returns st else
  let visited := visited ++ [node_name] in
  node ← Graph.get_node g node_name;
  if is_singly_chained g node then
    fwd ← chain_walk fuel g Graph.get_dsts node [node_name] visited;
    bwd ← chain_walk fuel g Graph.get_srcs node fwd.1 fwd.2;
    Returns (groups ++ [(count, bwd.1)], bwd.2, S count)
  else Returns (groups, visited, count).

Fixpoint group_each (fuel : nat) (g : Graph.t) (st : grouping)
    (nodes : list string) : outcome grouping :=
  match nodes with
  | [] => Returns st
  | node_name :: nodes' =>
      st' ← group_node fuel g st node_name;
      group_each fuel g st' nodes'
  end.

(** [reduce( lambda x, y: x+y, groups.values() )] *)
Definition all_grouped (groups : list (nat * list string))
  : outcome (list string) :=
  match groups.*2 with
  | [] => Raises TypeError
  | l :: ls => Returns (fold_left app ls l)
  end.

(** [for node_name in other_nodes: groups[count] = [ node_name ]] *)
Fixpoint group_others (groups : list (nat * list string)) (count : nat)
    (other_nodes : list string) : list (nat * list string) :=
  match other_nodes with
  | [] => groups
  | node_name :: others =>
      group_others (groups ++ [(count, [node_name])]) (S count) others
  end.

(** [group_nodes]; [enum] is the order in which Python enumerates the set
    [other_nodes]. *)
Definition group_nodes (enum : gset string → list string) (fuel : nat)
    (g : Graph.t) : outcome (list (nat * list string)) :=
  let nodes := Graph.all_nodes g in
  st ← group_each fuel g ([], [], 1%nat) nodes;
  let '(groups, visited, count) := st in
  grouped ← all_grouped groups;
  let other_nodes : gset string :=
    list_to_set visited ∖ list_to_set grouped in
  let groups := group_others groups count (enum other_nodes) in
  if decide (length nodes = sum_list (length <$> groups.*2))
  then Returns groups
  else Raises AssertionError.

(** *** Changing VF *)

(** Node objects are shared between the graph and the power model and
    are changed in place: [update_node] is the node table after the object
    filed under [node_name] has been changed by [f]. *)
Fixpoint update (node_name : string) (f : Node → Node)
    (l : list (string * Node)) : list (string * Node) :=
  match l with
  | [] => []
  | (k, n) :: l' =>
      if decide (node_name = k) then (k, f n) :: l'
      else (k, n) :: update node_name f l'
  end.

Definition update_node (g : Graph.t) (node_name : string) (f : Node → Node)
  : Graph.t :=
  Graph.mk (update node_name f (Graph.nodes g)) (Graph.srcs_adjlist g)
           (Graph.dsts_adjlist g) (Graph.recurrence_edges g) (Graph.json g).

(** [T( V )]: the cycle time of a voltage of [conf_dvfs]. *)
Definition T (v : Q) : outcome Q :=
  if Qeq_bool v (conf_dvfs_V nominal) then Returns (conf_dvfs_T nominal)
  else if Qeq_bool v (conf_dvfs_V fast) then Returns (conf_dvfs_T fast)
  else if Qeq_bool v (conf_dvfs_V slow) then Returns (conf_dvfs_T slow)
  else Raises AssertionError.

(** [set_V_node]: the graph it leaves behind, also when it raises, and its
    outcome. The voltage is set before [T(V)] is looked up. *)
Definition set_V_node (g : Graph.t) (node_name : string) (v : Q)
  : Graph.t * outcome unit :=
  match Graph.get_node g node_name with
  | Returns _ =>
      let g1 := update_node g node_name (λ n, set_V n v) in
      match T v with
      | Returns t => (update_node g1 node_name (λ n, set_T n t), Returns tt)
      | Raises e => (g1, Raises e)
      | OutOfFuel => (g1, OutOfFuel)
      end
  | Raises e => (g, Raises e)
  | OutOfFuel => (g, OutOfFuel)
  end.

(** [set_V_range]; [V_range] lists the dictionary in insertion order. *)
Fixpoint set_V_range (g : Graph.t) (V_range : list (string * Q))
  : Graph.t * outcome unit :=
  match V_range with
  | [] => (g, Returns tt)
  | (node_name, v) :: rest =>
      match set_V_node g node_name v with
      | (g', Returns _) => set_V_range g' rest
      | r => r
      end
  end.

(** [extract_node_settings] *)
Definition extract_node_settings (g : Graph.t) : outcome (list (string * Q)) :=
  mapM (λ node_name,
          node ← Graph.get_node g node_name; Returns (node_name, V node))
       (Graph.all_nodes g).

End PowerModel.

(** ** Simulator.py *)

Module Simulator.

(** *** Python numbers

    A time of the simulator is a float, or the int that [round] puts in
    the place of one. *)

Inductive number : Type :=
| NFloat (x : float)
| NInt (n : Z).

(** [float( n )] of an int, rounded to nearest even. *)
Definition float_of_int (n : Z) : float :=
  SF2Prim (binary_normalize prec emax n 0 false).

Definition to_float (a : number) : float :=
  match a with NFloat x => x | NInt n => float_of_int n end.

(** [a + b]: an int when both operands are ints, a float otherwise. *)
Definition add (a b : number) : number :=
  match a, b with
  | NInt m, NInt n => NInt (m + n)
  | _, _ => NFloat (to_float a + to_float b)
  end.

(** **** [a < b] and [a == b]

    Python compares two numbers by their values, an int with a float
    without rounding the int; a NaN is neither below nor equal to
    anything. *)

(** [2^e] as a fraction. *)
Definition pow2 (e : Z) : Q :=
  if (0 <=? e)%Z then inject_Z (2 ^ e) else Qmake 1 (Z.to_pos (2 ^ (- e))).

Inductive value : Type :=
| NegInf
| Fin (q : Q)
| PosInf.

Definition value_of_float (x : float) : option value :=
  match Prim2SF x with
  | S754_zero _ => Some (Fin 0)
  | S754_infinity s => Some (if s then NegInf else PosInf)
  | S754_nan => None
  | S754_finite s m e =>
      Some (Fin (inject_Z (if s then Z.neg m else Z.pos m) * pow2 e)%Q)
  end.

Definition value_of (a : number) : option value :=
  match a with
  | NFloat x => value_of_float x
  | NInt n => Some (Fin (inject_Z n))
  end.

Definition value_lt (x y : value) : bool :=
  match x, y with
  | NegInf, NegInf => false
  | NegInf, _ => true
  | Fin p, Fin q => negb (Qle_bool q p)
  | Fin _, PosInf => true
  | _, _ => false
  end.

Definition value_eq (x y : value) : bool :=
  match x, y with
  | NegInf, NegInf => true
  | Fin p, Fin q => Qeq_bool p q
  | PosInf, PosInf => true
  | _, _ => false
  end.

Definition lt (a b : number) : bool :=
  match value_of a, value_of b with
  | Some x, Some y => value_lt x y
  | _, _ => false
  end.

Definition eq (a b : number) : bool :=
  match value_of a, value_of b with
  | Some x, Some y => value_eq x y
  | _, _ => false
  end.

(** **** [round( x )]: the nearest int, halfway cases to the even one;
    [None] stands for the [OverflowError] raised for an infinity and the
    [ValueError] raised for a NaN. *)
Definition round_float (x : float) : option Z :=
  match Prim2SF x with
  | S754_zero _ => Some 0%Z
  | S754_infinity _ => None
  | S754_nan => None
  | S754_finite s m e =>
      let n :=
        if (0 <=? e)%Z then (Z.pos m * 2 ^ e)%Z
        else
          let d := (2 ^ (- e))%Z in
          let q := (Z.pos m / d)%Z in
          let r := (Z.pos m mod d)%Z in
          match (2 * r ?= d)%Z with
          | Lt => q
          | Gt => (q + 1)%Z
          | Eq => if Z.even q then q else (q + 1)%Z
          end in
      Some (if s then (- n)%Z else n)
  end.

Definition round (a : number) : option Z :=
  match a with NFloat x => round_float x | NInt n => Some n end.

(** **** [str( x )]

    In Python 3, which the [print( ... )] calls and the import of
    [reduce] from [functools] tell the code is written for, the [str] of a
    float is its [repr]: the shortest string of decimal digits that
    reads back as the same float, the nearest to it when several do; it is
    laid out with a decimal point when the exponent is between -4 and 16
    and with an exponent otherwise. *)

(** [10^e] as a fraction. *)
Definition pow10 (e : Z) : Q :=
  if (0 <=? e)%Z then inject_Z (10 ^ e) else Qmake 1 (Z.to_pos (10 ^ (- e))).

(** The number of decimal digits of a positive integer. *)
Definition digits (n : Z) : Z := Z.of_nat (String.length (pretty n)).

(** [decpt m e] is the position of the decimal point of [m * 2^e]: the
    [p] with [10^(p-1) <= m * 2^e < 10^p]. *)
Definition decpt (m : positive) (e : Z) : Z :=
  if (0 <=? e)%Z then digits (Z.pos m * 2 ^ e)
  else
    let d := (2 ^ (- e))%Z in
    if (d <=? Z.pos m)%Z then digits (Z.pos m / d)
    else (1 - digits (d / Z.pos m))%Z.

(** The decimals that read back as [m * 2^e] lie between the midpoints to
    its neighbours; the midpoints themselves do when [m] is even. *)
Definition reads_back (m : positive) (e : Z) (c : Q) : bool :=
  let x := (inject_Z (Z.pos m) * pow2 e)%Q in
  let up := pow2 (e - 1) in
  let down := if ((Z.pos m =? 2 ^ 52) && (-1074 <? e))%Z
              then pow2 (e - 2) else pow2 (e - 1) in
  if Z.even (Z.pos m)
  then Qle_bool (x - down) c && Qle_bool c (x + up)
  else negb (Qle_bool c (x - down)) && negb (Qle_bool (x + up) c).

(** The candidate with [k] digits: [Some (c, s)] stands for [c / 10^s]. *)
Definition candidate (m : positive) (e : Z) (k : Z) : option (Z * Z) :=
  let x := (inject_Z (Z.pos m) * pow2 e)%Q in
  let s := (k - decpt m e)%Z in
  let t := (x * pow10 s)%Q in
  let lo := (Qnum t / Z.pos (Qden t))%Z in
  let hi := (lo + 1)%Z in
  let vlo := (inject_Z lo * pow10 (- s))%Q in
  let vhi := (inject_Z hi * pow10 (- s))%Q in
  match reads_back m e vlo, reads_back m e vhi with
  | true, true =>
      match Qcompare (x - vlo) (vhi - x) with
      | Lt => Some (lo, s)
      | Gt => Some (hi, s)
      | Eq => Some (if Z.even lo then lo else hi, s)
      end
  | true, false => Some (lo, s)
  | false, true => Some (hi, s)
  | false, false => None
  end.

Fixpoint shortest (m : positive) (e : Z) (k : Z) (fuel : nat) : Z * Z :=
  match fuel with
  | O => (Z.pos m * 5 ^ (- e), - e)%Z
  | S fuel =>
      match candidate m e k with
      | Some cs => cs
      | None => shortest m e (k + 1) fuel
      end
  end.

(** Drop the zeros at the end of a digit string. *)
Fixpoint strip_zeros (fuel : nat) (c s : Z) : Z * Z :=
  match fuel with
  | O => (c, s)
  | S fuel => if (c mod 10 =? 0)%Z then strip_zeros fuel (c / 10) (s - 1)
              else (c, s)
  end.

Fixpoint zeros (n : nat) : string :=
  match n with O => EmptyString | S n => "0" +:+ zeros n end.

Definition substring_from (n : nat) (s : string) : string :=
  String.substring n (String.length s - n) s.

(** The layout of the digits [ds] with the decimal point after [p] of
    them. *)
Definition layout (ds : string) (p : Z) : string :=
  let n := Z.of_nat (String.length ds) in
  if ((p <=? -4) || (16 <? p))%Z then
    let x := (p - 1)%Z in
    String.substring 0 1 ds
    +:+ (if (1 <? n)%Z then "." +:+ substring_from 1 ds else EmptyString)
    +:+ "e" +:+ (if (x <? 0)%Z then "-" else "+")
    +:+ (if (Z.abs x <? 10)%Z then "0" else EmptyString) +:+ pretty (Z.abs x)
  else if (p <=? 0)%Z then "0." +:+ zeros (Z.to_nat (- p)) +:+ ds
  else if (n <=? p)%Z then ds +:+ zeros (Z.to_nat (p - n)) +:+ ".0"
  else String.substring 0 (Z.to_nat p) ds +:+ "."
       +:+ substring_from (Z.to_nat p) ds.

Definition str_float (x : float) : string :=
  match Prim2SF x with
  | S754_zero s => if s then "-0.0" else "0.0"
  | S754_infinity s => if s then "-inf" else "inf"
  | S754_nan => "nan"
  | S754_finite s m e =>
      let '(c, sc) := shortest m e 1 17 in
      let '(c, sc) := strip_zeros 20 c sc in
      let ds := pretty c in
      (if s then "-" else EmptyString)
      +:+ layout ds (Z.of_nat (String.length ds) - sc)
  end.

Definition str (a : number) : string :=
  match a with NFloat x => str_float x | NInt n => pretty n end.

(** [s.endswith( suffix )] *)
Definition endswith (s suffix : string) : bool :=
  let n := String.length s in
  let k := String.length suffix in
  (k <=? n)%nat && String.eqb (String.substring (n - k) k s) suffix.

(** *** The time of a node

    [sim_node.time += sim_node.node.T], then the tweak for the period of
    0.66; the result tells whether the tweak was applied. *)
Definition advance (T_ time_ : number) : option (bool * number) :=
  let time_ := add time_ T_ in
  if eq T_ (NFloat 0.66) && endswith (str time_) ".98"
  then n ← round time_; Some (true, NInt n)
  else Some (false, time_).

(** The times of the first [n] ticks of a node of period [T_]. *)
Fixpoint ticks (n : nat) (T_ time_ : number) : option (list (bool * number)) :=
  match n with
  | O => Some []
  | S n' =>
      r ← advance T_ time_;
      rest ← ticks n' T_ r.2;
      Some (r :: rest)
  end.

(** *** The priority queue that tracks ticks

    The class does not fix the type of a time: it compares times with
    Python's [<] and [==], which are parameters here. [order] is the order
    in which nodes tick at equal times. *)
Module PriorityQueue.
Section queue.
Context {time : Type}.
Variable lt : time → time → bool.
Variable eq : time → time → bool.

Record t : Type := mk {
  order     : list string;
  container : list (time * string);
}.

Definition init (order : list string) : t := mk order [].

(** [l.index( x )] *)
Fixpoint index (x : string) (l : list string) : outcome nat :=
  match l with
  | [] => Raises ValueError
  | y :: l' =>
      if decide (y = x) then Returns 0 else i ← index x l'; Returns (S i)
  end.

(** [key = lambda x: ( x[0], s.order.index(x[1]) )] *)
Definition key (s : t) (x : time * string) : outcome (time * nat) :=
  i ← index x.2 (order s); Returns (x.1, i).

(** [a < b] on keys: tuples are compared at the first component in which
    they differ. *)
Definition key_lt (a b : time * nat) : bool :=
  if eq a.1 b.1 then a.2 <? b.2 else lt a.1 b.1.

(** [sorted( ..., reverse=True, key=... )]: the keys are computed once;
    the greatest key comes first, and entries with equal keys keep the
    order they had. *)
Fixpoint insert (x : (time * nat) * (time * string))
    (l : list ((time * nat) * (time * string)))
  : list ((time * nat) * (time * string)) :=
  match l with
  | [] => [x]
  | y :: l' => if key_lt x.1 y.1 then y :: insert x l' else x :: l
  end.

Definition sorted_reverse (l : list ((time * nat) * (time * string)))
  : list ((time * nat) * (time * string)) :=
  foldr insert [] l.

Definition add (s : t) (time_ : time) (name_ : string) : outcome t :=
  let appended := container s ++ [(time_, name_)] in
  keyed ← mapM (λ x, k ← key s x; Returns (k, x)) appended;
  Returns (mk (order s) (snd <$> sorted_reverse keyed)).

(** [pop] returns the last entry of the container and removes it. *)
Definition pop (s : t) : outcome ((time * string) * t) :=
  match last (container s) with
  | None => Raises IndexError
  | Some x => Returns (x, mk (order s) (removelast (container s)))
  end.

Definition empty (s : t) : bool := (length (container s) =? 0)%nat.

End queue.
End PriorityQueue.

End Simulator.

(** ** Graph.py: the helpers and the last step of [configure_json] *)

Module configure_json.

(** [get_name( xi, yi )] in an array of [xdim] by [ydim] tiles; [None]
    stands for the [False] returned outside of the array. *)
Definition get_name (xdim ydim xi yi : Z) : option string :=
  if (xi <=? -1)%Z then None
  else if (yi <=? -1)%Z then None
  else if (xdim <=? xi)%Z then None
  else if (ydim <=? yi)%Z then None
  else Some (Graph.get_name (Graph.JInt xi) (Graph.JInt yi)).

Definition get_srcdst_name (xdim ydim xi yi : Z) (srcdst : string)
  : outcome (option string) :=
  if decide (srcdst = "N") then Returns (get_name xdim ydim xi (yi + 1))
  else if decide (srcdst = "E") then Returns (get_name xdim ydim (xi + 1) yi)
  else if decide (srcdst = "S") then Returns (get_name xdim ydim xi (yi - 1))
  else if decide (srcdst = "W") then Returns (get_name xdim ydim (xi - 1) yi)
  else if decide (srcdst = "self") then Returns (get_name xdim ydim xi yi)
  else Raises AssertionError.

Definition reverse_direction (d : string) : outcome string :=
  if decide (d = "N") then Returns "S"
  else if decide (d = "E") then Returns "W"
  else if decide (d = "S") then Returns "N"
  else if decide (d = "W") then Returns "E"
  else Raises AssertionError.

(** [for _ in to_delete: s.delete_node( _ )] *)
Fixpoint delete_nodes (g : Graph.t) (to_delete : list string) : outcome Graph.t :=
  match to_delete with
  | [] => Returns g
  | node_name :: rest =>
      g' ← Graph.delete_node g node_name; delete_nodes g' rest
  end.

(** The step [# Remove orphan nodes] that ends [configure_json]. *)
Definition remove_orphans (g : Graph.t) : outcome Graph.t :=
  let to_delete :=
    filter (λ node_name, Graph.get_srcs g node_name = ∅
                         ∧ Graph.get_dsts g node_name = ∅)
           (Graph.all_nodes g) in
  delete_nodes g to_delete.

End configure_json.

(** * Properties of the graph *)

Section adjacency.
Implicit Types (adj : gmap string (gset string)) (k x : string).

Definition adj_get adj k : gset string :=
  match adj !! k with Some s => s | None => ∅ end.

Lemma adj_get_add adj k x k' x' :
  x' ∈ adj_get (Graph.adj_add k x adj) k' ↔
  (k' = k ∧ x' = x) ∨ x' ∈ adj_get adj k'.
Proof.
  unfold adj_get, Graph.adj_add.
  destruct (decide (k' = k)) as [->|Hne].
  - destruct (adj !! k) as [s|] eqn:E.
    + rewrite lookup_alter_eq, E. simpl. set_solver.
    + rewrite lookup_alter_eq, lookup_insert_eq. simpl. set_solver.
  - destruct (adj !! k) as [s|] eqn:E.
    + rewrite lookup_alter_ne by done. naive_solver.
    + rewrite lookup_alter_ne, lookup_insert_ne by done. naive_solver.
Qed.

Lemma adj_get_remove adj k x k' x' :
  x' ∈ adj_get (Graph.adj_remove k x adj) k' ↔
  x' ∈ adj_get adj k' ∧ ¬ (k' = k ∧ x' = x).
Proof.
  unfold adj_get, Graph.adj_remove.
  destruct (adj !! k) as [s|] eqn:E.
  - destruct (decide (k' = k)) as [->|Hne].
    + rewrite E. case_decide as Hsz.
      * rewrite lookup_delete_eq. apply size_empty_inv in Hsz.
        case_decide; set_solver.
      * rewrite lookup_insert_eq. case_decide; set_solver.
    + case_decide.
      * rewrite lookup_delete_ne by done. naive_solver.
      * rewrite lookup_insert_ne by done. naive_solver.
  - destruct (decide (k' = k)) as [->|Hne]; [rewrite E|]; set_solver.
Qed.
End adjacency.

Definition symmetric (g : Graph.t) : Prop :=
  ∀ x y, y ∈ Graph.get_srcs g x ↔ x ∈ Graph.get_dsts g y.

Lemma reachable_symmetric g : Graph.reachable g → symmetric g.
Proof.
  induction 1 as [|g n g' _ IH Hadd|g k g' _ IH Hdel|g u v r _ IH|g u v r _ IH];
    intros x y.
  - unfold Graph.get_srcs, Graph.get_dsts. simpl.
    rewrite !lookup_empty. set_solver.
  - unfold Graph.add_node in Hadd. case_decide; simplify_eq. apply IH.
  - unfold Graph.delete_node in Hdel. case_decide; simplify_eq. apply IH.
  - specialize (IH x y). unfold Graph.get_srcs, Graph.get_dsts in *. simpl.
    pose proof (adj_get_add (Graph.srcs_adjlist g) v u x y) as H1.
    pose proof (adj_get_add (Graph.dsts_adjlist g) u v y x) as H2.
    unfold adj_get in *. rewrite H1, H2. naive_solver.
  - specialize (IH x y). unfold Graph.get_srcs, Graph.get_dsts in *. simpl.
    pose proof (adj_get_remove (Graph.srcs_adjlist g) v u x y) as H1.
    pose proof (adj_get_remove (Graph.dsts_adjlist g) u v y x) as H2.
    unfold adj_get in *. rewrite H1, H2. naive_solver.
Qed.

Lemma adj_add_idemp (adj : gmap string (gset string)) k x :
  Graph.adj_add k x (Graph.adj_add k x adj) = Graph.adj_add k x adj.
Proof.
  apply map_eq. intros i. unfold Graph.adj_add.
  destruct (adj !! k) as [s|] eqn:E.
  - rewrite lookup_alter_eq, E. simpl.
    destruct (decide (i = k)) as [->|Hne].
    + rewrite !lookup_alter_eq, E. simpl. f_equal. set_solver.
    + by rewrite !lookup_alter_ne.
  - rewrite lookup_alter_eq, lookup_insert_eq. simpl.
    destruct (decide (i = k)) as [->|Hne].
    + rewrite !lookup_alter_eq, lookup_insert_eq. simpl. f_equal. set_solver.
    + by rewrite !lookup_alter_ne.
Qed.

(** C6. In every graph state reached through the public operations, [y] is
    a source of [x] exactly when [x] is a destination of [y]; [connect]
    puts the edge into both adjacency mappings, connecting the same edge a
    second time changes neither mapping, and [disconnect] takes the edge
    out of both. *)
Theorem adjacency_symmetric (g : Graph.t) :
  Graph.reachable g →
  (∀ x y, y ∈ Graph.get_srcs g x ↔ x ∈ Graph.get_dsts g y) ∧
  (∀ u v r,
      let g' := Graph.connect g u v r in
      (v ∈ Graph.get_dsts g' u ∧ u ∈ Graph.get_srcs g' v ∧
       ∀ r', Graph.srcs_adjlist (Graph.connect g' u v r') = Graph.srcs_adjlist g' ∧
             Graph.dsts_adjlist (Graph.connect g' u v r') = Graph.dsts_adjlist g')) ∧
  (∀ u v r,
      let g' := Graph.disconnect g u v r in
      ((v ∉ Graph.get_dsts g' u) ∧ (u ∉ Graph.get_srcs g' v))).
Proof.
  intros Hg. split; [by apply reachable_symmetric|]. split.
  - intros u v r g'. subst g'. unfold Graph.get_dsts, Graph.get_srcs. simpl.
    pose proof (adj_get_add (Graph.dsts_adjlist g) u v u v) as H1.
    pose proof (adj_get_add (Graph.srcs_adjlist g) v u v u) as H2.
    unfold adj_get in *. split; [naive_solver|]. split; [naive_solver|].
    intros r'. by rewrite !adj_add_idemp.
  - intros u v r g'. subst g'. unfold Graph.get_dsts, Graph.get_srcs. simpl.
    pose proof (adj_get_remove (Graph.dsts_adjlist g) u v u v) as H1.
    pose proof (adj_get_remove (Graph.srcs_adjlist g) v u v u) as H2.
    unfold adj_get in *. naive_solver.
Qed.

Definition two_node_graph : Graph.t :=
  Graph.connect (Graph.connect Graph.init "a" "b" false) "b" "a" false.

Lemma adjacency_symmetric_witness :
  Graph.reachable two_node_graph ∧
  ∀ x y, y ∈ Graph.get_srcs two_node_graph x ↔
         x ∈ Graph.get_dsts two_node_graph y.
Proof.
  assert (Graph.reachable two_node_graph) as H
    by (repeat constructor).
  split; [exact H|]. exact (proj1 (adjacency_symmetric two_node_graph H)).
Defined.

(** * Properties of the topological sort *)

(** Whatever the order, enumerating a set yields its elements, each once. *)
Definition enum_order (enum : Graph.site → gset string → list string) : Prop :=
  ∀ c s, enum c s ≡ₚ elements s.

Lemma enum_order_elem enum c s x :
  enum_order enum → x ∈ enum c s ↔ x ∈ s.
Proof. intros H. rewrite (H c s). apply elem_of_elements. Qed.

Lemma remove_first_None x l : x ∉ l → Graph.remove_first x l = None.
Proof.
  induction l as [|y l IH]; [done|]. intros Hx. simpl.
  case_decide; [set_solver|]. rewrite IH; [done|set_solver].
Qed.

Lemma remove_first_Some x l l' :
  Graph.remove_first x l = Some l' →
  ∃ l1 l2, l = l1 ++ x :: l2 ∧ l' = l1 ++ l2 ∧ x ∉ l1.
Proof.
  revert l'. induction l as [|y l IH]; [done|]. intros l' H. simpl in H.
  case_decide as Hxy.
  - injection H as <-. subst y. exists [], l. set_solver.
  - destruct (Graph.remove_first x l) as [l0|] eqn:E; simplify_eq/=.
    destruct (IH _ eq_refl) as (l1 & l2 & -> & -> & Hx).
    exists (y :: l1), l2. set_solver.
Qed.

Lemma remove_first_elem x l :
  x ∈ l →
  ∃ l1 l2, l = l1 ++ x :: l2 ∧ (x ∉ l1) ∧
           Graph.remove_first x l = Some (l1 ++ l2).
Proof.
  induction l as [|y l IH]; [by intros ?%elem_of_nil|]. intros Hx. simpl.
  case_decide as Hxy.
  - subst y. exists [], l. set_solver.
  - destruct IH as (l1 & l2 & -> & Hl1 & ->); [set_solver|].
    exists (y :: l1), l2. set_solver.
Qed.

Section stale_recurrence.
Variables (u v : string).

(** No working predecessor list of [v] mentions [u]. *)
Definition edge_absent (adjlist : gmap string (list string)) : Prop :=
  ∀ l, adjlist !! v = Some l → u ∉ l.

Lemma remove_recurrence_absent adjlist e adjlist' :
  edge_absent adjlist →
  Graph.remove_recurrence adjlist e = Returns adjlist' →
  edge_absent adjlist'.
Proof.
  intros Habs. destruct e as [s d]. unfold Graph.remove_recurrence.
  destruct (adjlist !! d) as [l|] eqn:El; [|done].
  destruct (Graph.remove_first s l) as [l'|] eqn:Er; [|done].
  intros [= <-] l0 Hl0.
  destruct (decide (d = v)) as [->|Hne].
  - rewrite lookup_insert_eq in Hl0. simplify_eq.
    apply remove_first_Some in Er as (l1 & l2 & -> & -> & _).
    specialize (Habs _ El). set_solver.
  - rewrite lookup_insert_ne in Hl0 by done. by apply Habs.
Qed.

Lemma remove_recurrences_raises es adjlist :
  (u, v) ∈ es → edge_absent adjlist →
  raises (Graph.remove_recurrences adjlist es).
Proof.
  revert adjlist. induction es as [|e es IH]; intros adjlist Hin Habs.
  - by apply elem_of_nil in Hin.
  - simpl. destruct (decide (e = (u, v))) as [->|Hne].
    + unfold Graph.remove_recurrence.
      destruct (adjlist !! v) as [l|] eqn:El; [|by eexists].
      rewrite remove_first_None by by apply Habs. by eexists.
    + destruct (Graph.remove_recurrence adjlist e) as [a| |] eqn:E.
      * simpl. apply IH; [set_solver|]. by eapply remove_recurrence_absent.
      * by eexists.
      * destruct e as [s d]. unfold Graph.remove_recurrence in E.
        repeat case_match; simplify_eq.
Qed.
End stale_recurrence.

(** C8. [disconnect] leaves the list of recurrence edges as it is; so when
    the edge [(u, v)] it removes is marked as a recurrence edge, the next
    [topological_sort] raises (a [KeyError] when [v] has lost its last
    predecessor, a [ValueError] from [index] otherwise) and returns no
    order. *)
Theorem disconnect_keeps_recurrence_mark enum (g : Graph.t) u v r :
  enum_order enum →
  (u, v) ∈ Graph.recurrence_edges g →
  Graph.recurrence_edges (Graph.disconnect g u v r) = Graph.recurrence_edges g ∧
  raises (Graph.topological_sort enum (Graph.disconnect g u v r)).
Proof.
  intros Henum Hin. split; [done|].
  unfold Graph.topological_sort.
  destruct (remove_recurrences_raises u v
              (Graph.recurrence_edges (Graph.disconnect g u v r))
              (Graph.copy_edges enum (Graph.disconnect g u v r)))
    as [e He]; [done| |].
  - intros l Hl. unfold Graph.copy_edges in Hl.
    rewrite map_lookup_imap in Hl. simpl in Hl.
    destruct (Graph.adj_remove v u (Graph.srcs_adjlist g) !! v) as [s|] eqn:Es;
      simplify_eq/=.
    rewrite enum_order_elem by done.
    pose proof (adj_get_remove (Graph.srcs_adjlist g) v u v u) as H.
    unfold adj_get in H. rewrite Es in H. naive_solver.
  - rewrite He. by eexists.
Qed.

Definition enum_elements : Graph.site → gset string → list string :=
  λ _ s, elements s.

Lemma enum_elements_order : enum_order enum_elements.
Proof. by intros c s. Qed.

Definition abc_nodes : list (string * Node) :=
  [("a", Node_init "a" mul ""); ("b", Node_init "b" mul "");
   ("c", Node_init "c" mul "")].

(** [a → b → c] with the loop-carried edge [c → a]. *)
Definition loop_abc : Graph.t :=
  Graph.connect (Graph.connect (Graph.connect
    (Graph.mk abc_nodes ∅ ∅ [] "graph.json")
    "a" "b" false) "b" "c" false) "c" "a" true.

Lemma disconnect_keeps_recurrence_mark_witness :
  Graph.recurrence_edges (Graph.disconnect loop_abc "c" "a" false) = [("c", "a")] ∧
  raises (Graph.topological_sort enum_elements
            (Graph.disconnect loop_abc "c" "a" false)).
Proof.
  apply (disconnect_keeps_recurrence_mark enum_elements loop_abc "c" "a" false).
  - exact enum_elements_order.
  - vm_compute. apply list_elem_of_here.
Defined.

(** ** Sorting graphs without undeclared cycles *)

Definition precedes (u v : string) (order : list string) : Prop :=
  ∃ i j, order !! i = Some u ∧ order !! j = Some v ∧ i < j.

(** [(u, v)] is an edge of the graph that is not a declared recurrence. *)
Definition forward_edge (g : Graph.t) (u v : string) : Prop :=
  u ∈ Graph.get_srcs g v ∧ (u, v) ∉ Graph.recurrence_edges g.

Lemma remove_recurrences_spec es (adjlist : gmap string (list string)) :
  NoDup es →
  (∀ u v, (u, v) ∈ es → ∃ l, adjlist !! v = Some l ∧ u ∈ l) →
  (∀ x l, adjlist !! x = Some l → NoDup l) →
  ∃ adjlist',
    Graph.remove_recurrences adjlist es = Returns adjlist' ∧
    dom adjlist' = dom adjlist ∧
    ∀ x l', adjlist' !! x = Some l' →
      ∃ l, adjlist !! x = Some l ∧ ∀ u, u ∈ l' ↔ u ∈ l ∧ (u, x) ∉ es.
Proof.
  revert adjlist. induction es as [|[s d] es IH]; intros adjlist Hnd Hin Hls.
  - eexists. split; [done|]. split; [done|]. intros x l' Hx.
    exists l'. split; [done|]. intros u. set_solver.
  - apply NoDup_cons in Hnd as [Hsd Hnd].
    destruct (Hin s d) as (l & Hl & Hs); [set_solver|].
    destruct (remove_first_elem _ _ Hs) as (k1 & k2 & -> & Hk1 & Hrm).
    pose proof (Hls _ _ Hl) as Hndl.
    apply NoDup_app in Hndl as (Hnd1 & Hdisj & Hnd2).
    apply NoDup_cons in Hnd2 as [Hs2 Hnd2].
    destruct (IH (<[d := k1 ++ k2]> adjlist)) as (a' & Ha' & Hdom & Hspec);
      [done| | |].
    + intros u v Huv. destruct (decide (v = d)) as [->|Hne].
      * rewrite lookup_insert_eq. eexists. split; [done|].
        destruct (Hin u d) as (l0 & Hl0 & Hu); [set_solver|].
        rewrite Hl in Hl0. injection Hl0 as <-.
        assert (u ≠ s) by (intros ->; done). set_solver.
      * rewrite lookup_insert_ne by done. apply Hin. set_solver.
    + intros x l. destruct (decide (x = d)) as [->|Hne].
      * rewrite lookup_insert_eq. intros [= <-].
        apply NoDup_app. set_solver.
      * rewrite lookup_insert_ne by done. apply Hls.
    + exists a'. simpl. rewrite Hl. simpl.
      rewrite Hrm.
      simpl. split; [done|]. split.
      { rewrite Hdom. rewrite dom_insert_L.
        assert (d ∈ dom adjlist) by (apply elem_of_dom; eauto). set_solver. }
      intros x l' Hx. destruct (Hspec _ _ Hx) as (l0 & Hl0 & Hmem).
      destruct (decide (x = d)) as [->|Hne].
      * rewrite lookup_insert_eq in Hl0. injection Hl0 as <-.
        eexists. split; [done|]. intros u. rewrite Hmem.
        rewrite !elem_of_app, !elem_of_cons.
        split.
        -- intros [Hu Hes]. split; [tauto|]. intros [E|E]; [|done].
           injection E as ->. tauto.
        -- intros [Hu Hes]. split; [|naive_solver].
           destruct Hu as [Hu|[->|Hu]]; [tauto| |tauto]. naive_solver.
      * rewrite lookup_insert_ne in Hl0 by done.
        eexists. split; [done|]. intros u. rewrite Hmem.
        rewrite elem_of_cons. naive_solver.
Qed.

Lemma prune_lookup order (adjlist : gmap string (list string)) x l' :
  Graph.prune order adjlist !! x = Some l' ↔
  ∃ l, adjlist !! x = Some l ∧ l' = filter (λ src, src ∉ order) l ∧ l' ≠ [].
Proof.
  unfold Graph.prune. rewrite map_lookup_filter_Some, lookup_fmap. simpl.
  destruct (adjlist !! x) as [l|]; simpl; naive_solver.
Qed.

Lemma precedes_app_l u v order more :
  precedes u v order → precedes u v (order ++ more).
Proof.
  intros (i & j & Hi & Hj & Hij). exists i, j.
  split; [|split; [|done]]; by apply lookup_app_l_Some.
Qed.

Lemma precedes_app u v order more :
  u ∈ order → v ∈ more → precedes u v (order ++ more).
Proof.
  intros [i Hi]%list_elem_of_lookup [j Hj]%list_elem_of_lookup.
  exists i, (length order + j). split; [by apply lookup_app_l_Some|].
  split; [|apply lookup_lt_Some in Hi; lia].
  rewrite lookup_app_r by lia. by replace (length order + j - length order) with j by lia.
Qed.

Section acyclic_sort.
Variable enum : Graph.site → gset string → list string.
Hypothesis enum_ok : enum_order enum.
Variable g : Graph.t.
Variable rank : string → nat.

Definition node_set : gset string := list_to_set (Graph.all_nodes g).

Hypothesis srcs_are_nodes : ∀ u v, u ∈ Graph.get_srcs g v → u ∈ node_set.
Hypothesis rank_increases : ∀ u v, forward_edge g u v → rank u < rank v.

(** What holds whenever the loop tests [while( nodes )]. *)
Record sort_inv (nodes : gset string) (adjlist : gmap string (list string))
    (order : list string) : Prop := {
  inv_nodup : NoDup order;
  inv_order : ∀ x, x ∈ order ↔ x ∈ node_set ∧ x ∉ nodes;
  inv_nodes : nodes ⊆ node_set;
  inv_dom : dom adjlist ⊆ nodes;
  inv_list : ∀ x l u, adjlist !! x = Some l →
               (u ∈ l ↔ forward_edge g u x ∧ u ∉ order);
  inv_ready : ∀ x u, x ∈ nodes → x ∉ dom adjlist →
                forward_edge g u x → u ∈ order;
  inv_prec : ∀ u v, forward_edge g u v → v ∈ order → precedes u v order;
  inv_progress : nodes ≠ ∅ → ∃ x, x ∈ nodes ∧ x ∉ dom adjlist;
}.

Lemma sort_inv_step c nodes adjlist order :
  sort_inv nodes adjlist order → nodes ≠ ∅ →
  let ready := nodes ∖ dom adjlist in
  let order' := order ++ enum c ready in
  ready ≠ ∅ ∧
  size (dom adjlist) < size nodes ∧
  sort_inv (dom adjlist) (Graph.prune order' adjlist) order'.
Proof.
  intros [Hnd Hord Hn Hdom Hlist Hready Hprec Hprog] Hne ready order'.
  destruct (Hprog Hne) as (x0 & Hx0 & Hx0').
  assert (ready ≠ ∅) as Hr by (subst ready; set_solver).
  assert (∀ x, x ∈ order' ↔ x ∈ node_set ∧ x ∉ dom adjlist) as Hord'.
  { intros x. subst order' ready.
    rewrite elem_of_app, Hord, enum_order_elem by done.
    rewrite elem_of_difference.
    destruct (decide (x ∈ nodes)); set_solver. }
  split; [done|]. split.
  { apply subset_size. set_solver. }
  split.
  - subst order'. apply NoDup_app. split; [done|]. split.
    + intros x Hx. rewrite enum_order_elem by done.
      apply Hord in Hx. subst ready. set_solver.
    + rewrite (enum_ok c ready). apply NoDup_elements.
  - done.
  - set_solver.
  - unfold Graph.prune. etrans; [apply dom_filter_subseteq|].
    by rewrite dom_fmap_L.
  - intros x l' u [l (Hl & -> & _)]%prune_lookup.
    rewrite list_elem_of_filter, (Hlist _ _ _ Hl).
    subst order'. rewrite elem_of_app. naive_solver.
  - intros x u Hx Hx' Hfw.
    apply elem_of_dom in Hx as [l Hl].
    destruct (decide (u ∈ order')) as [|Hu]; [done|]. exfalso.
    apply Hx'. apply elem_of_dom.
    exists (filter (λ src, src ∉ order') l). apply prune_lookup.
    exists l. split; [done|]. split; [done|].
    intros Hnil. apply (filter_nil_not_elem_of _ _ _ Hnil Hu).
    apply (Hlist _ _ _ Hl). split; [done|].
    subst order'. rewrite elem_of_app in Hu. tauto.
  - intros u v Hfw Hv. subst order'. apply elem_of_app in Hv as [Hv|Hv].
    + apply precedes_app_l. by apply Hprec.
    + apply precedes_app; [|done].
      rewrite enum_order_elem in Hv by done. subst ready.
      apply elem_of_difference in Hv as [Hv Hv']. by eapply Hready.
  - intros Hdne.
    set (R := λ x y : string, rank x ≤ rank y).
    assert (Transitive R) as Htr by (intros ???; unfold R; lia).
    assert (∀ x y, Decision (R x y)) as Hdec
      by (intros; unfold R; apply _).
    destruct (minimal_exists_elem_of_L R (dom adjlist) Hdne)
      as (x & Hx & Hmin).
    exists x. split; [done|]. intros Hx'.
    apply elem_of_dom in Hx' as [l' Hl'].
    pose proof Hl' as [l (Hl & -> & Hnil)]%prune_lookup.
    destruct (filter (λ src, src ∉ order') l) as [|u k] eqn:Ef; [done|].
    assert (u ∈ filter (λ src, src ∉ order') l) as Hu
      by (rewrite Ef; apply list_elem_of_here).
    apply list_elem_of_filter in Hu as [Hu1 Hu2].
    apply (Hlist _ _ _ Hl) in Hu2 as [Hfw _].
    pose proof (rank_increases _ _ Hfw) as Hlt.
    assert (u ∈ dom adjlist) as Hud.
    { destruct (decide (u ∈ dom adjlist)) as [|Hn']; [done|].
      exfalso. apply Hu1. apply Hord'. split; [|done].
      eapply srcs_are_nodes, Hfw. }
    specialize (Hmin u Hud). unfold R in Hmin. lia.
Qed.

Hypothesis keys_are_nodes : dom (Graph.srcs_adjlist g) ⊆ node_set.

Lemma sort_loop_acyclic fuel k nodes adjlist order :
sort_inv nodes adjlist order → size nodes ≤ fuel →
∃ order',
  Graph.sort_loop enum fuel k nodes adjlist order = Returns order' ∧
  NoDup order' ∧ (∀ x, x ∈ order' ↔ x ∈ node_set) ∧
  ∀ u v, forward_edge g u v → precedes u v order'.
Proof.
revert k nodes adjlist order.
induction fuel as [|fuel IH]; intros k nodes adjlist order Hinv Hsize.
- assert (nodes = ∅) as -> by (apply leibniz_equiv, size_empty_inv; lia).
  simpl. exists order. destruct Hinv. split; [done|]. split; [done|].
  split; [set_solver|]. intros u v Hfw. apply inv_prec0; [done|].
  apply inv_order0. split; [|set_solver].
  apply keys_are_nodes, elem_of_dom. destruct Hfw as [Hfw _].
  unfold Graph.get_srcs in Hfw.
  destruct (Graph.srcs_adjlist g !! v); [eauto|set_solver].
- simpl. case_decide as Hn.
  + subst nodes. exists order. destruct Hinv. split; [done|]. split; [done|].
    split; [set_solver|]. intros u v Hfw. apply inv_prec0; [done|].
    apply inv_order0. split; [|set_solver].
    apply keys_are_nodes, elem_of_dom. destruct Hfw as [Hfw _].
    unfold Graph.get_srcs in Hfw.
    destruct (Graph.srcs_adjlist g !! v); [eauto|set_solver].
  + destruct (sort_inv_step (Graph.ready_at k) _ _ _ Hinv Hn)
      as (Hr & Hlt & Hinv').
    rewrite decide_False by done.
    apply IH; [done|lia].
Qed.

Hypothesis nodes_nodup : NoDup (Graph.all_nodes g).
Hypothesis recurrences_nodup : NoDup (Graph.recurrence_edges g).
Hypothesis recurrences_are_edges :
∀ u v, (u, v) ∈ Graph.recurrence_edges g → u ∈ Graph.get_srcs g v.
Hypothesis has_livein : Graph.all_nodes g ≠ [] → Graph.get_liveins g ≠ [].

Lemma copy_edges_lookup x l :
Graph.copy_edges enum g !! x = Some l ↔
∃ s, Graph.srcs_adjlist g !! x = Some s ∧ l = enum (Graph.copy_of x) s.
Proof.
unfold Graph.copy_edges. rewrite map_lookup_imap.
destruct (Graph.srcs_adjlist g !! x); simpl; naive_solver.
Qed.

Lemma copy_edges_dom :
dom (Graph.copy_edges enum g) = dom (Graph.srcs_adjlist g).
Proof.
apply set_eq. intros x. rewrite !elem_of_dom. unfold is_Some.
setoid_rewrite copy_edges_lookup. naive_solver.
Qed.

Lemma topological_sort_acyclic_section :
∃ order,
  Graph.topological_sort enum g = Returns order ∧
  order ≡ₚ Graph.all_nodes g ∧
  ∀ u v, forward_edge g u v → precedes u v order.
Proof.
destruct (remove_recurrences_spec (Graph.recurrence_edges g)
            (Graph.copy_edges enum g)) as (a0 & Ha0 & Hdom & Hspec).
- done.
- intros u v Huv. apply recurrences_are_edges in Huv.
  unfold Graph.get_srcs in Huv.
  destruct (Graph.srcs_adjlist g !! v) as [s|] eqn:Es; [|set_solver].
  exists (enum (Graph.copy_of v) s). split.
  + apply copy_edges_lookup. eauto.
  + by apply enum_order_elem.
- intros x l [s [_ ->]]%copy_edges_lookup.
  rewrite (enum_ok _ s). apply NoDup_elements.
- unfold Graph.topological_sort. rewrite Ha0. simpl.
  rewrite copy_edges_dom in Hdom.
  destruct (sort_loop_acyclic
              (Graph.sort_fuel (Graph.all_nodes g) a0) 0 node_set a0 [])
    as (order & Hrun & Hnd & Hmem & Hprec).
  + split.
    * constructor.
    * intros x. split; [by intros ?%elem_of_nil|]. tauto.
    * done.
    * by rewrite Hdom.
    * intros x l' u Hl'. destruct (Hspec _ _ Hl') as (l & Hl & Hmem).
      apply copy_edges_lookup in Hl as (s & Hs & ->).
      rewrite Hmem, enum_order_elem by done.
      unfold forward_edge, Graph.get_srcs. rewrite Hs.
      split; [|tauto]. intros [? ?]. split; [done|]. by intros ?%elem_of_nil.
    * intros x u Hx Hx' [Hfw _]. exfalso. rewrite Hdom in Hx'.
      unfold Graph.get_srcs in Hfw. apply not_elem_of_dom in Hx'.
      rewrite Hx' in Hfw. set_solver.
    * intros u v _ Hv. by apply elem_of_nil in Hv.
    * intros Hne. rewrite Hdom.
      destruct (Graph.get_liveins g) as [|x k] eqn:El.
      { exfalso. apply has_livein; [|done]. intros Hnil.
        apply Hne. unfold node_set. by rewrite Hnil. }
      assert (x ∈ Graph.get_liveins g) as Hx
        by (rewrite El; apply list_elem_of_here).
      unfold Graph.get_liveins in Hx. apply list_elem_of_filter in Hx.
      exists x. unfold node_set. rewrite elem_of_list_to_set. tauto.
  + unfold Graph.sort_fuel, node_set.
    rewrite size_list_to_set by done. lia.
  + exists order. split; [done|]. split; [|done].
    apply NoDup_Permutation; [done|done|].
    intros x. rewrite Hmem. unfold node_set. apply elem_of_list_to_set.
Qed.
End acyclic_sort.

(** The claim of the specification, for one enumeration order and graph. *)
Definition sorts (enum : Graph.site → gset string → list string)
    (g : Graph.t) : Prop :=
  ∃ order,
    Graph.topological_sort enum g = Returns order ∧
    order ≡ₚ Graph.all_nodes g ∧
    ∀ u v, forward_edge g u v → precedes u v order.

(** [s → a → b → c] with the loop-carried edge [c → a]. *)
Definition fed_loop : Graph.t :=
  Graph.connect (Graph.connect (Graph.connect (Graph.connect
    (Graph.mk (("s", Node_init "s" mul "") :: abc_nodes) ∅ ∅ [] "graph.json")
    "s" "a" false) "a" "b" false) "b" "c" false) "c" "a" true.

Definition rank_sabc (n : string) : nat :=
  if decide (n = "s") then 0 else
  if decide (n = "a") then 1 else
  if decide (n = "b") then 2 else 3.

(** A property of all edges can be checked source set by source set. *)
Lemma srcs_forall (g : Graph.t) (P : string → string → Prop) :
  map_Forall (λ v s, set_Forall (λ u, P u v) s) (Graph.srcs_adjlist g) →
  ∀ u v, u ∈ Graph.get_srcs g v → P u v.
Proof.
  intros H u v Hu. unfold Graph.get_srcs in Hu.
  destruct (Graph.srcs_adjlist g !! v) as [s|] eqn:E; [|set_solver].
  by apply (H v s E u).
Qed.

Ltac by_compute :=
  match goal with
  | |- ?P => apply (bool_decide_unpack P); vm_compute; exact I
  end.

(** [a → b → a]: a cycle that no recurrence edge declares. *)
Definition cycle_ab : Graph.t :=
  Graph.connect (Graph.connect
    (Graph.mk [("a", Node_init "a" mul ""); ("b", Node_init "b" mul "")]
              ∅ ∅ [] "graph.json")
    "a" "b" false) "b" "a" false.

Lemma precedes_irreflexive u v order :
  NoDup order → precedes u v order → ¬ precedes v u order.
Proof.
  intros Hnd (i & j & Hi & Hj & Hij) (j' & i' & Hj' & Hi' & Hji).
  assert (i = i') by (by eapply NoDup_lookup).
  assert (j = j') by (by eapply NoDup_lookup). lia.
Qed.

(** On [cycle_ab] the sort breaks the edge into the first node of the
    frontier and still returns both nodes. *)
Example topological_sort_cycle_ab :
  Graph.topological_sort enum_elements cycle_ab = Returns ["a"; "b"].
Proof. vm_compute. reflexivity. Qed.

(** Counterexample to C2 as stated: on [cycle_ab] both [a → b] and
    [b → a] are edges that are not declared recurrences, and no order can
    put each before the other, whatever the enumeration order. *)
Lemma topological_sort_cycle_counterexample :
  ¬ ∃ enum, enum_order enum ∧ sorts enum cycle_ab.
Proof.
  intros (enum & _ & order & _ & Hperm & Hprec).
  assert (NoDup order) as Hnd.
  { rewrite Hperm. by_compute. }
  assert (forward_edge cycle_ab "a" "b") as Hab.
  { split; [by_compute|]. vm_compute. by intros ?%elem_of_nil. }
  assert (forward_edge cycle_ab "b" "a") as Hba.
  { split; [by_compute|]. vm_compute. by intros ?%elem_of_nil. }
  by apply (precedes_irreflexive "a" "b" order Hnd); apply Hprec.
Qed.

(** * Properties of the power model *)

Section idle.
Local Open Scope Q_scope.
Variable s : PowerModel.t.
Hypothesis idle : PowerModel.throughput s == 0.

Lemma P_tile_dynamic_idle V o : PowerModel.P_tile_dynamic s V o == 0.
Proof. unfold PowerModel.P_tile_dynamic. rewrite idle. ring. Qed.

Lemma I_L_idle : PowerModel.I_L s == 0.
Proof.
  unfold PowerModel.I_L. rewrite P_tile_dynamic_idle. unfold Qdiv. ring.
Qed.

Lemma P_tile_static_idle V : PowerModel.P_tile_static s V == 0.
Proof. unfold PowerModel.P_tile_static. rewrite I_L_idle. ring. Qed.

Lemma P_tile_total_idle V o : PowerModel.P_tile_total s V o == 0.
Proof.
  unfold PowerModel.P_tile_total.
  rewrite P_tile_static_idle, P_tile_dynamic_idle. ring.
Qed.

Lemma P_sram_static_idle V : PowerModel.P_sram_static s V == 0.
Proof. unfold PowerModel.P_sram_static. rewrite I_L_idle. ring. Qed.

Lemma P_sram_dynamic_idle V : PowerModel.P_sram_dynamic s V == 0.
Proof. unfold PowerModel.P_sram_dynamic. rewrite idle. ring. Qed.

Lemma P_sram_total_idle V : PowerModel.P_sram_total s V == 0.
Proof.
  unfold PowerModel.P_sram_total.
  rewrite P_sram_static_idle, P_sram_dynamic_idle. ring.
Qed.

Lemma accumulate_idle (term : Node → Q) ns :
  (∀ n, term n == 0) → PowerModel.accumulate term ns == 0.
Proof.
  intros Hterm. unfold PowerModel.accumulate.
  assert (∀ a, fold_left (λ P n, P + term n) ns a == a) as H.
  { induction ns as [|n ns IH]; intros a; simpl; [reflexivity|].
    rewrite IH, Hterm. ring. }
  apply H.
Qed.

Lemma P_cgra_static_idle : PowerModel.P_cgra_static s == 0.
Proof.
  unfold PowerModel.P_cgra_static, PowerModel.P_cgra_static_tiles,
    PowerModel.P_cgra_static_srams.
  rewrite !accumulate_idle; [ring| |]; intros n;
    [apply P_sram_static_idle|apply P_tile_static_idle].
Qed.

Lemma P_cgra_dynamic_idle : PowerModel.P_cgra_dynamic s == 0.
Proof.
  unfold PowerModel.P_cgra_dynamic, PowerModel.P_cgra_dynamic_tiles,
    PowerModel.P_cgra_dynamic_srams.
  rewrite !accumulate_idle; [ring| |]; intros n;
    [apply P_sram_dynamic_idle|apply P_tile_dynamic_idle].
Qed.

Lemma P_cgra_tiles_idle : PowerModel.P_cgra_tiles s == 0.
Proof.
  unfold PowerModel.P_cgra_tiles, PowerModel.P_cgra_static_tiles,
    PowerModel.P_cgra_dynamic_tiles.
  rewrite !accumulate_idle; [ring| |]; intros n;
    [apply P_tile_dynamic_idle|apply P_tile_static_idle].
Qed.

Lemma P_cgra_srams_idle : PowerModel.P_cgra_srams s == 0.
Proof.
  unfold PowerModel.P_cgra_srams, PowerModel.P_cgra_static_srams,
    PowerModel.P_cgra_dynamic_srams.
  rewrite !accumulate_idle; [ring| |]; intros n;
    [apply P_sram_dynamic_idle|apply P_sram_static_idle].
Qed.

Lemma P_cgra_total_idle : PowerModel.P_cgra_total s == 0.
Proof.
  unfold PowerModel.P_cgra_total.
  rewrite P_cgra_static_idle, P_cgra_dynamic_idle. ring.
Qed.
End idle.

Lemma init_idle enum g s :
  PowerModel.init enum g = Returns s →
  (PowerModel.throughput s == 0 ∧ PowerModel.P_alloc s == 0)%Q.
Proof.
  unfold PowerModel.init. intros H.
  destruct (Graph.topological_sort enum g) as [order| |]; simpl in H; try done.
  destruct (mapM (Graph.get_node g) order) as [all| |]; simpl in H; try done.
  destruct (mapM (Graph.get_node g)
              (Graph.get_liveins g ++ Graph.get_liveouts g)) as [l_all| |];
    simpl in H; try done.
  injection H as <-. simpl. split; [reflexivity|].
  rewrite P_tile_total_idle, P_sram_total_idle by reflexivity. ring.
Qed.

(** C9. Every power and energy figure of the model is proportional to the
    cached throughput: with a throughput of 0 the static, dynamic and total
    power and the energy of a tile and of an SRAM are 0 for every voltage
    and op class, and so are all CGRA aggregates; the constructor caches a
    throughput of 0, so the power envelope [P_alloc] it computes is 0. *)
Theorem zero_throughput_zero_power (s : PowerModel.t) :
  (PowerModel.throughput s == 0)%Q →
  (∀ V o,
     PowerModel.P_tile_static s V == 0 ∧ PowerModel.P_tile_dynamic s V o == 0 ∧
     PowerModel.P_tile_total s V o == 0 ∧ PowerModel.E_tile_total s V o == 0 ∧
     PowerModel.P_sram_static s V == 0 ∧ PowerModel.P_sram_dynamic s V == 0 ∧
     PowerModel.P_sram_total s V == 0 ∧ PowerModel.E_sram_total s V == 0)%Q ∧
  (PowerModel.P_cgra_static_tiles s == 0 ∧
   PowerModel.P_cgra_static_srams s == 0 ∧
   PowerModel.P_cgra_dynamic_tiles s == 0 ∧
   PowerModel.P_cgra_dynamic_srams s == 0 ∧
   PowerModel.P_cgra_static s == 0 ∧ PowerModel.P_cgra_dynamic s == 0 ∧
   PowerModel.P_cgra_tiles s == 0 ∧ PowerModel.P_cgra_srams s == 0 ∧
   PowerModel.P_cgra_total s == 0)%Q ∧
  (PowerModel.E_cgra_static_tiles s == 0 ∧
   PowerModel.E_cgra_static_srams s == 0 ∧
   PowerModel.E_cgra_dynamic_tiles s == 0 ∧
   PowerModel.E_cgra_dynamic_srams s == 0 ∧
   PowerModel.E_cgra_static s == 0 ∧ PowerModel.E_cgra_dynamic s == 0 ∧
   PowerModel.E_cgra_tiles s == 0 ∧ PowerModel.E_cgra_srams s == 0 ∧
   PowerModel.E_cgra_total s == 0)%Q ∧
  (∀ enum g s0, PowerModel.init enum g = Returns s0 →
     PowerModel.throughput s0 == 0 ∧ PowerModel.P_alloc s0 == 0)%Q.
Proof.
  intros idle.
  assert (PowerModel.P_cgra_static_tiles s == 0)%Q as Hst
    by (apply accumulate_idle; intros n; by apply P_tile_static_idle).
  assert (PowerModel.P_cgra_static_srams s == 0)%Q as Hss
    by (apply accumulate_idle; intros n; by apply P_sram_static_idle).
  assert (PowerModel.P_cgra_dynamic_tiles s == 0)%Q as Hdt
    by (apply accumulate_idle; intros n; by apply P_tile_dynamic_idle).
  assert (PowerModel.P_cgra_dynamic_srams s == 0)%Q as Hds
    by (apply accumulate_idle; intros n; by apply P_sram_dynamic_idle).
  pose proof (P_cgra_static_idle s idle) as Hs.
  pose proof (P_cgra_dynamic_idle s idle) as Hd.
  pose proof (P_cgra_tiles_idle s idle) as Ht.
  pose proof (P_cgra_srams_idle s idle) as Hr.
  pose proof (P_cgra_total_idle s idle) as Hc.
  split; [|split; [|split]].
  - intros V o.
    unfold PowerModel.E_tile_total, PowerModel.E_sram_total.
    rewrite P_tile_total_idle, P_sram_total_idle by done.
    repeat split;
      first [by apply P_tile_static_idle | by apply P_tile_dynamic_idle
            | by apply P_sram_static_idle | by apply P_sram_dynamic_idle
            | ring | reflexivity].
  - repeat split; assumption.
  - unfold PowerModel.E_cgra_static_tiles, PowerModel.E_cgra_static_srams,
      PowerModel.E_cgra_dynamic_tiles, PowerModel.E_cgra_dynamic_srams,
      PowerModel.E_cgra_static, PowerModel.E_cgra_dynamic,
      PowerModel.E_cgra_tiles, PowerModel.E_cgra_srams,
      PowerModel.E_cgra_total.
    rewrite Hst, Hss, Hdt, Hds, Hs, Hd, Ht, Hr, Hc. repeat split; ring.
  - intros enum g s0. apply init_idle.
Qed.

(** A model of one multiplier at nominal voltage fed by one SRAM, before
    any simulation. *)
Definition idle_model : PowerModel.t :=
  PowerModel.mk [Node_init "x0_y0" mul "mul"]
                [Node_init "x0_y0_ld_sram" sram "sram"] 0 0 0.

Lemma zero_throughput_zero_power_witness :
  (PowerModel.throughput idle_model == 0 ∧
   PowerModel.P_cgra_total idle_model == 0)%Q.
Proof.
  assert (PowerModel.throughput idle_model == 0)%Q as H by reflexivity.
  split; [exact H|].
  apply (zero_throughput_zero_power idle_model H).
Defined.

(** * Autosearch, phase 3 *)

(** [ed_product[vf]] *)
Definition ed_of (ed_product : list (Q * Q)) (vf : Q) : option Q :=
  snd <$> find (λ kv : Q * Q, Qeq_bool kv.1 vf) ed_product.

(** The rule the comment of the loop announces: the option chosen has an ED
    product within 1% of the highest one. *)
Definition within_tolerance (ed_product : list (Q * Q)) (chosen : Q) : Prop :=
  ∃ value, ed_of ed_product chosen = Some value ∧
    ∀ kv, kv ∈ ed_product → ((99 # 100) * kv.2 <= value)%Q.

Lemma fold_max_ge (l : list (Q * Q)) (m0 : Q) :
  let m := fold_left (λ m kv, if Qlt_le_dec m kv.2 then kv.2 else m) l m0 in
  (m0 <= m)%Q ∧ ∀ kv, kv ∈ l → (kv.2 <= m)%Q.
Proof.
  revert m0. induction l as [|[k v] l IH]; intros m0; simpl.
  - split; [apply Qle_refl|]. intros kv Hkv. by apply elem_of_nil in Hkv.
  - destruct (Qlt_le_dec m0 v) as [Hlt|Hle];
      [destruct (IH v) as [H1 H2] | destruct (IH m0) as [H1 H2]].
    + split; [eapply Qle_trans; [apply Qlt_le_weak, Hlt|exact H1]|].
      intros kv [->|Hkv]%elem_of_cons; [exact H1|by apply H2].
    + split; [exact H1|].
      intros kv [->|Hkv]%elem_of_cons;
        [simpl; eapply Qle_trans; [exact Hle|exact H1]|by apply H2].
Qed.

Lemma max_value_ge ed_product m :
  PowerModel.max_value ed_product = Returns m →
  ∀ kv, kv ∈ ed_product → (kv.2 <= m)%Q.
Proof.
  destruct ed_product as [|[k v] l]; simpl; [done|].
  intros [= <-] kv Hkv. destruct (fold_max_ge l v) as [H1 H2].
  apply elem_of_cons in Hkv as [->|Hkv]; [exact H1|by apply H2].
Qed.

(** C1. What the loop of phase 3 does: [max_ed >= 0.99*value] holds for
    every candidate whose ED product is not negative, so each candidate
    overwrites [max_vf] and the voltage committed is the last candidate
    tried, whatever its ED product. *)
Theorem pick_vf_takes_last (ed_product : list (Q * Q)) (vf value : Q) :
  (∀ kv, kv ∈ ed_product ++ [(vf, value)] → (0 <= kv.2)%Q) →
  PowerModel.pick_vf (ed_product ++ [(vf, value)]) = Returns vf.
Proof.
  intros Hpos. unfold PowerModel.pick_vf.
  destruct (PowerModel.max_value (ed_product ++ [(vf, value)]))
    as [m| |] eqn:Hmax.
  - simpl. f_equal. rewrite fold_left_app. simpl.
    assert ((99 # 100) * value <= m)%Q as Hle.
    { assert ((vf, value) ∈ ed_product ++ [(vf, value)]) as Hin
        by (apply elem_of_app; right; left).
      pose proof (max_value_ge _ _ Hmax _ Hin) as H1.
      pose proof (Hpos _ Hin) as H2. simpl in H1, H2.
      eapply Qle_trans; [|exact H1].
      apply Qle_trans with (1 * value)%Q;
        [|rewrite Qmult_1_l; apply Qle_refl].
      apply Qmult_le_compat_r; [|exact H2]. unfold Qle; simpl; lia. }
    apply Qle_bool_iff in Hle. by rewrite Hle.
  - destruct ed_product as [|[??] ?]; simpl in Hmax; done.
  - destruct ed_product as [|[??] ?]; simpl in Hmax; done.
Qed.

Section rest_wins.
Local Open Scope Q_scope.

(** Two candidates: 0.61 V gains 50% in ED product, 0.90 V changes nothing. *)
Definition ed_rest_wins : list (Q * Q) := [(61 # 100, 15 # 10); (90 # 100, 1)].

Lemma pick_vf_takes_last_witness :
  PowerModel.pick_vf ed_rest_wins = Returns (90 # 100).
Proof.
  apply (pick_vf_takes_last [(61 # 100, 15 # 10)] (90 # 100) 1).
  apply Forall_forall. repeat constructor; unfold Qle; simpl; lia.
Defined.

(** The candidate committed on [ed_rest_wins] is 0.90 V, whose ED product
    of 1 is below 99% of the ED product 1.5 of the candidate 0.61 V. *)
Lemma pick_vf_outside_tolerance :
  PowerModel.pick_vf ed_rest_wins = Returns (90 # 100) ∧
  ¬ within_tolerance ed_rest_wins (90 # 100).
Proof.
  split; [reflexivity|].
  intros (value & Hv & Hall). vm_compute in Hv. injection Hv as <-.
  specialize (Hall (61 # 100, 15 # 10) ltac:(left)).
  revert Hall. unfold Qle; simpl; lia.
Qed.

End rest_wins.

(** * Export of the voltage assignment *)

(** A record of [data] and the record written for it: the [dvfs] field is
    the label of [v], every other field is as it was. *)
Definition relabelled (v : Q) (config config' : gmap string Graph.jvalue) : Prop :=
  config' !! "dvfs" = Some (Graph.JStr (Graph.dvfs_label v)) ∧
  ∀ key, key ≠ "dvfs" → config' !! key = config !! key.

(** The node whose voltage [dump_vf_json] reads for a record: the first
    node, in the order of the node table, whose name starts with the name
    of the tile. *)
Definition first_match (g : Graph.t) (config : gmap string Graph.jvalue)
  (node : Node) : Prop :=
  ∃ xi yi node_name rest,
    config !! "x" = Some xi ∧
    config !! "y" = Some yi ∧
    filter (λ n, String.prefix (Graph.get_name xi yi) n = true)
      (Graph.all_nodes g) = node_name :: rest ∧
    Graph.get_node g node_name = Returns node.

Lemma dvfs_label_spec (v : Q) :
  ((v < 65 # 100 → Graph.dvfs_label v = "rest") ∧
   (65 # 100 <= v → v < 95 # 100 → Graph.dvfs_label v = "nominal") ∧
   (95 # 100 <= v → Graph.dvfs_label v = "sprint"))%Q.
Proof.
  unfold Graph.dvfs_label.
  destruct (Qlt_le_dec v (65 # 100)) as [H1|H1];
    destruct (Qlt_le_dec v (95 # 100)) as [H2|H2];
    repeat split; intros; try reflexivity; exfalso;
    unfold Qlt, Qle in *; simpl in *; lia.
Qed.

Lemma dump_config_first_match g config node :
  first_match g config node →
  ∃ config', Graph.dump_config g config = Returns config' ∧
             relabelled (V node) config config'.
Proof.
  intros (xi & yi & node_name & rest & Hx & Hy & Hf & Hn).
  unfold Graph.dump_config, Graph.getitem. rewrite Hx. simpl.
  rewrite Hy. simpl. rewrite Hf, Hn. simpl. eexists. split; [reflexivity|]. split.
  - apply lookup_insert_eq.
  - intros key Hkey. by apply lookup_insert_ne.
Qed.

(** C7. What [dump_vf_json] does: for every record it reads the voltage of
    the first node of the node table whose name starts with the name of the
    tile, writes [rest] below 0.65, [nominal] from 0.65 and below 0.95 and
    [sprint] from 0.95 into the [dvfs] field and keeps every other field. *)
Theorem dump_vf_json_labels_first_match (g : Graph.t)
  (data : list (gmap string Graph.jvalue)) :
  Forall (λ config, ∃ node, first_match g config node) data →
  ∃ data', Graph.dump_vf_json g (Some data) = Returns (Some data') ∧
    Forall2 (λ config config', ∃ node, first_match g config node ∧
               relabelled (V node) config config' ∧
               ((V node < 65 # 100 → config' !! "dvfs" = Some (Graph.JStr "rest")) ∧
                (65 # 100 <= V node → V node < 95 # 100 →
                 config' !! "dvfs" = Some (Graph.JStr "nominal")) ∧
                (95 # 100 <= V node →
                 config' !! "dvfs" = Some (Graph.JStr "sprint")))%Q)
      data data'.
Proof.
  intros Hall. unfold Graph.dump_vf_json.
  enough (∃ data', mapM (Graph.dump_config g) data = Returns data' ∧
            Forall2 (λ config config', ∃ node, first_match g config node ∧
               relabelled (V node) config config' ∧
               ((V node < 65 # 100 → config' !! "dvfs" = Some (Graph.JStr "rest")) ∧
                (65 # 100 <= V node → V node < 95 # 100 →
                 config' !! "dvfs" = Some (Graph.JStr "nominal")) ∧
                (95 # 100 <= V node →
                 config' !! "dvfs" = Some (Graph.JStr "sprint")))%Q)
              data data') as (data' & Hm & HF).
  { exists data'. rewrite Hm. simpl. by split. }
  induction Hall as [|config data (node & Hnode) _ (data' & Hm & HF)].
  - exists []. split; [reflexivity|constructor].
  - destruct (dump_config_first_match g config node Hnode)
      as (config' & Hc & Hrel).
    exists (config' :: data'). split.
    + simpl. rewrite Hc. simpl. rewrite Hm. reflexivity.
    + constructor; [|exact HF]. exists node. split; [exact Hnode|].
      split; [exact Hrel|]. destruct Hrel as [Hd _].
      destruct (dvfs_label_spec (V node)) as (L1 & L2 & L3).
      repeat split; intros; rewrite Hd; do 2 f_equal; auto.
Qed.

Section tall_column.
Local Open Scope Q_scope.

(** Two tiles of a column of eleven, listed from the top as the JSON of the
    array does: tile (0,10) sprints and feeds tile (0,1), which rests. *)
Definition tall_column : Graph.t :=
  Graph.connect
    (Graph.mk [("x0_y10", set_V (Node_init "x0_y10" mul "mul") (123 # 100));
               ("x0_y1", set_V (Node_init "x0_y1" alu "add") (61 # 100))]
              ∅ ∅ [] "column.json")
    "x0_y10" "x0_y1" false.

Definition tile_0_10 : gmap string Graph.jvalue :=
  <["x" := Graph.JInt 0]> (<["y" := Graph.JInt 10]>
    (<["op" := Graph.JStr "mul"]> (<["dvfs" := Graph.JStr "nominal"]> ∅))).

Definition tile_0_1 : gmap string Graph.jvalue :=
  <["x" := Graph.JInt 0]> (<["y" := Graph.JInt 1]>
    (<["op" := Graph.JStr "add"]> (<["dvfs" := Graph.JStr "nominal"]> ∅))).

Lemma dump_vf_json_labels_first_match_witness :
  ∃ data', Graph.dump_vf_json tall_column (Some [tile_0_10])
           = Returns (Some data') ∧
           ∃ config', data' = [config'] ∧
                      config' !! "dvfs" = Some (Graph.JStr "sprint") ∧
                      config' !! "op" = tile_0_10 !! "op".
Proof.
  assert (Forall (λ config, ∃ node, first_match tall_column config node)
            [tile_0_10]) as H.
  { constructor; [|constructor].
    exists (set_V (Node_init "x0_y10" mul "mul") (123 # 100)).
    exists (Graph.JInt 0), (Graph.JInt 10), "x0_y10", [].
    repeat split; vm_compute; reflexivity. }
  destruct (dump_vf_json_labels_first_match tall_column [tile_0_10] H)
    as (data' & Hd & HF).
  exists data'. split; [exact Hd|].
  apply Forall2_cons_inv_l in HF
    as (config' & rest & (node & Hn & [Hl Hk] & _) & Hrest & ->).
  apply Forall2_nil_inv_l in Hrest as ->.
  exists config'. split; [reflexivity|]. split; [|by apply Hk].
  rewrite Hl. destruct Hn as (xi & yi & n & r & Hx & Hy & Hf & Hg).
  vm_compute in Hx, Hy. injection Hx as <-. injection Hy as <-.
  vm_compute in Hf. injection Hf as <- <-. vm_compute in Hg.
  injection Hg as <-. reflexivity.
Defined.

(** The record of tile (0,1) is labelled with the voltage of tile (0,10),
    whose name [x0_y10] starts with [x0_y1] and comes first in the node
    table: it reads [sprint] although the node of the tile rests. *)
Lemma dump_vf_json_prefix_collision :
  Graph.dump_vf_json tall_column (Some [tile_0_10; tile_0_1])
  = Returns (Some [<["dvfs" := Graph.JStr "sprint"]> tile_0_10;
                   <["dvfs" := Graph.JStr "sprint"]> tile_0_1]) ∧
  ∃ node, Graph.get_node tall_column
            (Graph.get_name (Graph.JInt 0) (Graph.JInt 1)) = Returns node ∧
          V node = 61 # 100 ∧ Graph.dvfs_label (V node) = "rest".
Proof.
  split; [vm_compute; reflexivity|].
  eexists. split; [vm_compute; reflexivity|]. split; reflexivity.
Qed.

End tall_column.

(** * The node table *)

Lemma assoc_None {A} k (l : list (string * A)) :
  Graph.assoc k l = None ↔ k ∉ l.*1.
Proof.
  induction l as [|[k' a] l IH]; simpl.
  - split; [intros _ H; by apply elem_of_nil in H|done].
  - case_decide as E.
    + subst. split; [done|]. intros H. exfalso. apply H. left.
    + rewrite IH, not_elem_of_cons. naive_solver.
Qed.

Lemma assoc_app {A} k (l1 l2 : list (string * A)) :
  Graph.assoc k (l1 ++ l2) =
  match Graph.assoc k l1 with Some a => Some a | None => Graph.assoc k l2 end.
Proof.
  induction l1 as [|[k' a] l1 IH]; simpl; [done|]. by case_decide.
Qed.

Lemma assoc_filter_ne {A} k k' (l : list (string * A)) :
  k ≠ k' →
  Graph.assoc k (filter (λ kv, kv.1 ≠ k') l) = Graph.assoc k l.
Proof.
  intros Hne. induction l as [|[k0 a] l IH]; [done|].
  rewrite filter_cons. destruct (decide ((k0, a).1 ≠ k')) as [E0|E0]; simpl in *.
  - case_decide; [done|apply IH].
  - assert (k0 = k') as ->
      by (destruct (decide (k0 = k')); [done|by destruct E0]).
    rewrite decide_False by done. apply IH.
Qed.

Lemma assoc_filter_eq {A} k (l : list (string * A)) :
  Graph.assoc k (filter (λ kv, kv.1 ≠ k) l) = None.
Proof.
  apply assoc_None. intros [[k' a] [Hk Hin]]%list_elem_of_fmap.
  apply list_elem_of_filter in Hin as [Hne _]. simpl in *. by subst.
Qed.

(** X1. [add_node] then [get_node]: a node whose name is not yet a key of
    the node table is added at the end of the table, [get_node] then
    returns it under its name, every other lookup and every edge is as
    before; a node whose name is already a key is refused with an
    [AssertionError]. *)
Theorem add_node_get_node (g : Graph.t) (n : Node) :
  (name n ∉ Graph.all_nodes g →
   ∃ g', Graph.add_node g n = Returns g' ∧
         Graph.get_node g' (name n) = Returns n ∧
         Graph.all_nodes g' = Graph.all_nodes g ++ [name n] ∧
         (∀ k, k ≠ name n → Graph.get_node g' k = Graph.get_node g k) ∧
         (∀ k, Graph.get_srcs g' k = Graph.get_srcs g k ∧
               Graph.get_dsts g' k = Graph.get_dsts g k)) ∧
  (name n ∈ Graph.all_nodes g →
   Graph.add_node g n = Raises AssertionError).
Proof.
  unfold Graph.add_node. split; intros Hn.
  - rewrite decide_False by done. eexists. split; [reflexivity|].
    unfold Graph.get_node, Graph.all_nodes, Graph.get_srcs, Graph.get_dsts.
    simpl. repeat split.
    + rewrite assoc_app. apply assoc_None in Hn. rewrite Hn. simpl.
      by rewrite decide_True.
    + by rewrite fmap_app.
    + intros k Hk. rewrite assoc_app.
      destruct (Graph.assoc k (Graph.nodes g)); [done|].
      simpl. by rewrite decide_False.
  - by rewrite decide_True.
Qed.

(** X2. [delete_node] takes a node out of the node table and nothing else:
    [get_node] on the deleted name raises [KeyError], a second
    [delete_node] raises [KeyError] too, the other nodes are found as
    before, and the predecessor and successor sets still hold every edge,
    those of the deleted node included. *)
Theorem delete_node_keeps_edges (g g' : Graph.t) (node_name : string) :
  Graph.delete_node g node_name = Returns g' →
  Graph.get_node g' node_name = Raises KeyError ∧
  Graph.delete_node g' node_name = Raises KeyError ∧
  (∀ k, k ≠ node_name → Graph.get_node g' k = Graph.get_node g k) ∧
  (∀ k, Graph.get_srcs g' k = Graph.get_srcs g k ∧
        Graph.get_dsts g' k = Graph.get_dsts g k) ∧
  Graph.recurrence_edges g' = Graph.recurrence_edges g.
Proof.
  unfold Graph.delete_node. case_decide as Hin; [|done]. intros [= <-].
  unfold Graph.get_node, Graph.all_nodes, Graph.get_srcs, Graph.get_dsts.
  simpl. rewrite assoc_filter_eq. repeat split.
  - rewrite decide_False; [done|].
    intros [[k a] [Hk Hm]]%list_elem_of_fmap.
    apply list_elem_of_filter in Hm as [Hne _]. simpl in *. by subst.
  - intros k Hk. by rewrite assoc_filter_ne.
Qed.

(** A multiply node that feeds an adder. *)
Definition mul_add_graph : Graph.t :=
  Graph.connect
    (Graph.mk [("m", Node_init "m" mul "mul"); ("a", Node_init "a" alu "add")]
              ∅ ∅ [] "graph.json")
    "m" "a" false.

Lemma delete_node_keeps_edges_witness :
  ∃ g', Graph.delete_node mul_add_graph "m" = Returns g' ∧
        Graph.get_node g' "m" = Raises KeyError ∧
        Graph.get_srcs g' "a" = {["m"]}.
Proof.
  eexists. split; [reflexivity|].
  destruct (delete_node_keeps_edges mul_add_graph _ "m" eq_refl)
    as (H1 & _ & _ & H2 & _).
  split; [exact H1|]. rewrite (proj1 (H2 "a")). reflexivity.
Defined.

Lemma add_node_get_node_witness :
  ∃ g', Graph.add_node mul_add_graph (Node_init "s" sram "sram") = Returns g' ∧
        Graph.get_node g' "s" = Returns (Node_init "s" sram "sram") ∧
        Graph.add_node g' (Node_init "s" mul "mul") = Raises AssertionError.
Proof.
  destruct (proj1 (add_node_get_node mul_add_graph (Node_init "s" sram "sram")))
    as (g' & Hadd & Hget & Hall & _).
  { by_compute. }
  exists g'. split; [exact Hadd|]. split; [exact Hget|].
  apply (add_node_get_node g' (Node_init "s" mul "mul")).
  rewrite Hall. apply elem_of_app. right. left.
Defined.

(** * Edges *)

(** No key of an adjacency mapping is bound to the empty set. *)
Definition no_empty (adj : gmap string (gset string)) : Prop :=
  ∀ k s, adj !! k = Some s → s ≠ ∅.

Lemma adj_add_no_empty adj k x : no_empty adj → no_empty (Graph.adj_add k x adj).
Proof.
  intros H k' s'. unfold Graph.adj_add.
  destruct (decide (k' = k)) as [->|Hne].
  - rewrite lookup_alter_eq. destruct (adj !! k) as [s|] eqn:E.
    + rewrite E. simpl. intros [= <-]. set_solver.
    + rewrite lookup_insert_eq. simpl. intros [= <-]. set_solver.
  - rewrite lookup_alter_ne by done. destruct (adj !! k) as [s|] eqn:E.
    + apply H.
    + rewrite lookup_insert_ne by done. apply H.
Qed.

Lemma adj_remove_no_empty adj k x :
  no_empty adj → no_empty (Graph.adj_remove k x adj).
Proof.
  intros H k' s'. unfold Graph.adj_remove.
  destruct (adj !! k) as [s|] eqn:E; [|apply H].
  case_decide as Hsz.
  - intros [_ Hl]%lookup_delete_Some. by eapply H.
  - destruct (decide (k' = k)) as [->|Hne].
    + rewrite lookup_insert_eq. intros [= <-] Hem. apply Hsz.
      rewrite Hem. apply size_empty.
    + rewrite lookup_insert_ne by done. apply H.
Qed.

Lemma reachable_no_empty g :
  Graph.reachable g →
  no_empty (Graph.srcs_adjlist g) ∧ no_empty (Graph.dsts_adjlist g).
Proof.
  induction 1 as [|g n g' _ IH Hadd|g k g' _ IH Hdel|g u v r _ IH|g u v r _ IH].
  - split; intros k s; simpl; by rewrite lookup_empty.
  - unfold Graph.add_node in Hadd. case_decide; simplify_eq. apply IH.
  - unfold Graph.delete_node in Hdel. case_decide; simplify_eq. apply IH.
  - destruct IH. split; simpl; by apply adj_add_no_empty.
  - destruct IH. split; simpl; by apply adj_remove_no_empty.
Qed.

Lemma adj_get_empty_iff adj k :
  no_empty adj → adj_get adj k = ∅ ↔ k ∉ dom adj.
Proof.
  intros H. unfold adj_get. rewrite not_elem_of_dom.
  destruct (adj !! k) as [s|] eqn:E; [|done].
  split; [|done]. intros ->. by eapply H in E.
Qed.

(** X3. Because [disconnect] deletes the key of a set that it empties, the
    live-ins of a graph built with the public operations are exactly its
    nodes without predecessor, and its live-outs exactly its nodes without
    successor, each in the order of the node table. *)
Theorem liveins_have_no_srcs (g : Graph.t) :
  Graph.reachable g →
  Graph.get_liveins g
    = filter (λ n, Graph.get_srcs g n = ∅) (Graph.all_nodes g) ∧
  Graph.get_liveouts g
    = filter (λ n, Graph.get_dsts g n = ∅) (Graph.all_nodes g).
Proof.
  intros [Hs Hd]%reachable_no_empty.
  unfold Graph.get_liveins, Graph.get_liveouts. split.
  - apply list_filter_iff. intros n. symmetry.
    apply (adj_get_empty_iff _ n Hs).
  - apply list_filter_iff. intros n. symmetry.
    apply (adj_get_empty_iff _ n Hd).
Qed.

Lemma liveins_have_no_srcs_witness :
  Graph.get_liveins (Graph.disconnect mul_add_graph "m" "a" false)
  = filter (λ n, Graph.get_srcs (Graph.disconnect mul_add_graph "m" "a" false) n = ∅)
           ["m"; "a"].
Proof.
  apply (liveins_have_no_srcs (Graph.disconnect mul_add_graph "m" "a" false)).
  apply Graph.reach_disconnect, Graph.reach_connect.
  apply (Graph.reach_add_node
           (Graph.mk [("m", Node_init "m" mul "mul")] ∅ ∅ [] "graph.json")
           (Node_init "a" alu "add")); [|reflexivity].
  apply (Graph.reach_add_node Graph.init (Node_init "m" mul "mul"));
    [constructor|reflexivity].
Defined.

(** X4. [connect] followed by [disconnect] of an edge that the graph did
    not have gives back every predecessor and successor set and the node
    table; what stays behind is the recurrence mark, when the edge was
    connected as a recurrence. *)
Theorem connect_disconnect_round_trip (g : Graph.t) (u v : string)
    (r r' : bool) :
  u ∉ Graph.get_srcs g v → v ∉ Graph.get_dsts g u →
  let g' := Graph.disconnect (Graph.connect g u v r) u v r' in
  (∀ k, Graph.get_srcs g' k = Graph.get_srcs g k ∧
        Graph.get_dsts g' k = Graph.get_dsts g k) ∧
  Graph.nodes g' = Graph.nodes g ∧
  Graph.recurrence_edges g'
    = Graph.recurrence_edges g ++ (if r then [(u, v)] else []).
Proof.
  intros Hs Hd g'. subst g'. split; [|split].
  - intros k. unfold Graph.get_srcs, Graph.get_dsts in *. simpl. split.
    + apply set_eq. intros x.
      pose proof (adj_get_remove
                    (Graph.adj_add v u (Graph.srcs_adjlist g)) v u k x) as H1.
      pose proof (adj_get_add (Graph.srcs_adjlist g) v u k x) as H2.
      unfold adj_get in *. rewrite H1, H2. naive_solver.
    + apply set_eq. intros x.
      pose proof (adj_get_remove
                    (Graph.adj_add u v (Graph.dsts_adjlist g)) u v k x) as H1.
      pose proof (adj_get_add (Graph.dsts_adjlist g) u v k x) as H2.
      unfold adj_get in *. rewrite H1, H2. naive_solver.
  - done.
  - simpl. destruct r; [done|]. by rewrite app_nil_r.
Qed.

Lemma connect_disconnect_round_trip_witness :
  let g' := Graph.disconnect (Graph.connect mul_add_graph "a" "m" true)
              "a" "m" false in
  (∀ k, Graph.get_srcs g' k = Graph.get_srcs mul_add_graph k ∧
        Graph.get_dsts g' k = Graph.get_dsts mul_add_graph k) ∧
  Graph.recurrence_edges g' = [("a", "m")].
Proof.
  destruct (connect_disconnect_round_trip mul_add_graph "a" "m" true false)
    as (H1 & _ & H2).
  - by_compute.
  - by_compute.
  - split; [exact H1|exact H2].
Defined.

(** * Sorting graphs with cycles *)

(** The size of the working copy of the edges: one for every key and one
    for every predecessor listed. *)
Definition weight (adjlist : gmap string (list string)) : nat :=
  map_fold (λ _ l acc, S (length l) + acc) 0 adjlist.

Lemma weight_empty : weight ∅ = 0.
Proof. apply map_fold_empty. Qed.

Lemma weight_insert_fresh adjlist k l :
  adjlist !! k = None →
  weight (<[k := l]> adjlist) = S (length l) + weight adjlist.
Proof.
  intros Hk. unfold weight. rewrite map_fold_insert_L; [done| |done].
  intros. lia.
Qed.

Lemma weight_delete adjlist k l :
  adjlist !! k = Some l →
  weight adjlist = S (length l) + weight (delete k adjlist).
Proof.
  intros Hk. unfold weight.
  rewrite (map_fold_delete_L _ _ k l adjlist); [done| |done].
  intros. lia.
Qed.

Lemma weight_insert adjlist k l l' :
  adjlist !! k = Some l →
  weight (<[k := l']> adjlist) + length l = weight adjlist + length l'.
Proof.
  intros Hk. rewrite <- insert_delete_eq.
  rewrite weight_insert_fresh by apply lookup_delete_eq.
  rewrite (weight_delete adjlist k l Hk). lia.
Qed.

(** A working copy whose lists only lost entries weighs less, by one at
    least for every key that it lost. *)
Lemma weight_shrink (adjlist' adjlist : gmap string (list string)) :
  (∀ k l', adjlist' !! k = Some l' →
           ∃ l, adjlist !! k = Some l ∧ length l' ≤ length l) →
  weight adjlist' + size (dom adjlist ∖ dom adjlist') ≤ weight adjlist.
Proof.
  revert adjlist'.
  induction adjlist as [|k l m Hk IH] using map_ind; intros adjlist' Hsub.
  - assert (adjlist' = ∅) as ->.
    { apply map_empty. intros i. destruct (adjlist' !! i) as [l'|] eqn:E; [|done].
      destruct (Hsub _ _ E) as (l & Hl & _). by rewrite lookup_empty in Hl. }
    rewrite weight_empty, dom_empty_L, difference_diag_L, size_empty. lia.
  - rewrite weight_insert_fresh by done.
    destruct (adjlist' !! k) as [l'|] eqn:E.
    + destruct (Hsub _ _ E) as (l0 & Hl0 & Hlen).
      rewrite lookup_insert_eq in Hl0. injection Hl0 as <-.
      rewrite (weight_delete adjlist' k l' E).
      specialize (IH (delete k adjlist')).
      assert (dom (<[k:=l]> m) ∖ dom adjlist' = dom m ∖ dom (delete k adjlist'))
        as ->.
      { apply not_elem_of_dom in Hk.
        assert (k ∈ dom adjlist') by (apply elem_of_dom; eauto).
        rewrite dom_insert_L, dom_delete_L. set_solver. }
      enough (weight (delete k adjlist')
              + size (dom m ∖ dom (delete k adjlist')) ≤ weight m) by lia.
      apply IH. intros i li [Hne Hi]%lookup_delete_Some.
      destruct (Hsub _ _ Hi) as (l1 & Hl1 & Hlen1).
      rewrite lookup_insert_ne in Hl1 by done. eauto.
    + assert (dom (<[k:=l]> m) ∖ dom adjlist'
              = {[k]} ∪ (dom m ∖ dom adjlist')) as ->.
      { apply not_elem_of_dom in E. rewrite dom_insert_L. set_solver. }
      rewrite size_union by (apply not_elem_of_dom in Hk; set_solver).
      rewrite size_singleton.
      enough (weight adjlist' + size (dom m ∖ dom adjlist') ≤ weight m) by lia.
      apply IH. intros i li Hi.
      destruct (Hsub _ _ Hi) as (l1 & Hl1 & Hlen1).
      destruct (decide (i = k)) as [->|Hne]; [congruence|].
      rewrite lookup_insert_ne in Hl1 by done. eauto.
Qed.

Lemma weight_prune order adjlist :
  weight (Graph.prune order adjlist)
  + size (dom adjlist ∖ dom (Graph.prune order adjlist)) ≤ weight adjlist.
Proof.
  apply weight_shrink. intros k l' (l & Hl & -> & _)%prune_lookup.
  exists l. split; [done|]. apply length_filter.
Qed.

(** No list of the working copy is empty or holds a node already sorted. *)
Definition clean (order : list string) (adjlist : gmap string (list string))
  : Prop :=
  ∀ x l, adjlist !! x = Some l → l ≠ [] ∧ ∀ u, u ∈ l → u ∉ order.

Lemma prune_clean order adjlist : clean order (Graph.prune order adjlist).
Proof.
  intros x l' (l & Hl & -> & Hne)%prune_lookup. split; [done|].
  intros u Hu. by apply list_elem_of_filter in Hu as [Hu _].
Qed.

Lemma prune_id order adjlist :
  clean order adjlist → Graph.prune order adjlist = adjlist.
Proof.
  intros Hc. apply map_eq. intros x.
  destruct (adjlist !! x) as [l|] eqn:E.
  - apply prune_lookup. exists l. split; [done|].
    destruct (Hc _ _ E) as [Hne Hno].
    assert (filter (λ src, src ∉ order) l = l) as ->; [|done].
    clear E Hne. induction l as [|a l IH]; [done|].
    rewrite filter_cons, decide_True by (apply Hno; left).
    f_equal. apply IH. intros u Hu. apply Hno. by right.
  - destruct (Graph.prune order adjlist !! x) as [l'|] eqn:E'; [|done].
    apply prune_lookup in E' as (l & Hl & _). congruence.
Qed.

Lemma break_edge_spec order adjlist any_node :
  clean order adjlist → any_node ∈ dom adjlist →
  ∃ adjlist',
    Graph.break_edge any_node adjlist = Returns adjlist' ∧
    clean order adjlist' ∧
    dom adjlist' ⊆ dom adjlist ∧
    2 * weight adjlist' + size (dom adjlist ∖ dom adjlist')
      < 2 * weight adjlist.
Proof.
  intros Hc [l Hl]%elem_of_dom. unfold Graph.break_edge. rewrite Hl.
  destruct (Hc _ _ Hl) as [Hne Hno].
  destruct l as [|a l]; [done|]. clear Hne.
  set (l0 := a :: l) in *.
  assert (length l0 = S (length (removelast l0))) as Hlen.
  { destruct (exists_last (l:=l0)) as (k & z & Hk); [done|].
    rewrite Hk, removelast_last, length_app. simpl. lia. }
  assert (∀ u, u ∈ removelast l0 → u ∈ l0) as Hsub.
  { intros u Hu. destruct (exists_last (l:=l0)) as (k & z & Hk); [done|].
    rewrite Hk, removelast_last in Hu. rewrite Hk. set_solver. }
  eexists. split; [reflexivity|]. case_decide as Hnil.
  - split; [|split].
    + intros x lx [_ Hx]%lookup_delete_Some. by apply (Hc x lx).
    + rewrite dom_delete_L. set_solver.
    + rewrite (weight_delete adjlist any_node l0 Hl).
      assert (dom adjlist ∖ dom (delete any_node adjlist) = {[any_node]}) as ->.
      { assert (any_node ∈ dom adjlist) by (apply elem_of_dom; eauto).
        rewrite dom_delete_L. apply set_eq. intros y.
        rewrite elem_of_difference, elem_of_difference, elem_of_singleton.
        destruct (decide (y = any_node)); naive_solver. }
      rewrite size_singleton. lia.
  - split; [|split].
    + intros x lx. destruct (decide (x = any_node)) as [->|Hx].
      * rewrite lookup_insert_eq. intros [= <-]. split; [done|].
        intros u Hu. apply Hno. by apply Hsub.
      * rewrite lookup_insert_ne by done. apply (Hc x lx).
    + assert (any_node ∈ dom adjlist) by (apply elem_of_dom; eauto).
      rewrite dom_insert_L. set_solver.
    + pose proof (weight_insert adjlist any_node l0 (removelast l0) Hl) as Hw.
      assert (dom adjlist ∖ dom (<[any_node:=removelast l0]> adjlist) = ∅) as ->.
      { rewrite dom_insert_L. set_solver. }
      rewrite size_empty. lia.
Qed.

Section cyclic_sort.
Variable enum : Graph.site → gset string → list string.
Hypothesis enum_ok : enum_order enum.
Variable all : gset string.

(** What holds whenever the loop tests [while( nodes )], cycles or not. *)
Record loop_inv (nodes : gset string) (adjlist : gmap string (list string))
    (order : list string) : Prop := {
  li_nodup : NoDup order;
  li_order : ∀ x, x ∈ order ↔ x ∈ all ∧ x ∉ nodes;
  li_nodes : nodes ⊆ all;
  li_dom : dom adjlist ⊆ nodes;
  li_clean : nodes ⊆ dom adjlist → clean order adjlist;
}.

Lemma enum_empty c : enum c ∅ = [].
Proof.
  apply Permutation_nil_r. rewrite (enum_ok c ∅). by rewrite elements_empty.
Qed.

Lemma sort_loop_total fuel k nodes adjlist order :
loop_inv nodes adjlist order →
2 * weight adjlist + size (nodes ∖ dom adjlist) ≤ fuel →
∃ order',
  Graph.sort_loop enum fuel k nodes adjlist order = Returns order' ∧
  NoDup order' ∧ ∀ x, x ∈ order' ↔ x ∈ all.
Proof.
revert k nodes adjlist order.
induction fuel as [fuel IH] using lt_wf_ind.
intros k nodes adjlist order Hinv Hfuel.
destruct (decide (nodes = ∅)) as [->|Hne].
{ exists order. destruct Hinv. split.
  - destruct fuel; simpl; by rewrite decide_True.
  - split; [done|]. intros x. rewrite li_order0. set_solver. }
destruct (decide (nodes ∖ dom adjlist = ∅)) as [Hready|Hready].
- (* no node is ready: an edge is broken *)
  assert (nodes ⊆ dom adjlist) as Hsub by set_solver.
  pose proof (li_clean _ _ _ Hinv Hsub) as Hclean.
  assert (dom adjlist = nodes) as Hdom
    by (destruct Hinv; apply set_eq; set_solver).
  destruct (enum (Graph.frontier_at k) (dom adjlist)) as [|any_node rest] eqn:Ef.
  { exfalso. assert (∃ x, x ∈ nodes) as [x Hx] by (apply set_choose_L; done).
    rewrite <- Hdom in Hx.
    apply (enum_order_elem enum (Graph.frontier_at k)) in Hx; [|done].
    rewrite Ef in Hx. by apply elem_of_nil in Hx. }
  assert (any_node ∈ dom adjlist) as Hany.
  { apply (enum_order_elem enum (Graph.frontier_at k)); [done|].
    rewrite Ef. left. }
  destruct (break_edge_spec order adjlist any_node Hclean Hany)
    as (adjlist' & Hbreak & Hclean' & Hdom' & Hw).
  destruct fuel as [|fuel].
  { exfalso. rewrite Hready, size_empty in Hfuel.
    assert (weight adjlist = 0) as Hw0 by lia. rewrite Hw0 in Hw. lia. }
  destruct (IH fuel ltac:(lia) (S k) (dom adjlist) adjlist' order)
    as (order' & Hrun & Hres).
  + destruct Hinv. split; try done.
    * intros x. rewrite li_order0. by rewrite Hdom.
    * by rewrite Hdom.
  + lia.
  + exists order'. split; [|done]. simpl.
    rewrite decide_False by done. rewrite Hready, enum_empty, app_nil_r.
    rewrite decide_True by done. rewrite prune_id by done.
    rewrite Ef, Hbreak. simpl. exact Hrun.
- (* some nodes are ready *)
  set (order1 := order ++ enum (Graph.ready_at k) (nodes ∖ dom adjlist)).
  pose proof (weight_prune order1 adjlist) as Hw.
  assert (0 < size (nodes ∖ dom adjlist)) as Hpos.
  { destruct (size (nodes ∖ dom adjlist)) eqn:Es; [|lia].
    apply size_empty_inv in Es. exfalso. apply Hready. by apply leibniz_equiv. }
  destruct fuel as [|fuel]; [lia|].
  destruct (IH fuel ltac:(lia) (S k) (dom adjlist)
              (Graph.prune order1 adjlist) order1)
    as (order' & Hrun & Hres).
  + destruct Hinv. split.
    * subst order1. apply NoDup_app. split; [done|]. split.
      -- intros x Hx. rewrite enum_order_elem by done.
         apply li_order0 in Hx. set_solver.
      -- rewrite (enum_ok _ _). apply NoDup_elements.
    * intros x. subst order1.
      rewrite elem_of_app, li_order0, enum_order_elem by done.
      rewrite elem_of_difference.
      destruct (decide (x ∈ nodes)); set_solver.
    * set_solver.
    * unfold Graph.prune. etrans; [apply dom_filter_subseteq|].
      by rewrite dom_fmap_L.
    * intros _. apply prune_clean.
  + lia.
  + exists order'. split; [|done]. simpl.
    rewrite decide_False by done. rewrite decide_False by done. exact Hrun.
Qed.
End cyclic_sort.

Lemma filter_none {A} (P : A → Prop) `{∀ x, Decision (P x)} (l : list A) :
  (∀ x, x ∈ l → ¬ P x) → filter P l = [].
Proof.
  induction l as [|a l IH]; [done|]. intros Hl.
  rewrite filter_cons, decide_False by (apply Hl; left).
  apply IH. intros x Hx. apply Hl. by right.
Qed.

(** Every pass of the loop sorts a node or breaks an edge: the sort ends
    and returns the nodes, each once. *)
Lemma topological_sort_returns enum (g : Graph.t) :
  enum_order enum →
  NoDup (Graph.all_nodes g) →
  (∀ v, v ∈ dom (Graph.srcs_adjlist g) → v ∈ Graph.all_nodes g) →
  NoDup (Graph.recurrence_edges g) →
  (∀ u v, (u, v) ∈ Graph.recurrence_edges g → u ∈ Graph.get_srcs g v) →
  (Graph.get_liveins g = [] →
   ∀ v, v ∈ dom (Graph.srcs_adjlist g) → ∃ u, forward_edge g u v) →
  ∃ order,
    Graph.topological_sort enum g = Returns order ∧
    NoDup order ∧ ∀ x, x ∈ order ↔ x ∈ Graph.all_nodes g.
Proof.
  intros Henum Hnd Hkeys Hrnd Hredge Hfed.
  destruct (remove_recurrences_spec (Graph.recurrence_edges g)
              (Graph.copy_edges enum g)) as (a0 & Ha0 & Hdom & Hspec).
  - done.
  - intros u v Huv. apply Hredge in Huv. unfold Graph.get_srcs in Huv.
    destruct (Graph.srcs_adjlist g !! v) as [s|] eqn:Es; [|set_solver].
    exists (enum (Graph.copy_of v) s). split.
    + apply copy_edges_lookup. eauto.
    + by apply enum_order_elem.
  - intros x l [s [_ ->]]%copy_edges_lookup.
    rewrite (Henum _ s). apply NoDup_elements.
  - rewrite copy_edges_dom in Hdom.
    unfold Graph.topological_sort. rewrite Ha0. simpl.
    destruct (sort_loop_total enum Henum (node_set g)
                (Graph.sort_fuel (Graph.all_nodes g) a0) 0 (node_set g) a0 [])
      as (order & Hrun & Hnodup & Hmem).
    + split.
      * constructor.
      * intros x. split; [by intros ?%elem_of_nil|tauto].
      * done.
      * rewrite Hdom. intros v Hv. apply elem_of_list_to_set. by apply Hkeys.
      * intros Hsub x l' Hl'. split; [|intros u _ Hu; by apply elem_of_nil in Hu].
        assert (Graph.get_liveins g = []) as Hlive.
        { unfold Graph.get_liveins. apply filter_none.
          intros n Hn Hn'. apply Hn'. rewrite <- Hdom. apply Hsub.
          by apply elem_of_list_to_set. }
        assert (x ∈ dom (Graph.srcs_adjlist g)) as Hx
          by (rewrite <- Hdom; apply elem_of_dom; eauto).
        destruct (Hfed Hlive x Hx) as (u & Hu & Hnr).
        destruct (Hspec _ _ Hl') as (l & Hl & Hiff).
        apply copy_edges_lookup in Hl as (s & Hs & ->).
        assert (u ∈ l') as Hul.
        { apply Hiff. split; [|done]. apply enum_order_elem; [done|].
          unfold Graph.get_srcs in Hu. by rewrite Hs in Hu. }
        intros ->. by apply elem_of_nil in Hul.
    + unfold Graph.sort_fuel, weight.
      assert (size (node_set g ∖ dom a0) ≤ size (node_set g)) as H1
        by (apply subseteq_size; set_solver).
      assert (size (node_set g) = length (Graph.all_nodes g)) as H2
        by (unfold node_set; by rewrite size_list_to_set).
      lia.
    + exists order. split; [done|]. split; [done|].
      intros x. rewrite Hmem. unfold node_set. apply elem_of_list_to_set.
Qed.

(** X5. [topological_sort] on graphs with cycles: on a graph whose keys of
    the predecessor mapping are nodes, whose declared recurrence edges are
    distinct edges of the graph, and in which, when there is no live-in,
    every node with predecessors has one that is not a declared recurrence,
    the loop ends, raises nothing and returns every node exactly once,
    whatever cycles the graph has and in whatever order Python enumerates
    the sets: every pass either sorts a node or breaks an edge. *)
Theorem topological_sort_total enum (g : Graph.t) :
  enum_order enum →
  NoDup (Graph.all_nodes g) →
  (∀ v, v ∈ dom (Graph.srcs_adjlist g) → v ∈ Graph.all_nodes g) →
  NoDup (Graph.recurrence_edges g) →
  (∀ u v, (u, v) ∈ Graph.recurrence_edges g → u ∈ Graph.get_srcs g v) →
  (Graph.get_liveins g = [] →
   ∀ v, v ∈ dom (Graph.srcs_adjlist g) → ∃ u, forward_edge g u v) →
  ∃ order,
    Graph.topological_sort enum g = Returns order ∧
    order ≡ₚ Graph.all_nodes g.
Proof.
  intros Henum Hnd Hkeys Hrnd Hredge Hfed.
  destruct (topological_sort_returns enum g Henum Hnd Hkeys Hrnd Hredge Hfed)
    as (order & Hrun & Hnodup & Hmem).
  exists order. split; [exact Hrun|].
  by apply NoDup_Permutation.
Qed.

Lemma topological_sort_total_witness :
  ∃ order, Graph.topological_sort enum_elements cycle_ab = Returns order ∧
           order ≡ₚ Graph.all_nodes cycle_ab.
Proof.
  apply (topological_sort_total enum_elements cycle_ab).
  - exact enum_elements_order.
  - by_compute.
  - intros v Hv. revert v Hv.
    change (set_Forall (λ v, v ∈ Graph.all_nodes cycle_ab)
                       (dom (Graph.srcs_adjlist cycle_ab))).
    by_compute.
  - by_compute.
  - intros u v Huv. vm_compute in Huv. by apply elem_of_nil in Huv.
  - intros _ v. revert v.
    change (set_Forall (λ v, ∃ u, forward_edge cycle_ab u v)
                       (dom (Graph.srcs_adjlist cycle_ab))).
    apply set_Forall_elements. vm_compute elements.
    repeat constructor.
    + exists "b". split; by_compute.
    + exists "a". split; by_compute.
Defined.

(** In a graph whose edges other than the declared recurrences form no
    cycle, some node has no predecessor. *)
Lemma acyclic_has_livein (g : Graph.t) (rank : string → nat) :
  (∀ u v, u ∈ Graph.get_srcs g v → u ∈ Graph.all_nodes g) →
  (Graph.get_liveins g = [] →
   ∀ v, v ∈ dom (Graph.srcs_adjlist g) → ∃ u, forward_edge g u v) →
  (∀ u v, forward_edge g u v → rank u < rank v) →
  Graph.all_nodes g ≠ [] → Graph.get_liveins g ≠ [].
Proof.
  intros Hsrcs Hfed Hrank Hne Hnil.
  assert (∀ n v, rank v < n → v ∈ Graph.all_nodes g → False) as Hdesc.
  { induction n as [|n IH]; intros v Hv Hin; [lia|].
    assert (v ∈ dom (Graph.srcs_adjlist g)) as Hdom.
    { destruct (decide (v ∈ dom (Graph.srcs_adjlist g))) as [|Hout]; [done|].
      assert (v ∈ Graph.get_liveins g) as Hlive
        by (by apply list_elem_of_filter).
      rewrite Hnil in Hlive. by apply elem_of_nil in Hlive. }
    destruct (Hfed Hnil v Hdom) as [u Hu].
    apply (IH u).
    - apply Hrank in Hu. lia.
    - apply (Hsrcs u v), Hu. }
  destruct (Graph.all_nodes g) as [|v l] eqn:E; [done|].
  apply (Hdesc (S (rank v)) v); [lia|]. left.
Qed.

(** C2 (amended). On a graph whose edges join nodes of the graph, whose
    recurrence edges are distinct edges of the graph, and in which, when no
    node is without predecessor, every node that has predecessors has one
    over an edge that is not a declared recurrence, [topological_sort]
    returns an order that holds every node exactly once, whatever cycles
    the graph has; and when the edges other than the declared recurrences
    form no cycle (they increase some rank), [u] comes before [v] in that
    order for every edge [(u, v)] that is not a declared recurrence. This
    for every order in which Python may enumerate the sets involved. *)
Theorem topological_sort_well_formed enum (g : Graph.t) :
  enum_order enum →
  NoDup (Graph.all_nodes g) →
  (∀ v, v ∈ dom (Graph.srcs_adjlist g) → v ∈ Graph.all_nodes g) →
  (∀ u v, u ∈ Graph.get_srcs g v → u ∈ Graph.all_nodes g) →
  NoDup (Graph.recurrence_edges g) →
  (∀ u v, (u, v) ∈ Graph.recurrence_edges g → u ∈ Graph.get_srcs g v) →
  (Graph.get_liveins g = [] →
   ∀ v, v ∈ dom (Graph.srcs_adjlist g) → ∃ u, forward_edge g u v) →
  ∃ order,
    Graph.topological_sort enum g = Returns order ∧
    order ≡ₚ Graph.all_nodes g ∧
    ((∃ rank : string → nat, ∀ u v, forward_edge g u v → rank u < rank v) →
     ∀ u v, forward_edge g u v → precedes u v order).
Proof.
  intros Henum Hnd Hkeys Hsrcs Hrnd Hredge Hfed.
  destruct (topological_sort_returns enum g Henum Hnd Hkeys Hrnd Hredge Hfed)
    as (order & Hrun & Hnodup & Hmem).
  exists order. split; [exact Hrun|]. split; [by apply NoDup_Permutation|].
  intros [rank Hrank].
  destruct (topological_sort_acyclic_section enum Henum g rank)
    as (order' & Hrun' & _ & Hprec); try done.
  - intros u v Huv. apply elem_of_list_to_set. by eapply Hsrcs.
  - intros v Hv. apply elem_of_list_to_set. by apply Hkeys.
  - by apply (acyclic_has_livein g rank).
  - rewrite Hrun in Hrun'. by injection Hrun' as <-.
Qed.

(** On [fed_loop], whose only cycle is closed by the declared recurrence
    [c → a], the order respects the other edges. *)
Lemma topological_sort_well_formed_witness : sorts enum_elements fed_loop.
Proof.
  destruct (topological_sort_well_formed enum_elements fed_loop)
    as (order & Hrun & Hperm & Hprec).
  - exact enum_elements_order.
  - by_compute.
  - change (set_Forall (λ v, v ∈ Graph.all_nodes fed_loop)
                       (dom (Graph.srcs_adjlist fed_loop))).
    by_compute.
  - apply (srcs_forall fed_loop (λ u _, u ∈ Graph.all_nodes fed_loop)).
    by_compute.
  - by_compute.
  - assert (Forall (λ e, e.1 ∈ Graph.get_srcs fed_loop e.2)
                   (Graph.recurrence_edges fed_loop)) as HF by by_compute.
    intros u v Huv. exact (proj1 (Forall_forall _ _) HF (u, v) Huv).
  - intros Hlive. vm_compute in Hlive. discriminate.
  - exists order. split; [exact Hrun|]. split; [exact Hperm|].
    apply Hprec. exists rank_sabc.
    intros u v [Hu Hrec]. revert u v Hu Hrec.
    apply (srcs_forall fed_loop
             (λ u v, (u, v) ∉ Graph.recurrence_edges fed_loop →
                     rank_sabc u < rank_sabc v)).
    by_compute.
Defined.

(** X6. A loop without live-in that is closed by a declared recurrence:
    when every node has a predecessor and all predecessors of [d] are
    declared recurrences, the first pass finds no node ready, deletes the
    emptied key [d] and goes on to break a cycle; if Python enumerates [d]
    first there, [adjlist[any_node]] raises [KeyError] and no order is
    returned. *)
Theorem topological_sort_unfed_loop enum (g : Graph.t) (d : string)
    (rest : list string) :
  enum_order enum →
  NoDup (Graph.recurrence_edges g) →
  (∀ u v, (u, v) ∈ Graph.recurrence_edges g → u ∈ Graph.get_srcs g v) →
  Graph.all_nodes g ≠ [] →
  (∀ n, n ∈ Graph.all_nodes g → n ∈ dom (Graph.srcs_adjlist g)) →
  (∀ u, u ∈ Graph.get_srcs g d → (u, d) ∈ Graph.recurrence_edges g) →
  enum (Graph.frontier_at 0) (dom (Graph.srcs_adjlist g)) = d :: rest →
  Graph.topological_sort enum g = Raises KeyError.
Proof.
  intros Henum Hrnd Hredge Hne Hfed Hd Hfirst.
  destruct (remove_recurrences_spec (Graph.recurrence_edges g)
              (Graph.copy_edges enum g)) as (a0 & Ha0 & Hdom & Hspec).
  - done.
  - intros u v Huv. apply Hredge in Huv. unfold Graph.get_srcs in Huv.
    destruct (Graph.srcs_adjlist g !! v) as [s|] eqn:Es; [|set_solver].
    exists (enum (Graph.copy_of v) s). split.
    + apply copy_edges_lookup. eauto.
    + by apply enum_order_elem.
  - intros x l [s [_ ->]]%copy_edges_lookup.
    rewrite (Henum _ s). apply NoDup_elements.
  - rewrite copy_edges_dom in Hdom.
    unfold Graph.topological_sort. rewrite Ha0. simpl.
    unfold Graph.sort_fuel.
    replace (length (Graph.all_nodes g)
             + 2 * map_fold (λ _ l acc, S (length l) + acc) 0 a0 + 2)
      with (S (length (Graph.all_nodes g)
               + 2 * map_fold (λ _ l acc, S (length l) + acc) 0 a0 + 1))
      by lia.
    simpl. rewrite decide_False.
    2:{ destruct (Graph.all_nodes g) as [|n ns]; [done|]. set_solver. }
    assert (list_to_set (Graph.all_nodes g) ∖ dom a0 = (∅ : gset string))
      as Hready.
    { rewrite Hdom. apply set_eq. intros x.
      rewrite elem_of_difference, elem_of_list_to_set. set_solver. }
    rewrite Hready, decide_True by done. rewrite Hdom, Hfirst.
    assert (∀ order, Graph.prune order a0 !! d = None) as Hnone.
    { intros order. destruct (Graph.prune _ a0 !! d) as [l'|] eqn:E; [|done].
      exfalso.
      apply prune_lookup in E as (l & Hl & -> & Hnil).
      destruct (Hspec _ _ Hl) as (l0 & Hl0 & Hiff).
      apply copy_edges_lookup in Hl0 as (s & Hs & ->).
      destruct l as [|u l]; [by rewrite filter_nil in Hnil|].
      assert (u ∈ u :: l) as Hu by left.
      apply Hiff in Hu as [Hu Hnr]. apply Hnr, Hd.
      unfold Graph.get_srcs. rewrite Hs.
      by apply (enum_order_elem enum (Graph.copy_of d)). }
    unfold Graph.break_edge. by rewrite Hnone.
Qed.

(** An enumeration that yields [first] before the other elements. *)
Definition enum_first (first : string) : Graph.site → gset string → list string :=
  λ _ s, if decide (first ∈ s) then first :: elements (s ∖ {[first]})
         else elements s.

Lemma enum_first_order first : enum_order (enum_first first).
Proof.
  intros c s. unfold enum_first. case_decide as Hin; [|done].
  rewrite (union_difference_singleton_L first s Hin) at 2.
  symmetry. apply elements_union_singleton. set_solver.
Qed.

Lemma topological_sort_unfed_loop_witness :
  Graph.topological_sort (enum_first "a") loop_abc = Raises KeyError.
Proof.
  apply (topological_sort_unfed_loop (enum_first "a") loop_abc "a" ["c"; "b"]).
  - apply enum_first_order.
  - by_compute.
  - intros u v Huv. vm_compute in Huv.
    apply elem_of_cons in Huv as [Huv|Huv]; [|by apply elem_of_nil in Huv].
    injection Huv as -> ->. by_compute.
  - discriminate.
  - apply Forall_forall. by_compute.
  - intros u Hu. vm_compute.
    assert (u = "c") as ->; [|left].
    revert u Hu.
    change (set_Forall (λ u, u = "c") (Graph.get_srcs loop_abc "a")).
    by_compute.
  - vm_compute. reflexivity.
Defined.

(** * Errors and repetition of the export *)

Lemma mapM_app_raises {A B} (f : A → outcome B) (done : list A) (x : A)
    (rest : list A) (e : exn) :
  (∀ y, y ∈ done → ∃ z, f y = Returns z) →
  f x = Raises e →
  mapM f (done ++ x :: rest) = Raises e.
Proof.
  intros Hdone Hx. induction done as [|y done IH]; simpl.
  - by rewrite Hx.
  - destruct (Hdone y) as [z Hz]; [left|]. rewrite Hz. simpl.
    rewrite IH; [done|]. intros y' Hy'. apply Hdone. by right.
Qed.

(** X7. The errors of [dump_vf_json]: when the records before it are
    labelled, a record without an [x] or a [y] field raises [KeyError],
    whatever its other fields hold, and a record of a tile for which no
    node name starts with the name of the tile (a tile whose nodes were all
    deleted as orphans, say) raises [IndexError]; in both cases nothing is
    written. *)
Theorem dump_vf_json_errors (g : Graph.t)
    (done : list (gmap string Graph.jvalue)) (config : gmap string Graph.jvalue)
    (rest : list (gmap string Graph.jvalue)) :
  Forall (λ c, ∃ node, first_match g c node) done →
  (config !! "x" = None ∨ config !! "y" = None →
   Graph.dump_vf_json g (Some (done ++ config :: rest)) = Raises KeyError) ∧
  (∀ xi yi,
     config !! "x" = Some xi →
     config !! "y" = Some yi →
     (∀ n, n ∈ Graph.all_nodes g →
           String.prefix (Graph.get_name xi yi) n = false) →
     Graph.dump_vf_json g (Some (done ++ config :: rest)) = Raises IndexError).
Proof.
  intros Hdone.
  assert (∀ y, y ∈ done → ∃ z, Graph.dump_config g y = Returns z) as Hd.
  { intros y Hy. rewrite Forall_forall in Hdone.
    destruct (Hdone y Hy) as [node Hnode].
    destruct (dump_config_first_match g y node Hnode) as (z & Hz & _). eauto. }
  unfold Graph.dump_vf_json. split.
  - intros Hmiss. rewrite (mapM_app_raises _ done config rest KeyError); try done.
    unfold Graph.dump_config, Graph.getitem.
    destruct (config !! "x") as [xi|]; [|done]. simpl.
    destruct Hmiss as [?| ->]; done.
  - intros xi yi Hx Hy Hnone.
    rewrite (mapM_app_raises _ done config rest IndexError); try done.
    unfold Graph.dump_config, Graph.getitem. rewrite Hx. simpl.
    rewrite Hy. simpl.
    rewrite filter_none; [done|]. intros n Hn. rewrite (Hnone n Hn). done.
Qed.

(** A record whose [x] is a string and that has no [y], after a record
    that is labelled; and a record of a tile without node. *)
Lemma dump_vf_json_errors_witness :
  Graph.dump_vf_json tall_column
    (Some ([tile_0_10] ++ delete "y" (<["x" := Graph.JStr "0"]> tile_0_1) :: []))
  = Raises KeyError ∧
  Graph.dump_vf_json tall_column
    (Some ([tile_0_10] ++ <["y" := Graph.JInt 2]> tile_0_1 :: []))
  = Raises IndexError.
Proof.
  assert (Forall (λ c, ∃ node, first_match tall_column c node) [tile_0_10]) as H.
  { constructor; [|constructor].
    exists (set_V (Node_init "x0_y10" mul "mul") (123 # 100)%Q).
    exists (Graph.JInt 0), (Graph.JInt 10), "x0_y10", [].
    repeat split; vm_compute; reflexivity. }
  split.
  - apply (proj1 (dump_vf_json_errors tall_column [tile_0_10]
                    (delete "y" (<["x" := Graph.JStr "0"]> tile_0_1)) [] H)).
    right. reflexivity.
  - apply (proj2 (dump_vf_json_errors tall_column [tile_0_10]
                    (<["y" := Graph.JInt 2]> tile_0_1) [] H)
                 (Graph.JInt 0) (Graph.JInt 2)).
    + reflexivity.
    + reflexivity.
    + apply Forall_forall. repeat constructor.
Defined.

Lemma dump_config_twice g config config' :
  Graph.dump_config g config = Returns config' →
  Graph.dump_config g config' = Returns config'.
Proof.
  unfold Graph.dump_config, Graph.getitem. intros H.
  destruct (config !! "x") as [xi|] eqn:Ex; try done. simpl in H.
  destruct (config !! "y") as [yi|] eqn:Ey; try done. simpl in H.
  destruct (filter _ (Graph.all_nodes g)) as [|node_name ns] eqn:Ef; [done|].
  destruct (Graph.get_node g node_name) as [node| |] eqn:En; try done.
  simpl in H. injection H as <-.
  rewrite !lookup_insert_ne, Ex, Ey by done. simpl.
  rewrite Ef, En. simpl. by rewrite insert_insert_eq.
Qed.

(** X8. Labelling is idempotent: when [dump_vf_json] has written the
    records [data'], running it on [data'] with the same graph writes
    [data'] again. *)
Theorem dump_vf_json_twice (g : Graph.t)
    (data data' : list (gmap string Graph.jvalue)) :
  Graph.dump_vf_json g (Some data) = Returns (Some data') →
  Graph.dump_vf_json g (Some data') = Returns (Some data').
Proof.
  unfold Graph.dump_vf_json. intros H.
  destruct (mapM (Graph.dump_config g) data) as [d| |] eqn:Hm; try done.
  simpl in H. injection H as <-.
  enough (mapM (Graph.dump_config g) d = Returns d) as -> by done.
  revert d Hm. induction data as [|config data IH]; intros d Hm; simpl in Hm.
  - by injection Hm as <-.
  - destruct (Graph.dump_config g config) as [config'| |] eqn:Hc; try done.
    simpl in Hm.
    destruct (mapM (Graph.dump_config g) data) as [d'| |] eqn:Hd; try done.
    simpl in Hm. injection Hm as <-. simpl.
    rewrite (dump_config_twice _ _ _ Hc). simpl.
    by rewrite (IH d' eq_refl).
Qed.

Lemma dump_vf_json_twice_witness :
  Graph.dump_vf_json tall_column
    (Some [<["dvfs" := Graph.JStr "sprint"]> tile_0_10])
  = Returns (Some [<["dvfs" := Graph.JStr "sprint"]> tile_0_10]).
Proof.
  apply (dump_vf_json_twice tall_column [tile_0_10]). vm_compute. reflexivity.
Defined.

(** * Grouping the nodes (autosearch, phase 1) *)

Lemma get_node_elem g n :
  n ∈ Graph.all_nodes g → ∃ node, Graph.get_node g n = Returns node.
Proof.
  intros Hn. unfold Graph.get_node.
  destruct (Graph.assoc n (Graph.nodes g)) as [node|] eqn:E; [eauto|].
  apply assoc_None in E. done.
Qed.

Lemma group_each_app fuel g st l1 l2 :
  PowerModel.group_each fuel g st (l1 ++ l2)
  = st' ← PowerModel.group_each fuel g st l1;
    PowerModel.group_each fuel g st' l2.
Proof.
  revert st. induction l1 as [|n l1 IH]; intros st; simpl; [done|].
  destruct (PowerModel.group_node fuel g st n); simpl; [apply IH|done|done].
Qed.

(** X9. On a graph none of whose nodes is singly chained (one predecessor
    and one successor), the empty graph and a single edge [a → b] among
    them, [group_nodes] raises [TypeError]: no chain is found, so [reduce]
    is applied to an empty sequence without an initial value. *)
Theorem group_nodes_no_chain enum fuel (g : Graph.t) :
  (∀ k node, Graph.get_node g k = Returns node →
             PowerModel.is_singly_chained g node = false) →
  PowerModel.group_nodes enum fuel g = Raises TypeError.
Proof.
  intros Hno. unfold PowerModel.group_nodes.
  enough (∀ nodes visited, (∀ n, n ∈ nodes → n ∈ Graph.all_nodes g) →
            ∃ visited', PowerModel.group_each fuel g ([], visited, 1) nodes
                        = Returns ([], visited', 1)) as Hloop.
  { destruct (Hloop (Graph.all_nodes g) []) as [visited' ->]; done. }
  induction nodes as [|n nodes IH]; intros visited Hin; simpl; [eauto|].
  case_decide.
  - simpl. apply IH. intros ??. apply Hin. by right.
  - destruct (get_node_elem g n) as [node Hnode]; [apply Hin; left|].
    rewrite Hnode. simpl. rewrite (Hno _ _ Hnode). simpl.
    apply IH. intros ??. apply Hin. by right.
Qed.

Lemma group_nodes_no_chain_witness :
  PowerModel.group_nodes elements 0 mul_add_graph = Raises TypeError.
Proof.
  apply (group_nodes_no_chain elements 0 mul_add_graph).
  intros k node Hk. unfold Graph.get_node in Hk.
  simpl in Hk. repeat case_decide; simplify_eq; reflexivity.
Defined.

(** The node table names [n] and binds it to a singly chained node. *)
Definition chained_node (g : Graph.t) (n : string) : Prop :=
  ∃ node, Graph.get_node g n = Returns node ∧
          PowerModel.is_singly_chained g node = true.

Lemma chain_walk_returns fuel g step cur group visited group' visited' :
  PowerModel.chain_walk fuel g step cur group visited
    = Returns (group', visited') →
  ∃ more vmore, group' = group ++ more ∧ visited' = visited ++ vmore ∧
                (∀ x, x ∈ more → chained_node g x).
Proof.
  revert cur group visited.
  induction fuel as [|fuel IH]; intros cur group visited H; simpl in H; [done|].
  destruct (elements (step g (name cur))) as [|nn rest]; [done|].
  destruct (Graph.get_node g nn) as [next| |] eqn:En; try done. simpl in H.
  destruct (PowerModel.is_singly_chained g next) eqn:Ec.
  - apply IH in H as (more & vmore & -> & -> & Hm).
    exists (nn :: more), (nn :: vmore).
    rewrite <- !app_assoc. split; [done|]. split; [done|].
    intros x [->|Hx]%elem_of_cons; [by exists next|by apply Hm].
  - injection H as <- <-. exists [], [nn]. rewrite app_nil_r.
    split; [done|]. split; [done|]. intros x Hx. by apply elem_of_nil in Hx.
Qed.

(** What the loop over the nodes keeps: the keys count up from 1, no group
    is empty, and the groups hold singly chained nodes. *)
Definition grouping_inv (g : Graph.t) (st : PowerModel.grouping) : Prop :=
  let '(groups, visited, count) := st in
  groups.*1 = seq 1 (length groups) ∧ count = S (length groups) ∧
  Forall (λ grp, grp ≠ [] ∧ ∀ n, n ∈ grp → chained_node g n) groups.*2.

Lemma group_node_spec fuel g groups visited count n st' :
  PowerModel.group_node fuel g (groups, visited, count) n = Returns st' →
  grouping_inv g (groups, visited, count) →
  grouping_inv g st' ∧ (∀ x, x ∈ visited → x ∈ st'.1.2) ∧ n ∈ st'.1.2.
Proof.
  unfold PowerModel.group_node. intros H (Hk & Hc & Hg). case_decide as Hv.
  - injection H as <-. simpl. done.
  - destruct (Graph.get_node g n) as [node| |] eqn:En; try done. simpl in H.
    destruct (PowerModel.is_singly_chained g node) eqn:Ec.
    + destruct (PowerModel.chain_walk fuel g Graph.get_dsts node [n]
                  (visited ++ [n])) as [[grp1 vis1]| |] eqn:E1; try done.
      simpl in H.
      destruct (PowerModel.chain_walk fuel g Graph.get_srcs node grp1 vis1)
        as [[grp2 vis2]| |] eqn:E2; try done.
      simpl in H. injection H as <-. simpl.
      apply chain_walk_returns in E1 as (m1 & v1 & -> & -> & Hm1).
      apply chain_walk_returns in E2 as (m2 & v2 & -> & -> & Hm2).
      split; [|split].
      * rewrite !fmap_app, !length_app, Hk. simpl. split; [|split].
        -- rewrite seq_app. simpl. by rewrite Hc.
        -- lia.
        -- apply Forall_app. split; [done|]. constructor; [|constructor].
           split; [by destruct m1|].
           intros x. rewrite elem_of_cons, elem_of_app.
           intros [->|[Hx|Hx]]; [by exists node|by apply Hm1|by apply Hm2].
      * intros x Hx. rewrite !elem_of_app. tauto.
      * rewrite !elem_of_app, list_elem_of_singleton. tauto.
    + injection H as <-. simpl. split; [done|]. split.
      * intros x Hx. rewrite elem_of_app. tauto.
      * rewrite elem_of_app, list_elem_of_singleton. tauto.
Qed.

Lemma group_each_spec fuel g st nodes st' :
  PowerModel.group_each fuel g st nodes = Returns st' →
  grouping_inv g st →
  grouping_inv g st' ∧ (∀ x, x ∈ st.1.2 → x ∈ st'.1.2) ∧
  ∀ n, n ∈ nodes → n ∈ st'.1.2.
Proof.
  revert st. induction nodes as [|n nodes IH]; intros st H Hinv; simpl in H.
  - injection H as <-. split; [done|]. split; [done|].
    intros n Hn. by apply elem_of_nil in Hn.
  - destruct (PowerModel.group_node fuel g st n) as [st1| |] eqn:E1; try done.
    simpl in H. destruct st as [[groups visited] count].
    destruct (group_node_spec _ _ _ _ _ _ _ E1 Hinv) as (Hinv1 & Hmono1 & Hn1).
    destruct (IH _ H Hinv1) as (Hinv' & Hmono' & Hall').
    split; [done|]. split; [by intros x Hx; apply Hmono', Hmono1|].
    intros x [->|Hx]%elem_of_cons; [by apply Hmono'|by apply Hall'].
Qed.

Lemma fold_left_app_concat {A} (ls : list (list A)) (l : list A) :
  fold_left app ls l = l ++ concat ls.
Proof.
  revert l. induction ls as [|k ls IH]; intros l; simpl.
  - by rewrite app_nil_r.
  - by rewrite IH, app_assoc.
Qed.

Lemma all_grouped_concat groups grouped :
  PowerModel.all_grouped groups = Returns grouped →
  grouped = concat groups.*2.
Proof.
  unfold PowerModel.all_grouped.
  destruct (groups.*2) as [|l ls]; [done|]. intros [= <-].
  apply fold_left_app_concat.
Qed.

Lemma group_others_spec groups count others :
  (PowerModel.group_others groups count others).*2
    = groups.*2 ++ ((λ x, [x]) <$> others) ∧
  (PowerModel.group_others groups count others).*1
    = groups.*1 ++ seq count (length others).
Proof.
  revert groups count. induction others as [|n others IH];
    intros groups count; simpl.
  - by rewrite !app_nil_r.
  - destruct (IH (groups ++ [(count, [n])]) (S count)) as [-> ->].
    rewrite !fmap_app, <- !app_assoc. done.
Qed.

Lemma concat_singletons {A} (l : list A) : concat ((λ x, [x]) <$> l) = l.
Proof. induction l as [|x l IH]; [done|]. rewrite fmap_cons. simpl. by f_equal. Qed.

Lemma length_concat_sum {A} (ls : list (list A)) :
  length (concat ls) = sum_list (length <$> ls).
Proof.
  induction ls as [|l ls IH]; simpl; [done|]. by rewrite length_app, IH.
Qed.

(** X10. What [group_nodes] returns: when it returns (its last assertion
    holds) the groups partition the node table, every node lying in one
    group and once; the keys count up from 1; no group is empty, and a group
    of two nodes or more holds singly chained nodes only. *)
Theorem group_nodes_partition enum fuel (g : Graph.t)
    (groups : list (nat * list string)) :
  (∀ s, enum s ≡ₚ elements s) →
  NoDup (Graph.all_nodes g) →
  PowerModel.group_nodes enum fuel g = Returns groups →
  concat groups.*2 ≡ₚ Graph.all_nodes g ∧
  groups.*1 = seq 1 (length groups) ∧
  ∀ grp, grp ∈ groups.*2 →
    grp ≠ [] ∧ (1 < length grp → ∀ n, n ∈ grp → chained_node g n).
Proof.
  intros Henum Hnd. unfold PowerModel.group_nodes. intros H.
  destruct (PowerModel.group_each fuel g ([], [], 1) (Graph.all_nodes g))
    as [[[chains visited] count]| |] eqn:Hloop; try done. simpl in H.
  destruct (PowerModel.all_grouped chains) as [grouped| |] eqn:Hred; try done.
  simpl in H. case_decide as Hlen; [|done]. injection H as <-.
  apply all_grouped_concat in Hred. subst grouped.
  destruct (group_each_spec _ _ _ _ _ Hloop) as ((Hk & Hc & Hg) & _ & Hvis).
  { repeat split. constructor. }
  simpl in Hvis.
  set (others := enum (list_to_set visited ∖ list_to_set (concat chains.*2))) in *.
  destruct (group_others_spec chains count others) as [H2 H1].
  split; [|split].
  - symmetry. apply submseteq_length_Permutation.
    + apply NoDup_submseteq; [done|]. intros n Hn.
      rewrite H2, concat_app, concat_singletons, elem_of_app.
      destruct (decide (n ∈ concat chains.*2)) as [|Hno]; [by left|right].
      subst others. rewrite (Henum _), elem_of_elements.
      apply elem_of_difference. rewrite !elem_of_list_to_set. auto.
    + rewrite length_concat_sum. lia.
  - rewrite H1, Hk, Hc.
    assert (length (PowerModel.group_others chains (S (length chains)) others)
            = length chains + length others) as ->.
    { rewrite <- (length_fmap snd), <- Hc, H2, length_app, !length_fmap. done. }
    by rewrite seq_app.
  - intros grp. rewrite H2, elem_of_app. intros [Hgrp|Hgrp].
    + rewrite Forall_forall in Hg. destruct (Hg _ Hgrp). done.
    + apply list_elem_of_fmap in Hgrp as (x & -> & _). split; [done|].
      simpl. lia.
Qed.

(** [i → a → b → o]: a chain of two nodes between a live-in and a
    live-out. *)
Definition chain_graph : Graph.t :=
  Graph.connect (Graph.connect (Graph.connect
    (Graph.mk [("i", Node_init "i" mul ""); ("a", Node_init "a" mul "");
               ("b", Node_init "b" mul ""); ("o", Node_init "o" mul "")]
              ∅ ∅ [] "graph.json")
    "i" "a" false) "a" "b" false) "b" "o" false.

Lemma group_nodes_partition_witness :
  ∃ groups, PowerModel.group_nodes elements 4 chain_graph = Returns groups ∧
            concat groups.*2 ≡ₚ ["i"; "a"; "b"; "o"].
Proof.
  eexists. split; [vm_compute; reflexivity|].
  apply (group_nodes_partition elements 4 chain_graph).
  - done.
  - by_compute.
  - vm_compute. reflexivity.
Defined.

(** ** Chains that close into a cycle *)

(** [n] has exactly one predecessor and exactly one successor. *)
Definition chained (g : Graph.t) (n : string) : Prop :=
  size (Graph.get_srcs g n) = 1 ∧ size (Graph.get_dsts g n) = 1.

(** Every node of the table carries the name it is filed under, as
    [add_node] files it. *)
Definition keys_are_names (g : Graph.t) : Prop :=
  ∀ k node, Graph.get_node g k = Returns node → name node = k.

(** Every edge joins two nodes of the table. *)
Definition edges_join_nodes (g : Graph.t) : Prop :=
  ∀ u v, v ∈ Graph.get_dsts g u →
         u ∈ Graph.all_nodes g ∧ v ∈ Graph.all_nodes g.

(** Consecutive elements of the list are related. *)
Inductive chain (R : string → string → Prop) : list string → Prop :=
| chain_nil : chain R []
| chain_one x : chain R [x]
| chain_cons x y l : R x y → chain R (y :: l) → chain R (x :: y :: l).

(** A cycle of singly chained nodes: each node of [cyc] is singly chained
    and has the next one as a successor, the last one the first. *)
Definition chained_cycle (g : Graph.t) (cyc : list string) : Prop :=
  cyc ≠ [] ∧ (∀ n, n ∈ cyc → chained g n) ∧
  chain (λ x y, y ∈ Graph.get_dsts g x) (cyc ++ take 1 cyc).

Lemma chain_next R l z x :
  chain R (l ++ [z]) → x ∈ l → ∃ y, y ∈ l ++ [z] ∧ R x y.
Proof.
  induction l as [|a l IH]; intros Hc Hx; [by apply elem_of_nil in Hx|].
  destruct l as [|b l]; simpl in *.
  - inversion Hc; subst. apply list_elem_of_singleton in Hx as ->.
    exists z. split; [right; left|done].
  - inversion Hc as [| |? ? ? Hab Hrest]; subst.
    apply elem_of_cons in Hx as [->|Hx].
    + exists b. split; [right; left|done].
    + destruct (IH Hrest Hx) as (y & Hy & HR). exists y. split; [by right|done].
Qed.

Lemma chain_prev R a l x :
  chain R (a :: l) → x ∈ l → ∃ p, p ∈ a :: l ∧ R p x.
Proof.
  revert a. induction l as [|b l IH]; intros a Hc Hx;
    [by apply elem_of_nil in Hx|].
  inversion Hc as [| |a' b' l' Hab Hrest]; subst.
  apply elem_of_cons in Hx as [->|Hx].
  - exists a. split; [left|done].
  - destruct (IH b Hrest Hx) as (p & Hp & HR). exists p. split; [by right|done].
Qed.

Lemma is_singly_chained_spec g k node :
  keys_are_names g → Graph.get_node g k = Returns node →
  PowerModel.is_singly_chained g node = true ↔ chained g k.
Proof.
  intros Hkeys Hnode. unfold PowerModel.is_singly_chained, chained.
  rewrite (Hkeys _ _ Hnode), andb_true_iff, !Nat.eqb_eq. done.
Qed.

Lemma elements_size_1 (s : gset string) x :
  size s = 1 → x ∈ s → elements s = [x].
Proof.
  intros Hs Hx.
  assert (s = {[x]}) as ->; [|apply elements_singleton].
  apply set_eq. intros y. rewrite elem_of_singleton. split.
  - intros Hy. by apply (size_singleton_inv s).
  - by intros ->.
Qed.

Section closed_chain.
Variable g : Graph.t.
Variable cyc : list string.
Hypothesis keys : keys_are_names g.
Hypothesis sym : symmetric g.
Hypothesis joined : edges_join_nodes g.
Hypothesis is_cycle : chained_cycle g cyc.

Lemma cycle_succ c :
  c ∈ cyc → ∀ y, y ∈ Graph.get_dsts g c → y ∈ cyc.
Proof.
  destruct is_cycle as (Hne & Hch & Hchain). intros Hc y Hy.
  destruct cyc as [|a rest] eqn:E; [done|]. simpl in Hchain.
  rewrite take_0 in Hchain.
  destruct (chain_next (λ x y, y ∈ Graph.get_dsts g x) (a :: rest) a c)
    as (y' & Hy' & HR); [done|done|].
  assert (y = y') as ->
    by (apply (size_singleton_inv (Graph.get_dsts g c)); [apply Hch| |]; done).
  apply elem_of_app in Hy' as [|Hy']; [done|].
  apply list_elem_of_singleton in Hy' as ->. left.
Qed.

Lemma cycle_pred c :
  c ∈ cyc → ∀ p, p ∈ Graph.get_srcs g c → p ∈ cyc.
Proof.
  destruct is_cycle as (Hne & Hch & Hchain). intros Hc p Hp.
  destruct cyc as [|a rest] eqn:E; [done|]. simpl in Hchain.
  rewrite take_0 in Hchain.
  destruct (chain_prev (λ x y, y ∈ Graph.get_dsts g x) a (rest ++ [a]) c)
    as (p' & Hp' & HR); [done| |].
  { apply elem_of_cons in Hc as [->|Hc]; set_solver. }
  apply sym in HR.
  assert (p = p') as ->
    by (apply (size_singleton_inv (Graph.get_srcs g c)); [apply Hch| |]; done).
  apply elem_of_cons in Hp' as [->|Hp']; [left|].
  apply elem_of_app in Hp' as [|Hp']; [by right|].
  apply list_elem_of_singleton in Hp' as ->. left.
Qed.

Lemma cycle_nodes c : c ∈ cyc → c ∈ Graph.all_nodes g.
Proof.
  intros Hc. destruct is_cycle as (_ & Hch & _).
  destruct (Hch c Hc) as [_ Hd].
  destruct (size_pos_elem_of (Graph.get_dsts g c)) as [y Hy]; [lia|].
  by destruct (joined c y Hy).
Qed.

(** The search forward from a node of the cycle finds a singly chained
    node at every step. *)
Lemma chain_walk_in_cycle fuel cur group visited :
  name cur ∈ cyc →
  PowerModel.chain_walk fuel g Graph.get_dsts cur group visited = OutOfFuel.
Proof.
  revert cur group visited.
  induction fuel as [|fuel IH]; intros cur group visited Hc; simpl; [done|].
  destruct is_cycle as (_ & Hch & _).
  destruct (Hch _ Hc) as [_ Hd].
  destruct (size_pos_elem_of (Graph.get_dsts g (name cur))) as [y Hy]; [lia|].
  rewrite (elements_size_1 _ y Hd Hy).
  pose proof (cycle_succ _ Hc y Hy) as Hyc.
  destruct (get_node_elem g y (cycle_nodes y Hyc)) as [next Hnext].
  rewrite Hnext. simpl.
  rewrite (proj2 (is_singly_chained_spec g y next keys Hnext)) by by apply Hch.
  apply IH. by rewrite (keys _ _ Hnext).
Qed.

(** A search that starts outside the cycle stays outside. *)
Lemma chain_walk_outside fuel step cur group visited :
  (∀ x, chained g x → size (step g x) = 1) →
  (∀ x y, y ∈ step g x → y ∈ Graph.all_nodes g) →
  (∀ x y, y ∈ step g x → y ∈ cyc → x ∈ cyc) →
  chained g (name cur) → (name cur ∉ cyc) →
  (∀ x, x ∈ visited → x ∉ cyc) →
  PowerModel.chain_walk fuel g step cur group visited = OutOfFuel ∨
  ∃ group' visited',
    PowerModel.chain_walk fuel g step cur group visited
      = Returns (group', visited') ∧
    ∀ x, x ∈ visited' → x ∉ cyc.
Proof.
  intros Hsize Hnodes Hback. revert cur group visited.
  induction fuel as [|fuel IH]; intros cur group visited Hch Hout Hvis; simpl;
    [by left|].
  destruct (size_pos_elem_of (step g (name cur))) as [y Hy];
    [rewrite Hsize by done; lia|].
  rewrite (elements_size_1 _ y (Hsize _ Hch) Hy).
  destruct (get_node_elem g y (Hnodes _ _ Hy)) as [next Hnext].
  rewrite Hnext. simpl.
  assert (y ∉ cyc) as Hyout by (intros Hyc; apply Hout; by eapply Hback).
  assert (∀ x, x ∈ visited ++ [y] → x ∉ cyc) as Hvis'.
  { intros x [Hx|Hx]%elem_of_app; [by apply Hvis|].
    by apply list_elem_of_singleton in Hx as ->. }
  destruct (PowerModel.is_singly_chained g next) eqn:Ec.
  - apply IH; [|by rewrite (keys _ _ Hnext)|done].
    rewrite (keys _ _ Hnext). by apply (is_singly_chained_spec g y next).
  - right. eauto.
Qed.
End closed_chain.

Section divergence.
Variable g : Graph.t.
Variable cyc : list string.
Hypothesis keys : keys_are_names g.
Hypothesis sym : symmetric g.
Hypothesis joined : edges_join_nodes g.
Hypothesis is_cycle : chained_cycle g cyc.

Lemma group_each_diverges fuel nodes groups visited count :
(∀ x, x ∈ visited → x ∉ cyc) →
(∀ n, n ∈ nodes → n ∈ Graph.all_nodes g) →
(∃ c, c ∈ nodes ∧ c ∈ cyc) →
PowerModel.group_each fuel g (groups, visited, count) nodes = OutOfFuel.
Proof.
revert groups visited count.
induction nodes as [|n nodes IH]; intros groups visited count Hvis Hin (c & Hc & Hcc).
{ by apply elem_of_nil in Hc. }
assert (∀ n', n' ∈ nodes → n' ∈ Graph.all_nodes g) as Hin'
  by (intros ??; apply Hin; by right).
simpl. unfold PowerModel.group_node. case_decide as Hv.
- simpl. apply IH; [done|done|].
  exists c. split; [|done]. apply elem_of_cons in Hc as [->|Hc]; [|done].
  by apply Hvis in Hv.
- destruct (get_node_elem g n) as [node Hnode]; [apply Hin; left|].
  rewrite Hnode. simpl. pose proof (keys _ _ Hnode) as Hname.
  assert (∀ x, x ∈ visited ++ [n] → n ∉ cyc → x ∉ cyc) as Hvis1.
  { intros x [Hx|Hx]%elem_of_app Hn; [by apply Hvis|].
    by apply list_elem_of_singleton in Hx as ->. }
  destruct (decide (n ∈ cyc)) as [Hn|Hn].
  + destruct is_cycle as (_ & Hch & _).
    rewrite (proj2 (is_singly_chained_spec g n node keys Hnode)) by by apply Hch.
    rewrite (chain_walk_in_cycle g cyc keys joined is_cycle); [done|].
    by rewrite Hname.
  + assert (∃ c', c' ∈ nodes ∧ c' ∈ cyc) as Hex.
    { exists c. split; [|done]. apply elem_of_cons in Hc as [->|Hc]; done. }
    destruct (PowerModel.is_singly_chained g node) eqn:Ec.
    2:{ simpl. apply IH; [|done|done]. intros x Hx. by apply Hvis1. }
    apply (is_singly_chained_spec g n node keys Hnode) in Ec.
    destruct (chain_walk_outside g cyc keys fuel Graph.get_dsts node [n]
                (visited ++ [n])) as [->|(grp1 & vis1 & -> & Hvis2)]; try done.
    * intros x [_ Hx]. done.
    * intros x y Hy. by destruct (joined x y Hy).
    * intros x y Hy Hyc. apply sym in Hy.
      eapply (cycle_pred g cyc); eauto.
    * by rewrite Hname.
    * by rewrite Hname.
    * intros x Hx. by apply Hvis1.
    * simpl.
      destruct (chain_walk_outside g cyc keys fuel Graph.get_srcs node grp1
                  vis1) as [->|(grp2 & vis2 & -> & Hvis3)]; try done.
      -- intros x [Hx _]. done.
      -- intros x y Hy. apply sym in Hy. by destruct (joined y x Hy).
      -- intros x y Hy Hyc. apply sym in Hy.
         eapply (cycle_succ g cyc); eauto.
      -- by rewrite Hname.
      -- by rewrite Hname.
      -- simpl. by apply IH.
Qed.
End divergence.

(** X11. [group_nodes] on a cycle of singly chained nodes: on a graph
    whose adjacency mappings mirror each other and whose edges join nodes
    filed under their names, and which contains a cycle made of singly
    chained nodes only, the search forward that starts at the first node of
    the cycle in the node table finds a singly chained successor at every
    step, so [group_nodes] does not return, whatever the number of steps it
    is given. *)
Theorem group_nodes_diverges enum fuel (g : Graph.t) (cyc : list string) :
  keys_are_names g → symmetric g → edges_join_nodes g →
  chained_cycle g cyc →
  PowerModel.group_nodes enum fuel g = OutOfFuel.
Proof.
  intros Hkeys Hsym Hjoin Hcyc. unfold PowerModel.group_nodes.
  rewrite (group_each_diverges g cyc Hkeys Hsym Hjoin Hcyc); [done| |done|].
  - intros x Hx. by apply elem_of_nil in Hx.
  - destruct Hcyc as (Hne & Hrest). destruct cyc as [|c cyc']; [done|].
    exists c. split; [|left].
    eapply (cycle_nodes g (c :: cyc')); eauto; [by split|left].
Qed.

Lemma dsts_forall (g : Graph.t) (P : string → string → Prop) :
  map_Forall (λ u s, set_Forall (λ v, P u v) s) (Graph.dsts_adjlist g) →
  ∀ u v, v ∈ Graph.get_dsts g u → P u v.
Proof.
  intros H u v Hv. unfold Graph.get_dsts in Hv.
  destruct (Graph.dsts_adjlist g !! u) as [s|] eqn:E; [|set_solver].
  by apply (H u s E v).
Qed.

Lemma assoc_Some_elem {A} k (a : A) (l : list (string * A)) :
  Graph.assoc k l = Some a → (k, a) ∈ l.
Proof.
  induction l as [|[k' a'] l IH]; simpl; [done|]. case_decide.
  - intros [= ->]. subst. left.
  - intros H'. right. by apply IH.
Qed.

Lemma keys_are_names_forall (g : Graph.t) :
  Forall (λ kv, name kv.2 = kv.1) (Graph.nodes g) → keys_are_names g.
Proof.
  intros HF k node Hk. unfold Graph.get_node in Hk.
  destruct (Graph.assoc k (Graph.nodes g)) as [n|] eqn:E; [|done].
  injection Hk as ->. apply assoc_Some_elem in E.
  rewrite Forall_forall in HF. apply (HF _ E).
Qed.

Lemma loop_abc_reachable : Graph.reachable loop_abc.
Proof.
  do 3 apply Graph.reach_connect.
  apply (Graph.reach_add_node
           (Graph.mk [("a", Node_init "a" mul ""); ("b", Node_init "b" mul "")]
                     ∅ ∅ [] "graph.json") (Node_init "c" mul ""));
    [|reflexivity].
  apply (Graph.reach_add_node
           (Graph.mk [("a", Node_init "a" mul "")] ∅ ∅ [] "graph.json")
           (Node_init "b" mul "")); [|reflexivity].
  apply (Graph.reach_add_node Graph.init (Node_init "a" mul ""));
    [constructor|reflexivity].
Qed.

Lemma group_nodes_diverges_witness :
  PowerModel.group_nodes elements 1000 loop_abc = OutOfFuel.
Proof.
  apply (group_nodes_diverges elements 1000 loop_abc ["a"; "b"; "c"]).
  - apply keys_are_names_forall. by_compute.
  - apply reachable_symmetric, loop_abc_reachable.
  - unfold edges_join_nodes.
    apply (dsts_forall loop_abc
             (λ u v, u ∈ Graph.all_nodes loop_abc ∧ v ∈ Graph.all_nodes loop_abc)).
    by_compute.
  - split; [done|]. split.
    + apply Forall_forall. unfold chained. by_compute.
    + repeat constructor; by_compute.
Defined.

(** ** Chains that end *)

Lemma chain_app_r R l1 l2 : chain R (l1 ++ l2) → chain R l2.
Proof.
  induction l1 as [|a l1 IH]; [done|]. simpl. intros Hc. apply IH.
  inversion Hc as [|x Hx|x y l Hxy Hrest Hx]; subst.
  - destruct l1; [|done]. simpl in *. subst. constructor.
  - done.
Qed.

Lemma chain_snoc R l z y :
  chain R l → last l = Some z → R z y → chain R (l ++ [y]).
Proof.
  induction l as [|a l IH]; [done|]. intros Hc Hl Hzy.
  destruct l as [|b l]; simpl in *.
  - injection Hl as ->. by repeat constructor.
  - inversion Hc; subst. constructor; [done|]. by apply IH.
Qed.

Lemma chain_reverse R l : chain R l → chain (flip R) (reverse l).
Proof.
  induction 1 as [|x|x y l Hxy Hc IH]; [constructor|constructor|].
  rewrite reverse_cons. eapply chain_snoc; [done| |exact Hxy].
  rewrite reverse_cons. apply last_snoc.
Qed.

Lemma chain_impl (R R' : string → string → Prop) l :
  (∀ x y, R x y → R' x y) → chain R l → chain R' l.
Proof. intros HR. induction 1; constructor; auto. Qed.

Lemma chained_in_dom g n : chained g n → n ∈ dom (Graph.dsts_adjlist g).
Proof.
  intros [_ Hd]. unfold Graph.get_dsts in Hd. apply elem_of_dom.
  destruct (Graph.dsts_adjlist g !! n); [done|].
  by rewrite size_empty in Hd.
Qed.

Section termination.
Variable g : Graph.t.
Hypothesis keys : keys_are_names g.
Hypothesis sym : symmetric g.
Hypothesis no_cycle : ∀ cyc, ¬ chained_cycle g cyc.

Definition bound : nat := size (dom (Graph.dsts_adjlist g)).

Lemma trail_length tr :
NoDup tr → (∀ x, x ∈ tr → chained g x) → length tr ≤ bound.
Proof.
intros Hnd Hch. unfold bound.
rewrite <- (size_list_to_set (C:=gset string) tr Hnd).
apply subseteq_size. intros x Hx. apply elem_of_list_to_set in Hx.
by apply chained_in_dom, Hch.
Qed.

(** A search along [step] that cannot close a cycle ends within [bound]
    steps, and on the same result whatever fuel is left over. *)
Lemma chain_walk_total step n :
(∀ c l z, chain (λ x y, y ∈ step g x) (c :: l) →
          (∀ x, x ∈ c :: l → chained g x) →
          last (c :: l) = Some z → c ∈ step g z → False) →
∀ tr cur group visited,
  chain (λ x y, y ∈ step g x) tr → NoDup tr →
  (∀ x, x ∈ tr → chained g x) → last tr = Some (name cur) →
  bound + 1 - length tr ≤ n →
  ∃ r, r ≠ OutOfFuel ∧
       ∀ fuel, bound < fuel + length tr →
               PowerModel.chain_walk fuel g step cur group visited = r.
Proof.
intros Hopen. induction n as [|n IH];
  intros tr cur group visited Hchain Hnd Hch Hlast Hn.
{ pose proof (trail_length tr Hnd Hch). lia. }
pose proof (trail_length tr Hnd Hch) as Hlen.
destruct (elements (step g (name cur))) as [|nn rest] eqn:Eel.
{ exists (Raises IndexError). split; [done|]. intros [|fuel] Hf; [lia|].
  simpl. by rewrite Eel. }
assert (nn ∈ step g (name cur)) as Hnn
  by (apply elem_of_elements; rewrite Eel; left).
destruct (Graph.get_node g nn) as [next|e|] eqn:Enext.
3:{ unfold Graph.get_node in Enext.
    by destruct (Graph.assoc nn (Graph.nodes g)). }
2:{ exists (Raises e). split; [done|]. intros [|fuel] Hf; [lia|].
    simpl. by rewrite Eel, Enext. }
destruct (PowerModel.is_singly_chained g next) eqn:Ec.
2:{ exists (Returns (group, visited ++ [nn])). split; [done|].
    intros [|fuel] Hf; [lia|]. simpl. rewrite Eel, Enext. simpl.
    by rewrite Ec. }
pose proof (proj1 (is_singly_chained_spec g nn next keys Enext) Ec) as Hcnn.
destruct (decide (nn ∈ tr)) as [Hin|Hout].
{ exfalso. apply list_elem_of_split in Hin as (l1 & l2 & ->).
  apply (Hopen nn l2 (name cur)).
  - by apply chain_app_r in Hchain.
  - intros x Hx. apply Hch. apply elem_of_app. by right.
  - rewrite last_app in Hlast.
    destruct (last (nn :: l2)) as [w|] eqn:El; [done|].
    by apply last_None in El.
  - done. }
destruct (IH (tr ++ [nn]) next (group ++ [nn]) (visited ++ [nn]))
  as (r & Hr & Hrun).
- eapply chain_snoc; [done|done|done].
- apply NoDup_app. split; [done|]. split; [|apply NoDup_singleton].
  intros x Hx Hx'. by apply list_elem_of_singleton in Hx' as ->.
- intros x [Hx|Hx]%elem_of_app; [by apply Hch|].
  by apply list_elem_of_singleton in Hx as ->.
- rewrite last_snoc. by rewrite (keys _ _ Enext).
- rewrite length_app. simpl. lia.
- exists r. split; [done|]. intros [|fuel] Hf; [lia|].
  simpl. rewrite Eel, Enext. simpl. rewrite Ec. apply Hrun.
  rewrite length_app. simpl. lia.
Qed.

Lemma forward_open c l z :
chain (λ x y, y ∈ Graph.get_dsts g x) (c :: l) →
(∀ x, x ∈ c :: l → chained g x) →
last (c :: l) = Some z → c ∈ Graph.get_dsts g z → False.
Proof.
intros Hchain Hch Hlast Hc. apply (no_cycle (c :: l)).
split; [done|]. split; [done|]. simpl. rewrite take_0.
change (chain (λ x y, y ∈ Graph.get_dsts g x) ((c :: l) ++ [c])).
by eapply chain_snoc.
Qed.

Lemma backward_open c l z :
chain (λ x y, y ∈ Graph.get_srcs g x) (c :: l) →
(∀ x, x ∈ c :: l → chained g x) →
last (c :: l) = Some z → c ∈ Graph.get_srcs g z → False.
Proof.
intros Hchain Hch Hlast Hc. apply (no_cycle (reverse (c :: l))).
destruct (exists_last (l:=c :: l)) as (l0 & z' & El); [done|].
rewrite El in *. rewrite last_snoc in Hlast. injection Hlast as ->.
rewrite reverse_snoc. split; [done|]. split.
- intros n Hn. apply Hch. rewrite <- reverse_snoc in Hn.
  by apply elem_of_reverse.
- simpl. rewrite take_0.
  change (chain (λ x y, y ∈ Graph.get_dsts g x) ((z :: reverse l0) ++ [z])).
  eapply (chain_snoc _ _ c).
  + rewrite <- reverse_snoc.
    eapply chain_impl; [|apply chain_reverse, Hchain].
    intros x y Hxy. unfold flip in Hxy. by apply sym.
  + rewrite <- reverse_snoc, <- El, reverse_cons. apply last_snoc.
  + by apply sym.
Qed.
End termination.

Section grouping_ends.
Variable g : Graph.t.
Hypothesis keys : keys_are_names g.
Hypothesis sym : symmetric g.
Hypothesis no_cycle : ∀ cyc, ¬ chained_cycle g cyc.

Lemma chain_walk_from_node step node group visited :
(∀ c l z, chain (λ x y, y ∈ step g x) (c :: l) →
          (∀ x, x ∈ c :: l → chained g x) →
          last (c :: l) = Some z → c ∈ step g z → False) →
chained g (name node) →
∃ r, r ≠ OutOfFuel ∧
     ∀ fuel, bound g < fuel →
             PowerModel.chain_walk fuel g step node group visited = r.
Proof.
intros Hopen Hch.
destruct (chain_walk_total g keys step (bound g + 1) Hopen [name node] node
            group visited) as (r & Hr & Hrun).
- constructor.
- apply NoDup_singleton.
- intros x Hx. by apply list_elem_of_singleton in Hx as ->.
- done.
- simpl. lia.
- exists r. split; [done|]. intros fuel Hf. apply Hrun. simpl. lia.
Qed.

Lemma group_node_total st n :
∃ r, r ≠ OutOfFuel ∧
     ∀ fuel, bound g < fuel → PowerModel.group_node fuel g st n = r.
Proof.
destruct st as [[groups visited] count]. unfold PowerModel.group_node.
case_decide; [by exists (Returns (groups, visited, count))|].
destruct (Graph.get_node g n) as [node|e|] eqn:En.
3:{ unfold Graph.get_node in En. by destruct (Graph.assoc n (Graph.nodes g)). }
2:{ by exists (Raises e). }
simpl. destruct (PowerModel.is_singly_chained g node) eqn:Ec;
  [|by exists (Returns (groups, visited ++ [n], count))].
assert (chained g (name node)) as Hch.
{ rewrite (keys _ _ En). by apply (is_singly_chained_spec g n node). }
destruct (chain_walk_from_node Graph.get_dsts node [n] (visited ++ [n]))
  as (r1 & Hr1 & Hrun1); [apply (forward_open g no_cycle)|done|].
destruct r1 as [[grp1 vis1]|e|]; [|exists (Raises e)|done].
2:{ split; [done|]. intros fuel Hf. by rewrite Hrun1. }
destruct (chain_walk_from_node Graph.get_srcs node grp1 vis1)
  as (r2 & Hr2 & Hrun2); [apply (backward_open g sym no_cycle)|done|].
destruct r2 as [[grp2 vis2]|e|]; [|exists (Raises e)|done].
- exists (Returns (groups ++ [(count, grp2)], vis2, S count)).
  split; [done|]. intros fuel Hf. rewrite Hrun1 by done. simpl.
  by rewrite Hrun2.
- split; [done|]. intros fuel Hf. rewrite Hrun1 by done. simpl.
  by rewrite Hrun2.
Qed.

Lemma group_each_total nodes st :
∃ r, r ≠ OutOfFuel ∧
     ∀ fuel, bound g < fuel → PowerModel.group_each fuel g st nodes = r.
Proof.
revert st. induction nodes as [|n nodes IH]; intros st; simpl.
{ by exists (Returns st). }
destruct (group_node_total st n) as (r1 & Hr1 & Hrun1).
destruct r1 as [st1|e|]; [|exists (Raises e)|done].
- destruct (IH st1) as (r & Hr & Hrun). exists r. split; [done|].
  intros fuel Hf. rewrite Hrun1 by done. simpl. by apply Hrun.
- split; [done|]. intros fuel Hf. by rewrite Hrun1.
Qed.
End grouping_ends.

(** X12. [group_nodes] on graphs without a cycle of singly chained nodes:
    when the adjacency mappings mirror each other and the nodes are filed
    under their names, both searches of every chain end, after at most as
    many steps as there are nodes with successors; [group_nodes] then ends
    with a result (its groups, or the exception of [reduce] or of the final
    assertion) that no longer depends on the number of steps allowed. *)
Theorem group_nodes_terminates enum (g : Graph.t) :
  keys_are_names g → symmetric g →
  (∀ cyc, ¬ chained_cycle g cyc) →
  ∃ r, r ≠ OutOfFuel ∧
       ∀ fuel, size (dom (Graph.dsts_adjlist g)) < fuel →
               PowerModel.group_nodes enum fuel g = r.
Proof.
  intros Hkeys Hsym Hno.
  destruct (group_each_total g Hkeys Hsym Hno (Graph.all_nodes g) ([], [], 1))
    as (r & Hr & Hrun).
  unfold PowerModel.group_nodes.
  destruct r as [[[groups visited] count]|e|]; [|exists (Raises e)|done].
  - destruct (PowerModel.all_grouped groups) as [grouped|e|] eqn:Eg.
    + eexists. split; [|intros fuel Hf; rewrite (Hrun fuel Hf); simpl;
                        rewrite Eg; simpl; reflexivity].
      by case_decide.
    + exists (Raises e). split; [done|]. intros fuel Hf.
      rewrite (Hrun fuel Hf). simpl. by rewrite Eg.
    + unfold PowerModel.all_grouped in Eg. by destruct (groups.*2).
  - split; [done|]. intros fuel Hf. by rewrite (Hrun fuel Hf).
Qed.

Lemma chain_rank (R : string → string → Prop) (rank : string → nat) a l z :
  (∀ x y, x ∈ a :: l → R x y → rank x < rank y) →
  chain R (a :: l ++ [z]) → rank a < rank z.
Proof.
  revert a. induction l as [|b l IH]; intros a Hinc Hc; simpl in *.
  - inversion Hc; subst. apply Hinc; [left|done].
  - inversion Hc as [| |? ? ? Hab Hrest]; subst.
    etrans; [apply (Hinc a b); [left|done]|].
    apply IH; [|done]. intros x y Hx. apply Hinc. by right.
Qed.

(** A rank that grows along the edges between singly chained nodes rules
    out a cycle of them. *)
Lemma ranked_no_cycle g (rank : string → nat) :
  (∀ x y, y ∈ Graph.get_dsts g x → chained g x → rank x < rank y) →
  ∀ cyc, ¬ chained_cycle g cyc.
Proof.
  intros Hrank cyc (Hne & Hch & Hchain).
  destruct cyc as [|a l]; [done|]. simpl in Hchain. rewrite take_0 in Hchain.
  enough (rank a < rank a) by lia.
  apply (chain_rank (λ x y, y ∈ Graph.get_dsts g x) rank a l a); [|done].
  intros x y Hx Hxy. apply Hrank; [done|]. by apply Hch.
Qed.

Definition rank_iabo (n : string) : nat :=
  if decide (n = "i") then 0 else
  if decide (n = "a") then 1 else
  if decide (n = "b") then 2 else 3.

Lemma chain_graph_reachable : Graph.reachable chain_graph.
Proof.
  do 3 apply Graph.reach_connect.
  apply (Graph.reach_add_node
           (Graph.mk [("i", Node_init "i" mul ""); ("a", Node_init "a" mul "");
                      ("b", Node_init "b" mul "")] ∅ ∅ [] "graph.json")
           (Node_init "o" mul "")); [|reflexivity].
  apply (Graph.reach_add_node
           (Graph.mk [("i", Node_init "i" mul ""); ("a", Node_init "a" mul "")]
                     ∅ ∅ [] "graph.json") (Node_init "b" mul ""));
    [|reflexivity].
  apply (Graph.reach_add_node
           (Graph.mk [("i", Node_init "i" mul "")] ∅ ∅ [] "graph.json")
           (Node_init "a" mul "")); [|reflexivity].
  apply (Graph.reach_add_node Graph.init (Node_init "i" mul ""));
    [constructor|reflexivity].
Qed.

Lemma group_nodes_terminates_witness :
  ∃ r, r ≠ OutOfFuel ∧
       ∀ fuel, 3 < fuel → PowerModel.group_nodes elements fuel chain_graph = r.
Proof.
  apply (group_nodes_terminates elements chain_graph).
  - apply keys_are_names_forall. by_compute.
  - apply reachable_symmetric, chain_graph_reachable.
  - apply (ranked_no_cycle chain_graph rank_iabo).
    apply (dsts_forall chain_graph
             (λ x y, chained chain_graph x → rank_iabo x < rank_iabo y)).
    unfold chained. by_compute.
Defined.

(** * Setting voltages *)

Lemma assoc_update_eq k f (l : list (string * Node)) :
  Graph.assoc k (PowerModel.update k f l) = f <$> Graph.assoc k l.
Proof.
  induction l as [|[k' n] l IH]; simpl; [done|].
  destruct (decide (k = k')) as [->|Hne]; simpl.
  - by rewrite decide_True.
  - by rewrite decide_False.
Qed.

Lemma assoc_update_ne k k' f (l : list (string * Node)) :
  k' ≠ k → Graph.assoc k' (PowerModel.update k f l) = Graph.assoc k' l.
Proof.
  intros Hne. induction l as [|[k0 n] l IH]; simpl; [done|].
  destruct (decide (k = k0)) as [->|Hne0]; simpl.
  - by rewrite !decide_False.
  - case_decide; [done|apply IH].
Qed.

Lemma update_keys k f (l : list (string * Node)) :
  (PowerModel.update k f l).*1 = l.*1.
Proof.
  induction l as [|[k0 n] l IH]; simpl; [done|].
  case_decide; rewrite !fmap_cons; simpl; [done|by f_equal].
Qed.

Lemma get_node_update_eq g k f n :
  Graph.get_node g k = Returns n →
  Graph.get_node (PowerModel.update_node g k f) k = Returns (f n).
Proof.
  unfold Graph.get_node. simpl. rewrite assoc_update_eq.
  destruct (Graph.assoc k (Graph.nodes g)); simpl; congruence.
Qed.

Lemma get_node_update_ne g k k' f :
  k' ≠ k →
  Graph.get_node (PowerModel.update_node g k f) k' = Graph.get_node g k'.
Proof.
  intros Hne. unfold Graph.get_node. simpl. by rewrite assoc_update_ne.
Qed.

(** [T] knows the three voltages of [conf_dvfs] and no other. *)
Lemma T_spec v :
  (∃ m, (v == conf_dvfs_V m)%Q ∧ PowerModel.T v = Returns (conf_dvfs_T m)) ∨
  ((∀ m, ¬ (v == conf_dvfs_V m)%Q) ∧ PowerModel.T v = Raises AssertionError).
Proof.
  unfold PowerModel.T.
  destruct (Qeq_bool v (conf_dvfs_V nominal)) eqn:E1;
    [left; exists nominal; by apply Qeq_bool_iff in E1|].
  destruct (Qeq_bool v (conf_dvfs_V fast)) eqn:E2;
    [left; exists fast; by apply Qeq_bool_iff in E2|].
  destruct (Qeq_bool v (conf_dvfs_V slow)) eqn:E3;
    [left; exists slow; by apply Qeq_bool_iff in E3|].
  right. split; [|done]. intros m Hm. apply Qeq_bool_iff in Hm.
  destruct m; congruence.
Qed.

(** X13. [set_V_node] sets the voltage before it looks up the cycle time:
    with one of the three voltages of [conf_dvfs] the node gets the
    voltage and the cycle time of that mode; with any other voltage the
    call raises [AssertionError] and leaves the node with the new voltage
    and its old cycle time. The other nodes are not touched. *)
Theorem set_V_node_half_update (g : Graph.t) (node_name : string)
    (node : Node) (v : Q) :
  Graph.get_node g node_name = Returns node →
  ∃ g',
    (∀ k, k ≠ node_name → Graph.get_node g' k = Graph.get_node g k) ∧
    ((∃ m, (v == conf_dvfs_V m)%Q ∧
           PowerModel.set_V_node g node_name v = (g', Returns tt) ∧
           Graph.get_node g' node_name
             = Returns (set_T (set_V node v) (conf_dvfs_T m))) ∨
     ((∀ m, ¬ (v == conf_dvfs_V m)%Q) ∧
      PowerModel.set_V_node g node_name v = (g', Raises AssertionError) ∧
      Graph.get_node g' node_name = Returns (set_V node v) ∧
      T (set_V node v) = T node)).
Proof.
  intros Hnode. unfold PowerModel.set_V_node. rewrite Hnode.
  destruct (T_spec v) as [(m & Hm & ->)|(Hno & ->)].
  - eexists. split; [|left; exists m; split; [done|]; split; [reflexivity|]].
    + intros k Hk. by rewrite !get_node_update_ne.
    + apply (get_node_update_eq _ _ (λ n, set_T n (conf_dvfs_T m))).
      by apply (get_node_update_eq _ _ (λ n, set_V n v)).
  - eexists. split; [|right; split; [done|]; split; [reflexivity|]].
    + intros k Hk. by rewrite get_node_update_ne.
    + split; [|done]. by apply (get_node_update_eq _ _ (λ n, set_V n v)).
Qed.

Lemma set_V_node_half_update_witness :
  ∃ g', PowerModel.set_V_node mul_add_graph "m" 1%Q
        = (g', Raises AssertionError) ∧
        Graph.get_node g' "m"
        = Returns (mkNode "m" mul "mul" 1%Q 1%Q).
Proof.
  destruct (set_V_node_half_update mul_add_graph "m"
              (Node_init "m" mul "mul") 1%Q eq_refl)
    as (g' & _ & [(m & Hm & _)|(_ & H1 & H2 & _)]).
  - exfalso. destruct m; vm_compute in Hm; discriminate.
  - exists g'. split; [exact H1|exact H2].
Defined.

Lemma set_V_node_returns g k v g' :
  PowerModel.set_V_node g k v = (g', Returns tt) →
  ∃ node m, Graph.get_node g k = Returns node ∧ (v == conf_dvfs_V m)%Q ∧
            Graph.get_node g' k
              = Returns (set_T (set_V node v) (conf_dvfs_T m)) ∧
            Graph.all_nodes g' = Graph.all_nodes g ∧
            ∀ k', k' ≠ k → Graph.get_node g' k' = Graph.get_node g k'.
Proof.
  unfold PowerModel.set_V_node.
  destruct (Graph.get_node g k) as [node|e|] eqn:En; [|done|done].
  destruct (T_spec v) as [(m & Hm & ->)|(Hno & ->)]; [|done].
  intros [= <-]. exists node, m. split; [done|]. split; [done|]. split; [|split].
  - apply (get_node_update_eq _ _ (λ n, set_T n (conf_dvfs_T m))).
    by apply (get_node_update_eq _ _ (λ n, set_V n v)).
  - unfold Graph.all_nodes. simpl. by rewrite !update_keys.
  - intros k' Hk'. by rewrite !get_node_update_ne.
Qed.

(** X14. [set_V_range] keeps voltage and cycle time together: when it
    returns, the node table has the same names, every node named in
    [V_range] has one of the three voltages of [conf_dvfs] together with
    the cycle time of that mode, and every other node is as it was. *)
Theorem set_V_range_consistent (g g' : Graph.t) (V_range : list (string * Q)) :
  PowerModel.set_V_range g V_range = (g', Returns tt) →
  Graph.all_nodes g' = Graph.all_nodes g ∧
  (∀ n, n ∉ V_range.*1 → Graph.get_node g' n = Graph.get_node g n) ∧
  (∀ n, n ∈ V_range.*1 →
        ∃ node m, Graph.get_node g' n = Returns node ∧
                  (V node == conf_dvfs_V m)%Q ∧ T node = conf_dvfs_T m).
Proof.
  revert g. induction V_range as [|[k v] rest IH]; intros g H; simpl in H.
  - injection H as <-. split; [done|]. split; [done|].
    intros n Hn. by apply elem_of_nil in Hn.
  - destruct (PowerModel.set_V_node g k v) as [g1 [[]|e|]] eqn:E1;
      try (by injection H).
    apply set_V_node_returns in E1 as (node & m & Hnode & Hm & Hg1 & Hall & Hoth).
    destruct (IH _ H) as (Hall' & Hout & Hin).
    split; [by rewrite Hall'|]. split.
    + intros n Hn. rewrite fmap_cons, not_elem_of_cons in Hn.
      destruct Hn as [Hnk Hn]. rewrite (Hout n Hn). by apply Hoth.
    + intros n Hn. destruct (decide (n ∈ rest.*1)) as [Hr|Hr]; [by apply Hin|].
      rewrite fmap_cons in Hn. simpl in Hn.
      apply elem_of_cons in Hn as [->|Hn]; [|done].
      rewrite (Hout _ Hr), Hg1. eexists _, m. split; [done|]. by split.
Qed.

Lemma set_V_range_consistent_witness :
  ∃ g', PowerModel.set_V_range mul_add_graph
          [("m", (123 # 100)%Q); ("a", (61 # 100)%Q)] = (g', Returns tt) ∧
        ∃ node m, Graph.get_node g' "a" = Returns node ∧
                  (V node == conf_dvfs_V m)%Q ∧ T node = conf_dvfs_T m.
Proof.
  eexists. split; [vm_compute; reflexivity|].
  eapply (set_V_range_consistent mul_add_graph _
            [("m", (123 # 100)%Q); ("a", (61 # 100)%Q)]).
  - vm_compute. reflexivity.
  - right. left.
Defined.

(** * The priority queue of the simulator *)

Lemma mapM_returns {A B} (f : A → outcome B) (l : list A) (l' : list B) :
  mapM f l = Returns l' → Forall2 (λ x y, f x = Returns y) l l'.
Proof.
  revert l'. induction l as [|x l IH]; intros l' H; simpl in H.
  - injection H as <-. constructor.
  - destruct (f x) as [y| |] eqn:Ey; try done. simpl in H.
    destruct (mapM f l) as [k| |]; try done. simpl in H.
    injection H as <-. constructor; [done|by apply IH].
Qed.

(** [==] is an equivalence on the times [valid], and [<] a strict order
    that does not tell equal times apart and decides between any two
    times that are not equal. *)
Record weak_order {time : Type} (valid : time → Prop)
    (lt eq : time → time → bool) : Prop := {
  wo_eq_refl : ∀ a, valid a → eq a a = true;
  wo_eq_sym : ∀ a b, valid a → valid b → eq a b = true → eq b a = true;
  wo_eq_trans : ∀ a b c, valid a → valid b → valid c →
                  eq a b = true → eq b c = true → eq a c = true;
  wo_lt_irrefl : ∀ a b, valid a → valid b → eq a b = true → lt a b = false;
  wo_lt_trans : ∀ a b c, valid a → valid b → valid c →
                  lt a b = true → lt b c = true → lt a c = true;
  wo_lt_eq_l : ∀ a a' b, valid a → valid a' → valid b →
                 eq a a' = true → lt a b = lt a' b;
  wo_lt_eq_r : ∀ a b b', valid a → valid b → valid b' →
                 eq b b' = true → lt a b = lt a b';
  wo_total : ∀ a b, valid a → valid b →
               eq a b = true ∨ lt a b = true ∨ lt b a = true;
}.

Lemma Qle_bool_false (p q : Q) : Qle_bool p q = false → (q < p)%Q.
Proof.
  intros H. apply Qnot_le_lt. intros Hle. apply Qle_bool_iff in Hle. congruence.
Qed.

Ltac to_Q :=
  repeat match goal with
  | H : negb _ = true |- _ => apply negb_true_iff in H
  | H : negb _ = false |- _ => apply negb_false_iff in H
  | H : Qle_bool _ _ = true |- _ => apply Qle_bool_iff in H
  | H : Qle_bool _ _ = false |- _ => apply Qle_bool_false in H
  | H : Qeq_bool _ _ = true |- _ => apply Qeq_bool_iff in H
  | H : Qeq_bool _ _ = false |- _ => apply Qeq_bool_neq in H
  end.

Ltac decide_Q :=
  simpl in *; try done;
  repeat match goal with
  | |- context [Qle_bool ?p ?q] => destruct (Qle_bool p q) eqn:?
  | |- context [Qeq_bool ?p ?q] => destruct (Qeq_bool p q) eqn:?
  end;
  simpl; try done; to_Q; try (exfalso; lra); auto.

Lemma value_weak_order :
  weak_order (λ _ : Simulator.value, True) Simulator.value_lt Simulator.value_eq.
Proof.
  split.
  - intros [] _; decide_Q.
  - intros [] [] _ _ H; decide_Q.
  - intros [] [] [] _ _ _ H1 H2; decide_Q.
  - intros [] [] _ _ H; decide_Q.
  - intros [] [] [] _ _ _ H1 H2; decide_Q.
  - intros [] [] [] _ _ _ H; decide_Q.
  - intros [] [] [] _ _ _ H; decide_Q.
  - intros [] [] _ _; decide_Q.
Qed.

(** The numbers that are not a NaN. *)
Lemma number_weak_order :
  weak_order (λ a, is_Some (Simulator.value_of a)) Simulator.lt Simulator.eq.
Proof.
  destruct value_weak_order as [R S T I L EL ER O].
  unfold Simulator.lt, Simulator.eq.
  split.
  - intros a [x ->]. by apply R.
  - intros a b [x ->] [y ->]. by apply S.
  - intros a b c [x ->] [y ->] [z ->]. by apply T.
  - intros a b [x ->] [y ->]. by apply I.
  - intros a b c [x ->] [y ->] [z ->]. by apply L.
  - intros a a' b [x ->] [y ->] [z ->]. by apply EL.
  - intros a b b' [x ->] [y ->] [z ->]. by apply ER.
  - intros a b [x ->] [y ->]. by apply O.
Qed.

Section queue_order.
Context {time : Type}.
Variable valid : time → Prop.
Variable lt : time → time → bool.
Variable eq : time → time → bool.
Hypothesis order : weak_order valid lt eq.

#[local] Abbreviation entry := ((time * nat) * (time * string))%type.
#[local] Abbreviation klt := (Simulator.PriorityQueue.key_lt lt eq).
#[local] Abbreviation valid_entry := (λ e : entry, valid e.1.1).

(** [a] is not below [b]. *)
Lemma key_ge_spec (a b : time * nat) :
valid a.1 → valid b.1 →
klt a b = false ↔ lt b.1 a.1 = true ∨ (eq a.1 b.1 = true ∧ b.2 ≤ a.2).
Proof.
intros Ha Hb. destruct order as [R S T I L EL ER O].
unfold Simulator.PriorityQueue.key_lt.
destruct (eq a.1 b.1) eqn:E.
- rewrite Nat.ltb_ge. split; [auto|].
  intros [H|[_ H]]; [|done]. rewrite (I b.1 a.1) in H by auto. done.
- split.
  + intros Hlt. left. destruct (O a.1 b.1) as [?|[?|?]]; congruence.
  + intros [H|[H _]]; [|done].
    destruct (lt a.1 b.1) eqn:Hab; [|done].
    pose proof (L _ _ _ Hb Ha Hb H Hab) as Hbb.
    rewrite (I b.1 b.1) in Hbb by auto. done.
Qed.

Lemma key_ge_trans (a b c : time * nat) :
valid a.1 → valid b.1 → valid c.1 →
klt a b = false → klt b c = false → klt a c = false.
Proof.
intros Ha Hb Hc. rewrite !key_ge_spec by done.
destruct order as [R S T I L EL ER O].
intros [H1|[H1 H1']] [H2|[H2 H2']].
- left. by apply (L c.1 b.1 a.1).
- left. by rewrite <- (EL b.1 c.1 a.1).
- left. by rewrite (ER c.1 a.1 b.1).
- right. split; [by apply (T a.1 b.1 c.1)|lia].
Qed.

Lemma key_ge_refl (a : time * nat) : valid a.1 → klt a a = false.
Proof.
intros Ha. apply key_ge_spec; [done|done|]. right.
split; [by apply (wo_eq_refl _ _ _ order)|lia].
Qed.

Lemma key_lt_ge (a b : time * nat) :
valid a.1 → valid b.1 → klt a b = true → klt b a = false.
Proof.
intros Ha Hb Hab. apply key_ge_spec; [done|done|].
unfold Simulator.PriorityQueue.key_lt in Hab.
destruct (eq a.1 b.1) eqn:E; [|by left].
right. apply Nat.ltb_lt in Hab.
split; [by apply (wo_eq_sym _ _ _ order)|lia].
Qed.

(** The greatest key comes first. *)
Fixpoint descending (l : list entry) : Prop :=
match l with
| [] => True
| x :: l' => Forall (λ y, klt x.1 y.1 = false) l' ∧ descending l'
end.

Lemma insert_perm (x : entry) l :
Simulator.PriorityQueue.insert lt eq x l ≡ₚ x :: l.
Proof.
induction l as [|y l IH]; simpl; [done|].
destruct (klt x.1 y.1); [|done]. rewrite IH. apply Permutation_swap.
Qed.

Lemma insert_descending (x : entry) l :
valid_entry x → Forall valid_entry l →
descending l → descending (Simulator.PriorityQueue.insert lt eq x l).
Proof.
intros Hx. induction l as [|y l IH]; simpl; intros Hv Hd.
- split; [constructor|done].
- apply Forall_cons in Hv as [Hvy Hv].
  destruct Hd as [Hy Hl]. destruct (klt x.1 y.1) eqn:E; simpl.
  + split; [|by apply IH]. rewrite Forall_forall in *. intros z Hz.
    rewrite insert_perm in Hz. apply elem_of_cons in Hz as [->|Hz].
    * by apply key_lt_ge.
    * by apply Hy.
  + split; [|done]. constructor; [done|].
    rewrite Forall_forall in *. intros z Hz.
    apply (key_ge_trans x.1 y.1 z.1); auto.
Qed.

Lemma sorted_reverse_spec (l : list entry) :
Forall valid_entry l →
descending (Simulator.PriorityQueue.sorted_reverse lt eq l) ∧
Simulator.PriorityQueue.sorted_reverse lt eq l ≡ₚ l.
Proof.
induction l as [|x l IH]; simpl; intros Hv.
- split; [done|done].
- apply Forall_cons in Hv as [Hx Hv]. destruct (IH Hv) as [IH1 IH2].
  split; [|by rewrite insert_perm, IH2].
  apply insert_descending; [done|by rewrite IH2|done].
Qed.

Lemma descending_last (l : list entry) x :
Forall valid_entry l →
descending l → last l = Some x → ∀ y, y ∈ l → klt y.1 x.1 = false.
Proof.
induction l as [|z l IH]; [done|]. intros Hv [Hz Hl] Hlast y Hy.
apply Forall_cons in Hv as [Hvz Hv].
destruct l as [|z' l'].
- simpl in Hlast. injection Hlast as <-.
  apply list_elem_of_singleton in Hy as ->. by apply key_ge_refl.
- assert (last (z' :: l') = Some x) as Hlast' by done.
  apply elem_of_cons in Hy as [->|Hy]; [|by apply IH].
  rewrite Forall_forall in Hz. apply Hz.
  apply list_elem_of_lookup. exists (length l').
  rewrite last_lookup in Hlast'. exact Hlast'.
Qed.
End queue_order.

Lemma last_removelast {A} (l : list A) x :
  last l = Some x → l = removelast l ++ [x].
Proof.
  induction l as [|a l IH]; [done|]. destruct l as [|b l].
  - simpl. by intros [= ->].
  - intros H. change (a :: b :: l = a :: (removelast (b :: l) ++ [x])).
    f_equal. by apply IH.
Qed.


(** X15. The scheduler's queue pops the least entry: after [add], the
    container holds the entries it held and the new one, and [pop] returns
    and removes an entry whose key, its time and then the position of its
    name in [order], is below or equal to the key of every entry queued;
    at equal times the node that stands first in [order] is popped first.
    This holds whenever [==] is an equivalence on the times queued and [<]
    a strict order on them that does not tell equal times apart, as the
    ints and the floats other than NaN are with Python's comparisons, where
    the int 2 equals the float 2.0. *)
Theorem priority_queue_pops_least {time : Type} (valid : time → Prop)
    (lt eq : time → time → bool)
    (s s' : Simulator.PriorityQueue.t) (time_ : time) (name_ : string) :
  weak_order valid lt eq →
  valid time_ →
  Forall (λ x, valid x.1) (Simulator.PriorityQueue.container s) →
  Simulator.PriorityQueue.add lt eq s time_ name_ = Returns s' →
  Simulator.PriorityQueue.order s' = Simulator.PriorityQueue.order s ∧
  Simulator.PriorityQueue.container s'
    ≡ₚ Simulator.PriorityQueue.container s ++ [(time_, name_)] ∧
  ∃ x s'',
    Simulator.PriorityQueue.pop s' = Returns (x, s'') ∧
    Simulator.PriorityQueue.container s'
      = Simulator.PriorityQueue.container s'' ++ [x] ∧
    ∀ y, y ∈ Simulator.PriorityQueue.container s' →
      ∃ kx ky, Simulator.PriorityQueue.key s x = Returns kx ∧
               Simulator.PriorityQueue.key s y = Returns ky ∧
               Simulator.PriorityQueue.key_lt lt eq ky kx = false.
Proof.
  intros Hord Hnew Hold. unfold Simulator.PriorityQueue.add.
  set (appended := Simulator.PriorityQueue.container s ++ [(time_, name_)]).
  assert (Forall (λ x, valid x.1) appended) as Hvalid.
  { apply Forall_app. split; [done|]. by repeat constructor. }
  destruct (mapM _ appended) as [keyed| |] eqn:Hm; try done.
  simpl. intros [= <-]. simpl.
  apply mapM_returns in Hm.
  assert (snd <$> keyed = appended ∧
          Forall (λ e, Simulator.PriorityQueue.key s e.2 = Returns e.1) keyed ∧
          Forall (λ e, valid e.1.1) keyed)
    as (Hsnd & Hkeys & Hvk).
  { clear -Hm Hvalid.
    induction Hm as [|x y l l' Hxy _ IH]; [by repeat split|].
    apply Forall_cons in Hvalid as [Hx Hvalid].
    destruct (IH Hvalid) as (IH1 & IH2 & IH3).
    unfold Simulator.PriorityQueue.key in Hxy.
    destruct (Simulator.PriorityQueue.index x.2 _) as [i| |] eqn:Ei; try done.
    simpl in Hxy. injection Hxy as <-. rewrite fmap_cons. simpl.
    split; [by f_equal|]. split; constructor; try done.
    simpl. unfold Simulator.PriorityQueue.key. by rewrite Ei. }
  destruct (sorted_reverse_spec valid lt eq Hord keyed Hvk) as [Hdesc Hperm].
  set (sorted := Simulator.PriorityQueue.sorted_reverse lt eq keyed) in *.
  split; [done|]. split; [by rewrite Hperm, Hsnd|].
  destruct (last sorted) as [e|] eqn:Hlast.
  2:{ apply last_None in Hlast. rewrite Hlast in Hperm.
      apply Permutation_nil_l in Hperm. subst keyed.
      subst appended. by destruct (Simulator.PriorityQueue.container s). }
  assert (last (snd <$> sorted) = Some e.2) as Hlast'
    by (by rewrite fmap_last, Hlast).
  exists e.2. eexists. unfold Simulator.PriorityQueue.pop. simpl.
  rewrite Hlast'. split; [reflexivity|]. simpl.
  split; [by apply last_removelast|].
  intros y (e' & -> & He')%list_elem_of_fmap.
  exists e.1, e'.1. rewrite Forall_forall in Hkeys. split; [|split].
  - apply Hkeys. rewrite <- Hperm. apply list_elem_of_lookup.
    exists (pred (length sorted)). by rewrite <- last_lookup.
  - apply Hkeys. by rewrite <- Hperm.
  - apply (descending_last valid lt eq Hord sorted e); try done.
    by rewrite Hperm.
Qed.

(** A sprinting node whose time was rounded to the int 2 and a nominal
    node at the float 2.0: the times are equal, and the node that stands
    first in [order] is popped. *)
Lemma priority_queue_pops_least_witness :
  ∃ x s'',
    Simulator.PriorityQueue.pop
      (Simulator.PriorityQueue.mk ["fast"; "nominal"]
         [(Simulator.NFloat 3, "nominal"); (Simulator.NFloat 2, "nominal");
          (Simulator.NInt 2, "fast")])
      = Returns (x, s'') ∧ x = (Simulator.NInt 2, "fast").
Proof.
  destruct (priority_queue_pops_least
              (λ a, is_Some (Simulator.value_of a)) Simulator.lt Simulator.eq
              (Simulator.PriorityQueue.mk ["fast"; "nominal"]
                 [(Simulator.NFloat 3, "nominal"); (Simulator.NInt 2, "fast")])
              (Simulator.PriorityQueue.mk ["fast"; "nominal"]
                 [(Simulator.NFloat 3, "nominal");
                  (Simulator.NFloat 2, "nominal");
                  (Simulator.NInt 2, "fast")])
              (Simulator.NFloat 2) "nominal")
    as (_ & _ & x & s'' & Hpop & _).
  - exact number_weak_order.
  - vm_compute. eauto.
  - repeat constructor; vm_compute; eauto.
  - vm_compute. reflexivity.
  - exists x, s''. split; [exact Hpop|].
    vm_compute in Hpop. by injection Hpop as <- _.
Defined.

(** * Importing a configuration *)

(** One step in direction [d] on the array: north is up the [y] axis and
    east up the [x] axis. *)
Definition step (d : string) : option (Z * Z) :=
  if decide (d = "N") then Some (0, 1)%Z
  else if decide (d = "E") then Some (1, 0)%Z
  else if decide (d = "S") then Some (0, -1)%Z
  else if decide (d = "W") then Some (-1, 0)%Z
  else None.

(** X16. Neighbours point back: for a tile [(xi, yi)] inside the array
    and a direction [d] among N, E, S and W that steps by [(dx, dy)],
    [get_srcdst_name] gives what [get_name] gives for the tile
    [(xi + dx, yi + dy)], its name or [False] when the step leaves the
    array; [reverse_direction] gives the direction of the opposite step and
    is its own inverse on [d]; and from the tile [(xi + dx, yi + dy)] the
    reverse direction names the tile one started from. *)
Theorem neighbours_point_back (xdim ydim xi yi dx dy : Z) (d name_ : string) :
  configure_json.get_name xdim ydim xi yi = Some name_ →
  step d = Some (dx, dy) →
  configure_json.get_srcdst_name xdim ydim xi yi d
    = Returns (configure_json.get_name xdim ydim (xi + dx) (yi + dy)) ∧
  ∃ d',
    configure_json.reverse_direction d = Returns d' ∧
    configure_json.reverse_direction d' = Returns d ∧
    step d' = Some (- dx, - dy)%Z ∧
    configure_json.get_srcdst_name xdim ydim (xi + dx) (yi + dy) d'
      = Returns (Some name_).
Proof.
  intros Hname Hd. unfold step in Hd.
  assert (∀ a b, a = xi → b = yi →
            Returns (configure_json.get_name xdim ydim a b)
            = Returns (Some name_)) as Hback
    by (by intros a b -> ->; rewrite Hname).
  repeat case_decide; try discriminate; subst d; injection Hd as <- <-;
    (split; [unfold configure_json.get_srcdst_name; simpl;
             by rewrite ?Z.add_0_r|]).
  - exists "S". repeat split. apply Hback; lia.
  - exists "W". repeat split. apply Hback; lia.
  - exists "N". repeat split. apply Hback; lia.
  - exists "E". repeat split. apply Hback; lia.
Qed.

Lemma neighbours_point_back_witness :
  configure_json.get_srcdst_name 8 8 3 7 "N" = Returns None ∧
  configure_json.get_srcdst_name 8 8 3 7 "E" = Returns (Some "x4_y7") ∧
  configure_json.get_srcdst_name 8 8 4 7 "W" = Returns (Some "x3_y7").
Proof.
  destruct (neighbours_point_back 8 8 3 7 0 1 "N" "x3_y7") as (HN & _);
    [reflexivity|reflexivity|].
  destruct (neighbours_point_back 8 8 3 7 1 0 "E" "x3_y7")
    as (HE & d' & Hd' & _ & _ & Hback); [reflexivity|reflexivity|].
  injection Hd' as <-.
  split; [exact HN|]. split; [exact HE|exact Hback].
Defined.

Lemma filter_all {A} (P : A → Prop) `{∀ x, Decision (P x)} (l : list A) :
  (∀ x, x ∈ l → P x) → filter P l = l.
Proof.
  induction l as [|a l IH]; [done|]. intros Hl.
  rewrite filter_cons, decide_True by (apply Hl; left).
  f_equal. apply IH. intros x Hx. apply Hl. by right.
Qed.

Lemma filter_ext_in {A} (P Q : A → Prop) `{∀ x, Decision (P x)}
    `{∀ x, Decision (Q x)} (l : list A) :
  (∀ x, x ∈ l → P x ↔ Q x) → filter P l = filter Q l.
Proof.
  induction l as [|a l IH]; [done|]. intros Hl. rewrite !filter_cons.
  assert (filter P l = filter Q l) as ->
    by (apply IH; intros x Hx; apply Hl; by right).
  destruct (decide (P a)) as [Hp|Hp], (decide (Q a)) as [Hq|Hq]; try done.
  - exfalso. apply Hq, (Hl a); [left|done].
  - exfalso. apply Hp, (Hl a); [left|done].
Qed.

Lemma filter_fst {A} (P : string → Prop) (Q : string * A → Prop)
    `{∀ x, Decision (P x)} `{∀ x, Decision (Q x)} (l : list (string * A)) :
  (∀ kv, Q kv ↔ P kv.1) → (filter Q l).*1 = filter P l.*1.
Proof.
  intros HPQ. induction l as [|[k a] l IH]; [done|].
  rewrite fmap_cons, !filter_cons. simpl.
  destruct (decide (Q (k, a))) as [Hq|Hq], (decide (P k)) as [Hp|Hp].
  - rewrite fmap_cons. simpl. by rewrite IH.
  - exfalso. by apply Hp, (HPQ (k, a)).
  - exfalso. by apply Hq, (HPQ (k, a)).
  - done.
Qed.

Lemma assoc_filter_keep {A} (D : list string) k (l : list (string * A)) :
  k ∉ D →
  Graph.assoc k (filter (λ kv, kv.1 ∉ D) l) = Graph.assoc k l.
Proof.
  intros Hk. induction l as [|[k0 a] l IH]; [done|].
  rewrite filter_cons. destruct (decide ((k0, a).1 ∉ D)) as [E|E]; simpl in *.
  - case_decide; [done|apply IH].
  - rewrite decide_False; [apply IH|]. intros ->. done.
Qed.

Lemma delete_nodes_spec g D :
  NoDup D → (∀ n, n ∈ D → n ∈ Graph.all_nodes g) →
  ∃ g', configure_json.delete_nodes g D = Returns g' ∧
        Graph.nodes g' = filter (λ kv, kv.1 ∉ D) (Graph.nodes g) ∧
        Graph.srcs_adjlist g' = Graph.srcs_adjlist g ∧
        Graph.dsts_adjlist g' = Graph.dsts_adjlist g.
Proof.
  revert g. induction D as [|n D IH]; intros g Hnd Hin; simpl.
  - exists g. split; [done|]. split; [|done].
    symmetry. apply filter_all. intros kv _ H. by apply elem_of_nil in H.
  - apply NoDup_cons in Hnd as [Hn Hnd]. unfold Graph.delete_node.
    rewrite decide_True by (apply Hin; left). simpl.
    destruct (IH (Graph.mk (filter (λ kv, kv.1 ≠ n) (Graph.nodes g))
                    (Graph.srcs_adjlist g) (Graph.dsts_adjlist g)
                    (Graph.recurrence_edges g) (Graph.json g)) Hnd)
      as (g' & Hrun & Hnodes & Hs & Hd).
    + intros m Hm. unfold Graph.all_nodes. simpl.
      assert (m ∈ Graph.all_nodes g) as Hmg by (apply Hin; by right).
      apply list_elem_of_fmap in Hmg as ([k a] & -> & Hka).
      apply list_elem_of_fmap. exists (k, a). split; [done|].
      apply list_elem_of_filter. split; [|done]. simpl. intros ->. done.
    + exists g'. split; [done|]. split; [|done]. rewrite Hnodes. simpl.
      rewrite list_filter_filter. apply list_filter_iff. intros [k a]. simpl.
      rewrite not_elem_of_cons. tauto.
Qed.

(** X17. The last step of [configure_json] removes exactly the isolated
    nodes: on a node table with distinct names it raises nothing, keeps, in
    order and unchanged, the nodes that have a predecessor or a successor,
    leaves every edge in place, and running it again changes nothing. *)
Theorem remove_orphans_spec (g : Graph.t) :
  NoDup (Graph.all_nodes g) →
  ∃ g', configure_json.remove_orphans g = Returns g' ∧
        Graph.all_nodes g'
          = filter (λ n, ¬ (Graph.get_srcs g n = ∅ ∧ Graph.get_dsts g n = ∅))
                   (Graph.all_nodes g) ∧
        (∀ n, Graph.get_srcs g' n = Graph.get_srcs g n ∧
              Graph.get_dsts g' n = Graph.get_dsts g n) ∧
        (∀ n, n ∈ Graph.all_nodes g' → Graph.get_node g' n = Graph.get_node g n) ∧
        configure_json.remove_orphans g' = Returns g'.
Proof.
  intros Hnd. unfold configure_json.remove_orphans.
  set (orphan := λ n, Graph.get_srcs g n = ∅ ∧ Graph.get_dsts g n = ∅).
  set (D := filter orphan (Graph.all_nodes g)).
  destruct (delete_nodes_spec g D) as (g' & Hrun & Hnodes & Hs & Hd).
  { by apply NoDup_filter. }
  { intros n Hn. by apply list_elem_of_filter in Hn as [_ Hn]. }
  assert (Graph.all_nodes g' = filter (λ n, ¬ orphan n) (Graph.all_nodes g))
    as Hall.
  { unfold Graph.all_nodes. rewrite Hnodes.
    trans (filter (λ k, k ∉ D) (Graph.nodes g).*1);
      [by apply filter_fst|].
    apply filter_ext_in.
    intros n Hn. subst D. rewrite list_elem_of_filter. tauto. }
  exists g'. split; [done|]. split; [done|].
  assert (∀ n, Graph.get_srcs g' n = Graph.get_srcs g n ∧
               Graph.get_dsts g' n = Graph.get_dsts g n) as Hedges.
  { intros n. unfold Graph.get_srcs, Graph.get_dsts. by rewrite Hs, Hd. }
  split; [done|]. split.
  - intros n Hn. rewrite Hall in Hn. apply list_elem_of_filter in Hn as [Hno Hn].
    unfold Graph.get_node. rewrite Hnodes, assoc_filter_keep; [done|].
    intros HD. apply list_elem_of_filter in HD as [HD _]. done.
  - assert (filter (λ n, Graph.get_srcs g' n = ∅ ∧ Graph.get_dsts g' n = ∅)
                   (Graph.all_nodes g') = []) as ->; [|done].
    apply filter_none. intros n Hn. rewrite Hall in Hn.
    apply list_elem_of_filter in Hn as [Hno _].
    destruct (Hedges n) as [-> ->]. done.
Qed.

(** [mul_add_graph] with a tile that nothing is connected to. *)
Definition with_idle_tile : Graph.t :=
  Graph.connect
    (Graph.mk [("m", Node_init "m" mul "mul"); ("z", Node_init "z" zero "nop");
               ("a", Node_init "a" alu "add")] ∅ ∅ [] "graph.json")
    "m" "a" false.

Lemma remove_orphans_spec_witness :
  ∃ g', configure_json.remove_orphans with_idle_tile = Returns g' ∧
        Graph.all_nodes g' = ["m"; "a"].
Proof.
  destruct (remove_orphans_spec with_idle_tile) as (g' & Hrun & Hall & _).
  - by_compute.
  - exists g'. split; [exact Hrun|]. rewrite Hall. vm_compute. reflexivity.
Defined.

(** * The clock of a sprinting node *)

(** The ticks, counted from 1, at which the time was rounded. *)
Definition snapped (trace : list (bool * Simulator.number)) : list nat :=
  (filter (λ p, p.2.1 = true) (zip (seq 1 (length trace)) trace)).*1.

(** X18. The tweak for the period of 0.66 works once: a node of period
    0.66 that starts at time 0.0 is at 0.66 and 1.32 after its first ticks
    and at the int 2 after the third, where [str] ends in [.98]; the sixth
    tick brings it to 3.9800000000000004, which does not end in [.98], and
    among its first 1000 ticks the third is the only one that is rounded. *)
Theorem fast_clock_snaps_once :
  ∃ trace,
    Simulator.ticks 1000 (Simulator.NFloat 0.66) (Simulator.NFloat 0)
      = Some trace ∧
    snapped trace = [3] ∧
    take 6 trace
      = [(false, Simulator.NFloat 0.66); (false, Simulator.NFloat 1.32);
         (true, Simulator.NInt 2); (false, Simulator.NFloat 2.66);
         (false, Simulator.NFloat 3.3200000000000003);
         (false, Simulator.NFloat 3.9800000000000004)].
Proof.
  eexists. split; [vm_compute; reflexivity|].
  split; vm_compute; reflexivity.
Qed.

(** * The power equations *)

(** X19. The leakage current is calibrated as the comment on [I_L]
    derives it: at nominal voltage the static power of a tile is the share
    [gamma] of the total power of a tile that multiplies, whatever the
    throughput; static power is proportional to the voltage and does not
    depend on the operation, and an SRAM bank leaks [beta] times what a
    tile leaks. *)
Theorem leakage_is_gamma_share (s : PowerModel.t) :
  (PowerModel.P_tile_static s PowerModel.V_N
     == PowerModel.gamma * PowerModel.P_tile_total s PowerModel.V_N mul)%Q ∧
  (∀ V, PowerModel.P_tile_static s V * PowerModel.V_N
          == V * PowerModel.P_tile_static s PowerModel.V_N)%Q ∧
  (∀ V, PowerModel.P_sram_static s V
          == PowerModel.beta * PowerModel.P_tile_static s V)%Q.
Proof.
  unfold PowerModel.P_tile_total, PowerModel.P_sram_static,
    PowerModel.P_tile_static, PowerModel.I_L, PowerModel.P_tile_dynamic,
    PowerModel.gamma, PowerModel.beta, PowerModel.V_N, PowerModel.alpha,
    PowerModel.alpha_mul, PowerModel.s_exp, PowerModel.f.
  split; [|split]; intros; field.
Qed.

(** Between the voltage of the slow mode and [V_max] the frequency is
    positive and grows with the voltage. *)
Lemma f_grows (V1 V2 : Q) :
  (61 # 100 <= V1 → V1 <= V2 → V2 <= 125 # 100 →
   0 < PowerModel.f V1 ∧ PowerModel.f V1 <= PowerModel.f V2)%Q.
Proof. intros H1 H2 H3. unfold PowerModel.f. split; nra. Qed.

Lemma alpha_nonneg (o : Op) : (0 <= PowerModel.alpha o)%Q.
Proof. destruct o; vm_compute; discriminate. Qed.

(** X20. A higher voltage never costs less power: for a throughput that
    is not negative and voltages between that of the slow mode and
    [V_max], the total power of a tile is not negative and does not
    decrease when the voltage is raised, whatever the tile executes, and
    neither does the total power of an SRAM bank. *)
Theorem power_grows_with_voltage (s : PowerModel.t) (o : Op) (V1 V2 : Q) :
  (0 <= PowerModel.throughput s)%Q →
  (conf_dvfs_V slow <= V1)%Q → (V1 <= V2)%Q → (V2 <= PowerModel.V_max)%Q →
  (0 <= PowerModel.P_tile_total s V1 o)%Q ∧
  (PowerModel.P_tile_total s V1 o <= PowerModel.P_tile_total s V2 o)%Q ∧
  (PowerModel.P_sram_total s V1 <= PowerModel.P_sram_total s V2)%Q.
Proof.
  intros Ht H1 H2 H3. unfold PowerModel.V_max in H3. simpl in H1.
  destruct (f_grows V1 V2 H1 H2 H3) as [Hf1 Hf12].
  assert (0 <= PowerModel.I_L s)%Q as HI.
  { unfold PowerModel.I_L, PowerModel.P_tile_dynamic, PowerModel.gamma,
      PowerModel.V_N, PowerModel.alpha, PowerModel.alpha_mul,
      PowerModel.s_exp, PowerModel.f.
    apply Qle_shift_div_l; [reflexivity|]. nra. }
  assert (∀ a, 0 <= a →
            0 <= a * PowerModel.throughput s * PowerModel.f V1 * V1 ^ 2 ∧
            a * PowerModel.throughput s * PowerModel.f V1 * V1 ^ 2
              <= a * PowerModel.throughput s * PowerModel.f V2 * V2 ^ 2)%Q
    as Hdyn.
  { intros a Ha.
    assert (0 <= a * PowerModel.throughput s)%Q by nra.
    assert (0 <= V1 ^ 2)%Q by nra. assert (V1 ^ 2 <= V2 ^ 2)%Q by nra.
    assert (PowerModel.f V1 * V1 ^ 2 <= PowerModel.f V2 * V2 ^ 2)%Q by nra.
    assert (0 <= PowerModel.f V1 * V1 ^ 2)%Q by nra.
    split; nra. }
  unfold PowerModel.P_tile_total, PowerModel.P_sram_total,
    PowerModel.P_sram_static, PowerModel.P_sram_dynamic,
    PowerModel.P_tile_static, PowerModel.P_tile_dynamic, PowerModel.beta,
    PowerModel.s_exp.
  destruct (Hdyn _ (alpha_nonneg o)) as [Ho0 Ho].
  destruct (Hdyn _ (alpha_nonneg sram)) as [_ Hs].
  split; [nra|]. split; nra.
Qed.

Lemma power_grows_with_voltage_witness :
  (PowerModel.P_tile_total (PowerModel.mk [] [] 1 1 0) (conf_dvfs_V slow) alu
   <= PowerModel.P_tile_total (PowerModel.mk [] [] 1 1 0)
        (conf_dvfs_V fast) alu)%Q.
Proof.
  apply (power_grows_with_voltage (PowerModel.mk [] [] 1 1 0) alu
           (conf_dvfs_V slow) (conf_dvfs_V fast));
    vm_compute; discriminate.
Defined.

(** * Saving and restoring a setting *)

(** A node whose cycle time is the one [conf_dvfs] pairs with its voltage. *)
Definition paired (n : Node) : Prop :=
  ∃ m, (V n == conf_dvfs_V m)%Q ∧ T n = conf_dvfs_T m.

(** What [set_V] and [set_T] leave of a node table. *)
Definition but_VT (l : list (string * Node)) : list (string * (string * Op * string)) :=
  (λ kn, (kn.1, (name kn.2, op kn.2, label kn.2))) <$> l.

Lemma update_but_VT k f (l : list (string * Node)) :
  (∀ n, (name (f n), op (f n), label (f n)) = (name n, op n, label n)) →
  but_VT (PowerModel.update k f l) = but_VT l.
Proof.
  intros Hf. unfold but_VT. induction l as [|[k0 n] l IH]; simpl; [done|].
  case_decide; rewrite !fmap_cons; simpl; [by rewrite Hf|by f_equal].
Qed.

Lemma update_app_r k f (l1 l2 : list (string * Node)) :
  k ∉ l1.*1 →
  PowerModel.update k f (l1 ++ l2) = l1 ++ PowerModel.update k f l2.
Proof.
  induction l1 as [|[k0 n] l1 IH]; simpl; [done|]. intros Hk.
  apply not_elem_of_cons in Hk as [Hne Hk].
  rewrite decide_False by done. by rewrite IH.
Qed.

Lemma set_V_node_but_VT g k v g' o :
  PowerModel.set_V_node g k v = (g', o) →
  but_VT (Graph.nodes g') = but_VT (Graph.nodes g) ∧
  Graph.srcs_adjlist g' = Graph.srcs_adjlist g ∧
  Graph.dsts_adjlist g' = Graph.dsts_adjlist g ∧
  Graph.recurrence_edges g' = Graph.recurrence_edges g ∧
  Graph.json g' = Graph.json g.
Proof.
  unfold PowerModel.set_V_node.
  destruct (Graph.get_node g k) as [node|e|]; [|by intros [= <- _]..].
  destruct (PowerModel.T v) as [t|e|]; intros [= <- _]; simpl;
    rewrite ?update_but_VT by done; done.
Qed.

Lemma set_V_range_but_VT g V_range g' o :
  PowerModel.set_V_range g V_range = (g', o) →
  but_VT (Graph.nodes g') = but_VT (Graph.nodes g) ∧
  Graph.srcs_adjlist g' = Graph.srcs_adjlist g ∧
  Graph.dsts_adjlist g' = Graph.dsts_adjlist g ∧
  Graph.recurrence_edges g' = Graph.recurrence_edges g ∧
  Graph.json g' = Graph.json g.
Proof.
  revert g. induction V_range as [|[k v] rest IH]; intros g H; simpl in H.
  - by injection H as <- _.
  - destruct (PowerModel.set_V_node g k v) as [g1 r] eqn:E1.
    apply set_V_node_but_VT in E1 as (E1 & E2 & E3 & E4 & E5).
    destruct r as [[]|e|].
    + apply IH in H as (H1 & H2 & H3 & H4 & H5). repeat split; congruence.
    + injection H as <- _. done.
    + injection H as <- _. done.
Qed.

Lemma T_paired n : paired n → PowerModel.T (V n) = Returns (T n).
Proof.
  intros (m & Hm & ->).
  destruct (T_spec (V n)) as [(m' & Hm' & ->)|[Hno _]]; [|by destruct (Hno m)].
  rewrite Hm in Hm'. by destruct m, m'.
Qed.

Definition settings (l : list (string * Node)) : list (string * Q) :=
  (λ kn, (kn.1, V kn.2)) <$> l.

Lemma assoc_NoDup {A} k (a : A) (l : list (string * A)) :
  NoDup l.*1 → (k, a) ∈ l → Graph.assoc k l = Some a.
Proof.
  induction l as [|[k0 a0] l IH]; simpl; intros Hnd Hin.
  - by apply elem_of_nil in Hin.
  - apply NoDup_cons in Hnd as [Hk0 Hnd].
    apply elem_of_cons in Hin as [[= -> ->]|Hin]; [by rewrite decide_True|].
    rewrite decide_False; [by apply IH|].
    intros ->. apply Hk0. apply list_elem_of_fmap. by exists (k0, a).
Qed.

Lemma extract_node_settings_spec g :
  NoDup (Graph.all_nodes g) →
  PowerModel.extract_node_settings g = Returns (settings (Graph.nodes g)).
Proof.
  intros Hnd. unfold PowerModel.extract_node_settings, Graph.all_nodes.
  assert (∀ l, l ⊆ Graph.nodes g →
    mapM (λ node_name, node ← Graph.get_node g node_name;
                       Returns (node_name, V node)) l.*1
    = Returns (settings l)) as H.
  { induction l as [|[k n] l IH]; intros Hl; [done|].
    assert (Graph.get_node g k = Returns n) as Hk.
    { unfold Graph.get_node.
      rewrite (assoc_NoDup k n); [done|done|]. apply Hl. left. }
    rewrite fmap_cons. simpl. rewrite Hk. simpl.
    rewrite IH; [done|]. intros x Hx. apply Hl. by right. }
  by apply H.
Qed.

Lemma restore_loop done todo todo1 srcs dsts rec js :
  NoDup (done ++ todo).*1 →
  Forall (λ kn, paired kn.2) todo →
  but_VT todo1 = but_VT todo →
  PowerModel.set_V_range (Graph.mk (done ++ todo1) srcs dsts rec js)
                         (settings todo)
  = (Graph.mk (done ++ todo) srcs dsts rec js, Returns tt).
Proof.
  revert done todo1.
  induction todo as [|[k n] todo IH]; intros done todo1 Hnd Hp Hs.
  - destruct todo1; [done|discriminate].
  - destruct todo1 as [|[k1 n1] todo1]; [discriminate|].
    unfold but_VT in Hs. rewrite !fmap_cons in Hs. simpl in Hs.
    injection Hs as -> Hname Hop Hlabel Hs.
    apply Forall_cons in Hp as [Hpn Hp]. simpl in Hpn.
    assert (k ∉ done.*1) as Hk.
    { rewrite fmap_app in Hnd. apply NoDup_app in Hnd as (_ & Hd & _).
      intros Hin. apply (Hd k Hin). rewrite fmap_cons. left. }
    unfold settings. rewrite fmap_cons. simpl.
    unfold PowerModel.set_V_node, Graph.get_node. simpl.
    rewrite assoc_app. apply assoc_None in Hk as Hk'. rewrite Hk'. simpl.
    rewrite decide_True by done.
    rewrite (T_paired n Hpn). unfold PowerModel.update_node. simpl.
    rewrite !update_app_r by done. simpl. rewrite decide_True by done.
    cbn [PowerModel.update]. rewrite decide_True by done.
    assert (set_T (set_V n1 (V n)) (T n) = n) as ->.
    { destruct n, n1. simpl in *. unfold set_T, set_V. simpl. congruence. }
    rewrite (cons_middle (k, n) done todo1), (cons_middle (k, n) done todo).
    rewrite !app_assoc. apply IH; [by rewrite <- app_assoc|done|done].
Qed.

(** X21. A saved setting brings the graph back: on a node table with
    distinct names in which every node has a voltage of [conf_dvfs] and
    the cycle time paired with it, [extract_node_settings] returns a
    setting, and whatever a [set_V_range] did to the graph afterwards, also
    one that raised halfway, [set_V_range] with the saved setting returns
    and leaves exactly the graph that was saved. *)
Theorem settings_restore (g g1 : Graph.t) (V_range : list (string * Q))
    (o : outcome unit) :
  NoDup (Graph.all_nodes g) →
  Forall (λ kn, paired kn.2) (Graph.nodes g) →
  PowerModel.set_V_range g V_range = (g1, o) →
  ∃ setting,
    PowerModel.extract_node_settings g = Returns setting ∧
    PowerModel.set_V_range g1 setting = (g, Returns tt).
Proof.
  intros Hnd Hp Hset. exists (settings (Graph.nodes g)).
  split; [by apply extract_node_settings_spec|].
  apply set_V_range_but_VT in Hset as (H1 & H2 & H3 & H4 & H5).
  destruct g as [l A B R J], g1 as [l1 A1 B1 R1 J1]. simpl in *. subst.
  by apply (restore_loop [] l l1).
Qed.

Lemma settings_restore_witness :
  ∃ g1 setting,
    PowerModel.set_V_range mul_add_graph
      [("m", (123 # 100)%Q); ("a", 1%Q)] = (g1, Raises AssertionError) ∧
    Graph.get_node g1 "m"
      = Returns (mkNode "m" mul "mul" (123 # 100) (66 # 100)) ∧
    PowerModel.extract_node_settings mul_add_graph = Returns setting ∧
    PowerModel.set_V_range g1 setting = (mul_add_graph, Returns tt).
Proof.
  pose (r := PowerModel.set_V_range mul_add_graph
               [("m", (123 # 100)%Q); ("a", 1%Q)]).
  destruct (settings_restore mul_add_graph r.1
              [("m", (123 # 100)%Q); ("a", 1%Q)] r.2)
    as (setting & Hsave & Hback).
  - by_compute.
  - repeat constructor; exists nominal; split; reflexivity.
  - apply surjective_pairing.
  - exists r.1, setting. split; [vm_compute; reflexivity|].
    split; [vm_compute; reflexivity|]. split; [exact Hsave|exact Hback].
Defined.
